(** * Gyroid-Gen: the geometry pipeline and the binary STL encoder

    A shallow embedding of [utils/marchingCubes.ts] (Taubin smoothing,
    vertex normals, largest-component extraction, the field builder, the
    boundary voider, marching cubes with edge caches and the orchestrator
    [generateGyroidMesh]), of [utils/stl.ts] ([exportToSTL]) and of the
    few functions of the application that feed them, followed by the
    properties of the specification proved about them and by further
    properties of the code.

    JavaScript numbers are IEEE-754 binary64 values; they are modelled with
    [spec_float] and the bit-exact operations of [SpecFloat] at precision 53.
    A [Float32Array] cell holds the [Math_fround] of what is stored in it.
    Numbers that the program only ever uses as array indices, lengths and
    loop counters are integers below 2^53 and are modelled in [Z]. *)

From Stdlib Require Import ZArith Lia Bool String.
From Stdlib Require Import Floats.SpecFloat.
From stdpp Require Import base option list list_numbers.

Local Open Scope Z_scope.

(** ** JavaScript numbers *)

Module Num.

Definition number := spec_float.

Definition NaN : number := S754_nan.
Definition of_Z (n : Z) : number := binary_normalize 53 1024 n 0 false.
Definition zero : number := S754_zero false.
Definition one : number := Eval vm_compute in of_Z 1.

Definition fadd : number -> number -> number := SFadd 53 1024.
Definition fsub : number -> number -> number := SFsub 53 1024.
Definition fmul : number -> number -> number := SFmul 53 1024.
Definition fdiv : number -> number -> number := SFdiv 53 1024.
Definition fneg : number -> number := SFopp.
Definition Math_abs : number -> number := SFabs.
Definition Math_sqrt : number -> number := SFsqrt 53 1024.

(** [a < b], [a <= b] and [a === b] on numbers; [a > b] is [flt b a] and
    [a >= b] is [fle b a].  Every comparison with NaN is false. *)
Definition flt : number -> number -> bool := SFltb.
Definition fle : number -> number -> bool := SFleb.
Definition feq : number -> number -> bool := SFeqb.

(** A decimal literal [m / 10^k]: the quotient of two exactly representable
    integers is correctly rounded, hence the double the literal denotes. *)
Definition dec (m : Z) (k : Z) : number := fdiv (of_Z m) (of_Z (10 ^ k)).

(** [Math.PI] = 0x400921FB54442D18. *)
Definition Math_PI : number := S754_finite false 7074237752028440 (-51).

(** [!x] on a number: true for +0, -0 and NaN. *)
Definition falsy (x : number) : bool :=
  match x with
  | S754_zero _ | S754_nan => true
  | _ => false
  end.

(** The integer below a finite number ([None] for NaN and the infinities). *)
Definition Zfloor (x : number) : option Z :=
  match x with
  | S754_zero _ => Some 0
  | S754_finite s m e => Some (Z.shiftl (cond_Zopp s (Zpos m)) e)
  | _ => None
  end.

Definition Zceil (x : number) : option Z := Z.opp <$> Zfloor (fneg x).

Definition Math_floor (x : number) : number :=
  match x with
  | S754_finite s m e =>
      if 0 <=? e then x
      else
        let n := Z.shiftl (cond_Zopp s (Zpos m)) e in
        if n =? 0 then S754_zero s else of_Z n
  | _ => x
  end.

(** [Math.round]: the integer nearest to [x], ties towards +infinity; the
    sign of a zero result is the sign of [x]. *)
Definition Math_round (x : number) : number :=
  match x with
  | S754_finite s m e =>
      if 0 <=? e then x
      else
        let n := Z.shiftl (2 * cond_Zopp s (Zpos m) + 2 ^ (- e)) (e - 1) in
        if n =? 0 then S754_zero s else of_Z n
  | _ => x
  end.

Definition Math_max (a b : number) : number :=
  match a, b with
  | S754_nan, _ | _, S754_nan => NaN
  | _, _ => if flt a b then b else a
  end.

(** The binary32 value nearest to a double (ties to even). *)
Definition to_binary32 (x : number) : spec_float :=
  match x with
  | S754_finite s m e => binary_round 24 128 s m e
  | _ => x
  end.

(** [Math.fround]: what a [Float32Array] cell holds after a store, read
    back as a double. *)
Definition Math_fround (x : number) : number :=
  match to_binary32 x with
  | S754_finite s m e => binary_round 53 1024 s m e
  | y => y
  end.

(** The 32 bits of a binary32 value (NaN as the quiet NaN 0x7fc00000). *)
Definition binary32_bits (y : spec_float) : Z :=
  let sign (s : bool) := if s then 2 ^ 31 else 0 in
  match y with
  | S754_zero s => sign s
  | S754_infinity s => sign s + 255 * 2 ^ 23
  | S754_nan => 255 * 2 ^ 23 + 2 ^ 22
  | S754_finite s m e =>
      if Zpos m <? 2 ^ 23 then sign s + Zpos m
      else sign s + (e + 150) * 2 ^ 23 + (Zpos m - 2 ^ 23)
  end.

(** ToUint32 and ToInt32 on integers. *)
Definition to_uint32 (n : Z) : Z := n mod 2 ^ 32.
Definition to_int32 (n : Z) : Z := (n + 2 ^ 31) mod 2 ^ 32 - 2 ^ 31.

End Num.
Import Num.

(** ** Arrays

    Typed arrays and plain arrays are lists.  Reading outside the bounds
    yields [undefined] ([None]); a typed-array store outside the bounds is
    ignored. *)

Definition len {A} (l : list A) : Z := Z.of_nat (length l).

Definition at_ {A} (l : list A) (i : Z) : option A :=
  if decide (0 <= i) then l !! Z.to_nat i else None.

Definition put {A} (l : list A) (i : Z) (x : A) : list A :=
  if decide (0 <= i) then <[Z.to_nat i := x]> l else l.

(** A number read for arithmetic: [undefined] converts to NaN. *)
Definition num_at (a : list number) (i : Z) : number := default NaN (at_ a i).

(** [a[i * 3 + k]] where the index [i] was itself read from an array. *)
Definition num_at3 (a : list number) (i : option Z) (k : Z) : number :=
  match i with
  | Some i => num_at a (i * 3 + k)
  | None => NaN
  end.

(** [new Uint32Array(xs)] from a plain array that may hold [undefined]. *)
Definition Uint32Array_from (xs : list (option Z)) : list Z :=
  (fun x => to_uint32 (default 0 x)) <$> xs.

(** [new Float32Array(xs)] from numbers. *)
Definition Float32Array_from (xs : list number) : list number :=
  Math_fround <$> xs.

(** ** Outcomes of a call *)

Inductive exn :=
  | Error (msg : string)      (* [throw new Error(msg)] *)
  | TypeError                 (* a property of [undefined] is accessed *)
  | RangeError                (* invalid length, or a write past a DataView *)
  | CallbackThrew             (* the progress callback raised *)
  | FuelExhausted.            (* bound of the flood fill; see extractLargestComponent_fuel *)

Inductive outcome (A : Type) :=
  | Return (a : A)
  | Throw (e : exn)
  | Diverges.                 (* the call never returns *)
Arguments Return {A} a.
Arguments Throw {A} e.
Arguments Diverges {A}.

Definition obind {A B} (m : outcome A) (k : A -> outcome B) : outcome B :=
  match m with
  | Return a => k a
  | Throw e => Throw e
  | Diverges => Diverges
  end.

Declare Scope outcome_scope.
Delimit Scope outcome_scope with outcome.
Notation "'let!' x ':=' m 'in' k" := (obind m (fun x => k))
  (at level 10, x pattern, m at level 100, k at level 200) : outcome_scope.
Local Open Scope outcome_scope.

(** [for (const x of xs) acc = f(acc, x)], stopping at the first throw. *)
Fixpoint ofold {A B} (f : A -> B -> outcome A) (a : A) (xs : list B) : outcome A :=
  match xs with
  | [] => Return a
  | x :: xs => let! a := f a x in ofold f a xs
  end.

(** The values [0, 1, ..., ] of a counter [i] running while [i < n / 3]. *)
Definition thirds (n : Z) : list Z := seqZ 0 ((n + 2) / 3).

(** ** Meshes *)

Record MeshData := {
  vertices : list number;   (* Float32Array: unique vertex positions x,y,z *)
  normals : list number;    (* Float32Array: per-vertex normals *)
  indices : list Z;         (* Uint32Array: three vertex indices per face *)
}.

(** ** Taubin smoothing on an indexed mesh *)

Definition lambda : number := Eval vm_compute in dec 5 1.
Definition mu : number := Eval vm_compute in fneg (dec 53 2).

(** [adjTemp[a].push(b, c)]; [adjTemp[a]] is [undefined] for a vertex index
    that is out of range, and [push] on it raises. *)
Definition push_adj (adjTemp : list (list Z)) (a b c : Z) : outcome (list (list Z)) :=
  match at_ adjTemp a with
  | Some row => Return (put adjTemp a (row ++ [b; c]))
  | None => Throw TypeError
  end.

(** One face of the adjacency loop.  An index read past the end of
    [indices] is [undefined], and the face then always ends in a
    [TypeError] at [adjTemp[undefined].push]. *)
Definition adj_face (indices : list Z) (adjTemp : list (list Z)) (f : Z)
  : outcome (list (list Z)) :=
  match at_ indices (f * 3), at_ indices (f * 3 + 1), at_ indices (f * 3 + 2) with
  | Some a, Some b, Some c =>
      let! adjTemp := push_adj adjTemp a b c in
      let! adjTemp := push_adj adjTemp b a c in
      push_adj adjTemp c a b
  | _, _, _ => Throw TypeError
  end.

(** [[...new Set(xs)]]: the distinct elements in order of first occurrence. *)
Fixpoint unique_from (seen : list Z) (xs : list Z) : list Z :=
  match xs with
  | [] => []
  | x :: xs =>
      if decide (x ∈ seen) then unique_from seen xs
      else x :: unique_from (x :: seen) xs
  end.
Definition unique (xs : list Z) : list Z := unique_from [] xs.

(** The one-ring neighbour rows.  The source flattens them into the CSR
    pair [adjOffset], [adj]; row [v] is [adj[adjOffset[v] .. adjOffset[v+1])]. *)
Definition build_adjacency (numVerts : Z) (indices : list Z) : outcome (list (list Z)) :=
  let! adjTemp := ofold (adj_face indices) (replicate (Z.to_nat numVerts) []) (thirds (len indices)) in
  Return (unique <$> adjTemp).

(** The body of the loop over [v] for one vertex with neighbour row [nbrs]:
    [temp] is the snapshot taken at the start of the half-step. *)
Definition smooth_vertex (factor : number) (temp : list number)
    (result : list number) (v : Z) (nbrs : list Z) : list number :=
  let count := len nbrs in
  if count =? 0 then result
  else
    let sx := foldl (fun s n => fadd s (num_at temp (n * 3))) zero nbrs in
    let sy := foldl (fun s n => fadd s (num_at temp (n * 3 + 1))) zero nbrs in
    let sz := foldl (fun s n => fadd s (num_at temp (n * 3 + 2))) zero nbrs in
    let inv := fdiv one (of_Z count) in
    let upd (k : Z) (s : number) :=
      Math_fround (fadd (num_at temp (v * 3 + k))
                        (fmul factor (fsub (fmul s inv) (num_at temp (v * 3 + k))))) in
    put (put (put result (v * 3) (upd 0 sx)) (v * 3 + 1) (upd 1 sy)) (v * 3 + 2) (upd 2 sz).

(** One half-step: [temp.set(result)] and the loop over the vertices. *)
Definition half_step (adj : list (list Z)) (factor : number) (result : list number)
  : list number :=
  let temp := result in
  foldl (fun res vn => smooth_vertex factor temp res (fst vn) (snd vn)) result
        (zip (seqZ 0 (len adj)) adj).

Definition taubin_factor (iter : Z) : number :=
  if iter mod 2 =? 0 then lambda else mu.

(** How many times [for (iter = 0; iter < bound; iter++)] runs.  Past 2^53
    the increment no longer changes [iter] and the loop never ends. *)
Definition loop_count (bound : number) : option Z :=
  match bound with
  | S754_infinity false => None
  | _ =>
      match Zceil bound with
      | Some c => if c <=? 2 ^ 53 then Some (Z.max 0 c) else None
      | None => Some 0
      end
  end.

Definition taubinSmooth (positions : list number) (indices : list Z)
    (iterations : number) : outcome (list number) :=
  if fle iterations zero || (len positions =? 0) then Return positions
  else if negb (len positions mod 3 =? 0)
  then Throw RangeError           (* new Array(numVerts), numVerts fractional *)
  else
    let numVerts := len positions / 3 in
    let! adj := build_adjacency numVerts indices in
    match loop_count (fmul iterations (of_Z 2)) with
    | None => Diverges
    | Some n =>
        Return (foldl (fun result iter => half_step adj (taubin_factor iter) result)
                      positions (seqZ 0 n))
    end.

(** ** Per-vertex normals (area-weighted face normals) *)

(** [a[i * 3 + k] += d] on a [Float32Array]; nothing is stored when the
    index is [undefined] or out of range. *)
Definition add_at3 (a : list number) (i : option Z) (k : Z) (d : number) : list number :=
  match i with
  | Some i => put a (i * 3 + k) (Math_fround (fadd (num_at a (i * 3 + k)) d))
  | None => a
  end.

(** The cross product [(p1 - p0) x (p2 - p0)] of the corners of a face. *)
Definition face_cross (pos : list number) (i0 i1 i2 : option Z) : number * number * number :=
  let ax := fsub (num_at3 pos i1 0) (num_at3 pos i0 0) in
  let ay := fsub (num_at3 pos i1 1) (num_at3 pos i0 1) in
  let az := fsub (num_at3 pos i1 2) (num_at3 pos i0 2) in
  let bx := fsub (num_at3 pos i2 0) (num_at3 pos i0 0) in
  let by_ := fsub (num_at3 pos i2 1) (num_at3 pos i0 1) in
  let bz := fsub (num_at3 pos i2 2) (num_at3 pos i0 2) in
  (fsub (fmul ay bz) (fmul az by_),
   fsub (fmul az bx) (fmul ax bz),
   fsub (fmul ax by_) (fmul ay bx)).

Definition accumulate_face (pos : list number) (idx : list Z)
    (normals : list number) (f : Z) : list number :=
  let i0 := at_ idx (f * 3) in
  let i1 := at_ idx (f * 3 + 1) in
  let i2 := at_ idx (f * 3 + 2) in
  let '(nx, ny, nz) := face_cross pos i0 i1 i2 in
  let add3 (n : list number) (i : option Z) :=
    add_at3 (add_at3 (add_at3 n i 0 nx) i 1 ny) i 2 nz in
  add3 (add3 (add3 normals i0) i1) i2.

Definition tiny : number := Eval vm_compute in dec 1 8.        (* 1e-8 *)

Definition normalize_vertex (normals : list number) (v : Z) : list number :=
  let x := num_at normals (v * 3) in
  let y := num_at normals (v * 3 + 1) in
  let z := num_at normals (v * 3 + 2) in
  let l := Math_sqrt (fadd (fadd (fmul x x) (fmul y y)) (fmul z z)) in
  if flt tiny l then
    let inv := fdiv one l in
    let scale (n : list number) (k : Z) :=
      put n (v * 3 + k) (Math_fround (fmul (num_at n (v * 3 + k)) inv)) in
    scale (scale (scale normals 0) 1) 2
  else normals.

(** [pos.length] is a multiple of three at the only call site, so
    [numVerts * 3] is [pos.length]. *)
Definition computeVertexNormals (pos : list number) (idx : list Z) : list number :=
  let numVerts := len pos / 3 in
  let normals := replicate (Z.to_nat (numVerts * 3)) zero in
  let normals := foldl (accumulate_face pos idx) normals (thirds (len idx)) in
  foldl normalize_vertex normals (seqZ 0 numVerts).

(** ** Largest connected component (triangle flood fill) *)

(** [vertFaces[v].push(f)]. *)
Definition push_face (vertFaces : list (list Z)) (v : option Z) (f : Z)
  : outcome (list (list Z)) :=
  match v with
  | Some v =>
      match at_ vertFaces v with
      | Some row => Return (put vertFaces v (row ++ [f]))
      | None => Throw TypeError
      end
  | None => Throw TypeError
  end.

Definition vert_face (indices : list Z) (vertFaces : list (list Z)) (f : Z)
  : outcome (list (list Z)) :=
  let! vertFaces := push_face vertFaces (at_ indices (f * 3)) f in
  let! vertFaces := push_face vertFaces (at_ indices (f * 3 + 1)) f in
  push_face vertFaces (at_ indices (f * 3 + 2)) f.

(** [if (!visited[nf]) { visited[nf] = 1; stack.push(nf); }] for the faces
    around one vertex.  The top of the stack is the head of the list. *)
Definition visit_faces (nfs : list Z) (st : list Z * list Z) : list Z * list Z :=
  foldl (fun '(visited, stack) nf =>
           match at_ visited nf with
           | Some 0 | None => (put visited nf 1, nf :: stack)
           | Some _ => (visited, stack)
           end) st nfs.

(** The three corners of a popped face [f]. *)
Definition visit_corners (indices : list Z) (vertFaces : list (list Z)) (f : Z)
    (st : list Z * list Z) : outcome (list Z * list Z) :=
  ofold (fun st k =>
           match at_ indices (f * 3 + k) with
           | Some v =>
               match at_ vertFaces v with
               | Some nfs => Return (visit_faces nfs st)
               | None => Throw TypeError       (* undefined is not iterable *)
               end
           | None => Throw TypeError
           end) st [0; 1; 2].

(** [while (stack.length > 0)]: every round pops one face and marks the
    faces it pushes, so [fuel] above the number of unmarked faces plus the
    stack height is never used up. *)
Fixpoint flood (fuel : nat) (indices : list Z) (vertFaces : list (list Z))
    (visited stack comp : list Z) : outcome (list Z * list Z) :=
  match stack with
  | [] => Return (visited, comp)
  | f :: stack =>
      match fuel with
      | O => Throw FuelExhausted
      | S fuel =>
          let! st := visit_corners indices vertFaces f (visited, stack) in
          flood fuel indices vertFaces (fst st) (snd st) (comp ++ [f])
      end
  end.

(** The number of faces not yet marked. *)
Definition unvisited (visited : list Z) : nat :=
  length (filter (fun b => b = 0) visited).

(** One round of the loop over [seed]. *)
Definition flood_seed (indices : list Z) (vertFaces : list (list Z))
    (st : list Z * list Z) (seed : Z) : outcome (list Z * list Z) :=
  let '(visited, bestComp) := st in
  match at_ visited seed with
  | Some 0 | None =>
      let visited := put visited seed 1 in
      let! vc := flood (S (unvisited visited)) indices vertFaces visited [seed] [] in
      Return (fst vc, if len bestComp <? len (snd vc) then snd vc else bestComp)
  | Some _ => Return st
  end.

(** The remapping loop over the corners of the kept faces:
    [if (vertMap[v] === -1) vertMap[v] = newVertCount++; newIdx.push(vertMap[v])]. *)
Definition remap_corner (indices : list Z) (f : Z)
    (st : list Z * Z * list (option Z)) (k : Z) : list Z * Z * list (option Z) :=
  let '(vertMap, newVertCount, newIdx) := st in
  match at_ indices (f * 3 + k) with
  | Some v =>
      let '(vertMap, newVertCount) :=
        match at_ vertMap v with
        | Some (-1) => (put vertMap v newVertCount, newVertCount + 1)
        | _ => (vertMap, newVertCount)
        end in
      (vertMap, newVertCount, newIdx ++ [at_ vertMap v])
  | None => (vertMap, newVertCount, newIdx ++ [None])
  end.

Definition remap_face (indices : list Z)
    (st : list Z * Z * list (option Z)) (f : Z) : list Z * Z * list (option Z) :=
  foldl (remap_corner indices f) st [0; 1; 2].

(** [if (vertMap[v] >= 0) newPos[vertMap[v] * 3 + k] = positions[v * 3 + k]]. *)
Definition move_vertex (positions : list number) (vertMap : list Z)
    (newPos : list number) (v : Z) : list number :=
  match at_ vertMap v with
  | Some m =>
      if 0 <=? m then
        put (put (put newPos (m * 3) (Math_fround (num_at positions (v * 3))))
                 (m * 3 + 1) (Math_fround (num_at positions (v * 3 + 1))))
            (m * 3 + 2) (Math_fround (num_at positions (v * 3 + 2)))
      else newPos
  | None => newPos
  end.

Definition extractLargestComponent (positions : list number) (indices : list Z)
  : outcome (list number * list Z) :=
  if len indices <? 300 then Return (positions, indices)     (* numFaces < 100 *)
  else if negb (len positions mod 3 =? 0)
  then Throw RangeError              (* new Array(numVerts), numVerts fractional *)
  else
    let numVerts := len positions / 3 in
    let! vertFaces :=
      ofold (vert_face indices) (replicate (Z.to_nat numVerts) []) (thirds (len indices)) in
    let visited := replicate (Z.to_nat (len indices / 3)) 0 in
    let! vb :=
      ofold (flood_seed indices vertFaces) (visited, []) (thirds (len indices)) in
    let bestComp := snd vb in
    if len bestComp * 3 =? len indices then Return (positions, indices)
    else
      let '(vertMap, newVertCount, newIdx) :=
        foldl (remap_face indices) (replicate (Z.to_nat numVerts) (-1), 0, []) bestComp in
      let newPos :=
        foldl (move_vertex positions vertMap)
              (replicate (Z.to_nat (newVertCount * 3)) zero) (seqZ 0 numVerts) in
      Return (newPos, Uint32Array_from newIdx).

(** ** Generation parameters ([types.ts]) *)

Record GenParams := {
  size : number;
  cellSize : number;
  wallThickness : number;                (* gyroid threshold, unitless *)
  useFrame : bool;                       (* true: edge-beam frame; false: shell *)
  shellThickness : number;
  frameBeamWidth : number;
  resolution : number;
  smoothingIterations : option number;   (* optional field *)
  makeManifold : option bool;            (* optional field *)
}.

(** The two optional fields after the destructuring in
    [generateGyroidMesh] has applied its defaults. *)
Definition smoothingIterations_of (params : GenParams) : number :=
  default (of_Z 10) (smoothingIterations params).
Definition makeManifold_of (params : GenParams) : bool :=
  default false (makeManifold params).

(** The checks at the head of [generateGyroidMesh], in source order. *)
Definition validate (params : GenParams) : option exn :=
  if falsy (cellSize params) || fle (cellSize params) zero
  then Some (Error "Invalid cell size")
  else if falsy (resolution params) || fle (resolution params) zero
  then Some (Error "Invalid resolution")
  else if falsy (size params) || fle (size params) zero
  then Some (Error "Invalid size")
  else None.

(** Auto-snap: an integer number of complete cells in the volume. *)
Definition snappedCellCount (params : GenParams) : number :=
  Math_max one (Math_round (fdiv (size params) (cellSize params))).
Definition snappedCellSize (params : GenParams) : number :=
  fdiv (size params) (snappedCellCount params).
Definition scale_of (params : GenParams) : number :=
  fdiv (fmul (of_Z 2) Math_PI) (snappedCellSize params).

(** The grid constants [res], [np], [np2], [total], [step] and [half]. *)
Record grid := {
  res : Z;
  step : number;
  half : number;
}.
Definition np (g : grid) : Z := res g + 1.
Definition np2 (g : grid) : Z := np g * np g.
Definition total (g : grid) : Z := np g * np g * np g.

(** ** The binary solid field *)

(** Frame mode: a voxel is structural when it lies within [bw] of two
    perpendicular faces of the cube. *)
Definition structural_frame (half bw xMM yMM zMM : number) : bool :=
  let nearX := fle (fsub half bw) (Math_abs xMM) in
  let nearY := fle (fsub half bw) (Math_abs yMM) in
  let nearZ := fle (fsub half bw) (Math_abs zMM) in
  (nearX && nearY) || (nearX && nearZ) || (nearY && nearZ).

(** Shell mode: the hollow box, with the port openings of channel A on the
    Z faces and of channel B on the X faces unless [makeManifold]. *)
Definition structural_shell (half step shellThickness : number) (makeManifold : bool)
    (channelA channelB : bool) (xMM yMM zMM : number) : bool :=
  let faceDepth := fadd shellThickness (fmul step (of_Z 2)) in
  let inInner :=
    fle (Math_abs xMM) (fsub half shellThickness)
    && fle (Math_abs yMM) (fsub half shellThickness)
    && fle (Math_abs zMM) (fsub half shellThickness) in
  let structural := negb inInner in
  if structural && negb makeManifold then
    let zFace := flt zMM (fadd (fneg half) faceDepth) || flt (fsub half faceDepth) zMM in
    let xFace := flt xMM (fadd (fneg half) faceDepth) || flt (fsub half faceDepth) xMM in
    let edgeMargin := fadd shellThickness step in
    let nearYEdge := flt yMM (fadd (fneg half) edgeMargin) || flt (fsub half edgeMargin) yMM in
    let openA := zFace && negb xFace && negb nearYEdge && channelA in
    let openB := xFace && negb zFace && negb nearYEdge && channelB in
    if openA || openB then false else structural
  else structural.

Section Field.
Variable params : GenParams.
Variable g : grid.
Variables mmCoords sinRad cosRad : list number.

(** [structural] as computed in the loop body for the voxel at [idx],
    given the two channel tests. *)
Definition structural_at (channelA channelB : bool) (xMM yMM zMM : number) : bool :=
  if useFrame params
  then structural_frame (half g) (frameBeamWidth params) xMM yMM zMM
  else structural_shell (half g) (step g) (shellThickness params)
         (makeManifold_of params) channelA channelB xMM yMM zMM.

(** The value stored in [solidField[idx]]. *)
Definition voxel (idx : Z) : Z :=
  let zi := to_int32 (idx / np2 g) in
  let rem := idx - zi * np2 g in
  let yi := to_int32 (rem / np g) in
  let xi := rem - yi * np g in
  let xMM := num_at mmCoords xi in
  let yMM := num_at mmCoords yi in
  let zMM := num_at mmCoords zi in
  let G := fadd (fadd (fmul (num_at sinRad xi) (num_at cosRad yi))
                      (fmul (num_at sinRad yi) (num_at cosRad zi)))
                (fmul (num_at sinRad zi) (num_at cosRad xi)) in
  let channelA := flt (wallThickness params) G in
  let channelB := flt G (fneg (wallThickness params)) in
  let gyroidWall := negb channelA && negb channelB in
  if structural_at channelA channelB xMM yMM zMM || gyroidWall then 1 else 0.

(** The inner loop [for (idx = start; idx < end; idx++)] of one chunk. *)
Definition fill_chunk (solidField : list Z) (start : Z) : list Z :=
  let end_ := Z.min (start + 100000) (total g) in
  foldl (fun fld idx => put fld idx (voxel idx)) solidField (seqZ start (end_ - start)).
End Field.

(** ** Voiding the boundary layer of the grid *)

Definition void_pair (g : grid) (solidField : list Z) (a b : Z) : list Z :=
  let f := solidField in
  let f := put f (0 + a * np g + b * np2 g) 0 in
  let f := put f (res g + a * np g + b * np2 g) 0 in
  let f := put f (a + 0 + b * np2 g) 0 in
  let f := put f (a + res g * np g + b * np2 g) 0 in
  let f := put f (a + b * np g) 0 in
  put f (a + b * np g + res g * np2 g) 0.

Definition void_boundary (g : grid) (solidField : list Z) : list Z :=
  foldl (fun f a => foldl (fun f b => void_pair g f a b) f (seqZ 0 (np g)))
        solidField (seqZ 0 (np g)).

(** ** Marching cubes with edge-vertex caches *)

(** Corner [i] of a cube sits at [(dX[i], dY[i], dZ[i])] from its origin. *)
Definition dX : list Z := [0; 1; 1; 0; 0; 1; 1; 0].
Definition dY : list Z := [0; 0; 1; 1; 0; 0; 1; 1].
Definition dZ : list Z := [0; 0; 0; 0; 1; 1; 1; 1].

(** The corner that owns the cache slot of each edge, and the edge's axis. *)
Definition EDGE_CACHE_CORNER : list Z := [0; 1; 3; 0; 4; 5; 7; 4; 0; 1; 2; 3].
Definition EDGE_DIR : list Z := [0; 1; 0; 1; 0; 1; 0; 1; 2; 2; 2; 2].

(** A table entry read at an index that is always in range. *)
Definition tbl (t : list Z) (i : Z) : Z := default 0 (at_ t i).

Definition cornerOff (g : grid) (c : Z) : Z :=
  tbl dX c + tbl dY c * np g + tbl dZ c * np2 g.

Definition axisDelta (g : grid) (dir : Z) : Z :=
  if dir =? 0 then 1 else if dir =? 1 then np g else np2 g.

(** The output buffers and the three caches.  A plain array holds fewer
    than 2^32 elements, so a vertex index [positions.length / 3] is below
    2^31 and the [Int32Array] caches store it unchanged; the lengths of
    arrays are otherwise not bounded in the model. *)
Record mc_state := {
  positions : list number;
  cacheX : list Z;
  cacheY : list Z;
  cacheZ : list Z;
  faceIndices : list (option Z);
}.

Definition cache_of (st : mc_state) (dir : Z) : list Z :=
  if dir =? 0 then cacheX st else if dir =? 1 then cacheY st else cacheZ st.

Definition cache_put (st : mc_state) (dir baseIdx v : Z) : mc_state :=
  if dir =? 0 then
    {| positions := positions st; cacheX := put (cacheX st) baseIdx v;
       cacheY := cacheY st; cacheZ := cacheZ st; faceIndices := faceIndices st |}
  else if dir =? 1 then
    {| positions := positions st; cacheX := cacheX st;
       cacheY := put (cacheY st) baseIdx v; cacheZ := cacheZ st;
       faceIndices := faceIndices st |}
  else
    {| positions := positions st; cacheX := cacheX st; cacheY := cacheY st;
       cacheZ := put (cacheZ st) baseIdx v; faceIndices := faceIndices st |}.

Definition push_position (st : mc_state) (wx wy wz : number) : mc_state :=
  {| positions := positions st ++ [wx; wy; wz]; cacheX := cacheX st;
     cacheY := cacheY st; cacheZ := cacheZ st; faceIndices := faceIndices st |}.

Definition push_face_indices (st : mc_state) (a b c : option Z) : mc_state :=
  {| positions := positions st; cacheX := cacheX st; cacheY := cacheY st;
     cacheZ := cacheZ st; faceIndices := faceIndices st ++ [a; b; c] |}.

Definition eps6 : number := Eval vm_compute in dec 1 6.        (* 1e-6 *)
Definition num_half : number := Eval vm_compute in dec 5 1.    (* 0.5 *)

(** The signed sample [-1] (solid) or [1] (void) at a grid point. *)
Definition sample (solidField : list Z) (i : Z) : number :=
  match at_ solidField i with
  | Some 1 => fneg one
  | _ => one
  end.

(** The interpolation parameter along an edge with end samples [fA], [fB]. *)
Definition interpolate (fA fB : number) : number :=
  let diff := fsub fB fA in
  if flt eps6 (Math_abs diff) then
    let m := fdiv (fneg fA) diff in
    if flt m zero then zero else if flt one m then one else m
  else num_half.

(** The world position of the vertex on the edge that starts at grid point
    [baseIdx] and runs along axis [dir]. *)
Definition edge_position (g : grid) (solidField : list Z) (dir baseIdx : Z)
  : number * number * number :=
  let endA := baseIdx in
  let endB := baseIdx + axisDelta g dir in
  let m := interpolate (sample solidField endA) (sample solidField endB) in
  let gz := to_int32 (baseIdx / np2 g) in
  let gy := to_int32 ((baseIdx - gz * np2 g) / np g) in
  let gx := baseIdx - gz * np2 g - gy * np g in
  let w (k : Z) (along : bool) :=
    fadd (fneg (half g))
         (fmul (if along then fadd (of_Z k) m else of_Z k) (step g)) in
  (w gx (dir =? 0), w gy (dir =? 1), w gz (negb (dir =? 0) && negb (dir =? 1))).

(** Get or create the vertex on edge [edge] of the cube with origin [c0]. *)
Definition getEdgeVertex (g : grid) (solidField : list Z) (edge c0 : Z)
    (st : mc_state) : Z * mc_state :=
  let cacheCorner := tbl EDGE_CACHE_CORNER edge in
  let dir := tbl EDGE_DIR edge in
  let baseIdx := c0 + cornerOff g cacheCorner in
  let create :=
    let '(wx, wy, wz) := edge_position g solidField dir baseIdx in
    let vertIdx := len (positions st) / 3 in
    (vertIdx, cache_put (push_position st wx wy wz) dir baseIdx vertIdx) in
  match at_ (cache_of st dir) baseIdx with
  | Some v => if 0 <=? v then (v, st) else create
  | None => create
  end.

Section MarchingCubes.
(** The tables of [constants.ts], which is not among the sources: 256
    edge masks and 256 rows of 16 edge numbers ended by -1. *)
Variables EDGE_TABLE TRI_TABLE : list Z.
Variable g : grid.
Variable solidField : list Z.

(** Bit [c] of the cube index is set when corner [c] is void. *)
Definition cube_index (c0 : Z) : Z :=
  foldl (fun cubeIndex c =>
           match at_ solidField (c0 + cornerOff g c) with
           | Some 0 => Z.lor cubeIndex (Z.shiftl 1 c)
           | _ => cubeIndex
           end) 0 (seqZ 0 8).

(** [edges & (1 << e)] as a condition. *)
Definition edge_active (edges : option Z) (e : Z) : bool :=
  match edges with
  | Some m => negb (Z.land m (Z.shiftl 1 e) =? 0)
  | None => false
  end.

(** The loop that resolves a vertex for every active edge; [ev] starts
    as twelve times -1. *)
Definition resolve_edges (edges : option Z) (c0 : Z) (st : mc_state)
  : list Z * mc_state :=
  foldl (fun '(ev, st) e =>
           if edge_active edges e then
             let '(v, st) := getEdgeVertex g solidField e c0 st in
             (put ev e v, st)
           else (ev, st))
        (replicate 12 (-1), st) (seqZ 0 12).

(** [ev[e] < 0] where [e] and [ev[e]] may be [undefined]. *)
Definition ev_at (ev : list Z) (e : option Z) : option Z := e ≫= at_ ev.
Definition negative (x : option Z) : bool :=
  match x with
  | Some v => v <? 0
  | None => false
  end.

(** The loop over [t = 0, 3, ..., 15] that emits the triangles of a cube. *)
Fixpoint emit_triangles (tBase : Z) (ev : list Z) (ts : list Z) (st : mc_state)
  : mc_state :=
  match ts with
  | [] => st
  | t :: ts =>
      let e1 := at_ TRI_TABLE (tBase + t) in
      match e1 with
      | Some (-1) => st
      | _ =>
          let e2 := at_ TRI_TABLE (tBase + t + 1) in
          let e3 := at_ TRI_TABLE (tBase + t + 2) in
          if negative (ev_at ev e1) || negative (ev_at ev e2) || negative (ev_at ev e3)
          then emit_triangles tBase ev ts st
          else emit_triangles tBase ev ts
                 (push_face_indices st (ev_at ev e1) (ev_at ev e2) (ev_at ev e3))
      end
  end.

(** The body of the innermost loop for the cube at [(x, y, z)]. *)
Definition march_cube (z y x : Z) (st : mc_state) : mc_state :=
  let c0 := x + y * np g + z * np2 g in
  let cubeIndex := cube_index c0 in
  let edges := at_ EDGE_TABLE cubeIndex in
  match edges with
  | Some 0 => st
  | _ =>
      let '(ev, st) := resolve_edges edges c0 st in
      emit_triangles (Z.shiftl cubeIndex 4) ev [0; 3; 6; 9; 12; 15] st
  end.

(** The loops over [y] and [x] for one value of [z]. *)
Definition march_slab (st : mc_state) (z : Z) : mc_state :=
  foldl (fun st y => foldl (fun st x => march_cube z y x st) st (seqZ 0 (res g)))
        st (seqZ 0 (res g)).

Definition mc_init : mc_state :=
  {| positions := []; 
     cacheX := replicate (Z.to_nat (total g)) (-1);
     cacheY := replicate (Z.to_nat (total g)) (-1);
     cacheZ := replicate (Z.to_nat (total g)) (-1);
     faceIndices := [] |}.
End MarchingCubes.

(** ** The orchestrator

    [generateGyroidMesh] is asynchronous: it calls [onProgress] and then
    yields to the event loop.  What the host does in the callback and
    during the yields is a transition on a state [W] of the host, unknown
    to the pipeline; the callback may also throw. *)

Section Orchestrator.
Context {W : Type}.

Definition ProgressCallback := number -> W -> option W.
Definition M (A : Type) : Type := W -> outcome (A * W).

Definition mret {A} (a : A) : M A := fun w => Return (a, w).
Definition mbind {A B} (m : M A) (k : A -> M B) : M B :=
  fun w => let! aw := m w in k (fst aw) (snd aw).
Definition lift {A} (o : outcome A) : M A :=
  fun w => let! a := o in Return (a, w).
Definition throw {A} (e : exn) : M A := fun _ => Throw e.

Notation "'do!' x ':=' m 'in' k" := (mbind m (fun x => k))
  (at level 10, x pattern, m at level 100, k at level 200).

(** [for (const x of xs) acc = await f(acc, x)]. *)
Fixpoint mfold {A B} (f : A -> B -> M A) (a : A) (xs : list B) : M A :=
  match xs with
  | [] => mret a
  | x :: xs => do! a := f a x in mfold f a xs
  end.

(** The sine and cosine of the host ([Math.sin], [Math.cos] are
    implementation-approximated) and the tables of [constants.ts]. *)
Variables Math_sin Math_cos : number -> number.
Variables EDGE_TABLE TRI_TABLE : list Z.

Variable onProgress : ProgressCallback.

Definition progress (p : number) : M unit :=
  fun w => match onProgress p w with
           | Some w' => Return (tt, w')
           | None => Throw CallbackThrew
           end.

(** Step 1: the chunked loop that fills [solidField]. *)
Definition build_field (params : GenParams) (g : grid) : M (list Z) :=
  let scale := scale_of params in
  let mmCoords :=
    (fun i => Math_fround (fadd (fneg (half g)) (fmul (of_Z i) (step g))))
      <$> seqZ 0 (np g) in
  let radCoords := (fun mm => Math_fround (fmul mm scale)) <$> mmCoords in
  let sinRad := (fun r => Math_fround (Math_sin r)) <$> radCoords in
  let cosRad := (fun r => Math_fround (Math_cos r)) <$> radCoords in
  do! _ := progress (of_Z 5) in
  mfold (fun solidField k =>
           let start := k * 100000 in
           let solidField := fill_chunk params g mmCoords sinRad cosRad solidField start in
           if k mod 3 =? 0 then
             do! _ := progress (fadd (of_Z 5)
                                 (fmul (fdiv (of_Z start) (of_Z (total g))) (of_Z 25))) in
             mret solidField
           else mret solidField)
        (replicate (Z.to_nat (total g)) 0)
        (seqZ 0 ((total g + 100000 - 1) / 100000)).

(** Step 2: the sweep, [z] outermost, with its progress reports. *)
Definition march (g : grid) (solidField : list Z) : M mc_state :=
  mfold (fun st z =>
           do! _ :=
             (if z mod Z.max 1 (to_int32 (res g / 20)) =? 0
              then progress (fadd (of_Z 30)
                               (fmul (fdiv (of_Z z) (of_Z (res g))) (of_Z 45)))
              else mret tt) in
           mret (march_slab EDGE_TABLE TRI_TABLE g solidField st z))
        (mc_init g) (seqZ 0 (res g)).

(** Steps 1 to 3: the field, the sweep and the component filter, which
    shell mode applies and frame mode skips. *)
Definition surface (params : GenParams) (g : grid) : M (list number * list Z) :=
  do! solidField := build_field params g in
  do! _ := progress (of_Z 28) in
  let solidField := void_boundary g solidField in
  do! _ := progress (of_Z 30) in
  do! st := march g solidField in
  do! _ := progress (of_Z 75) in
  let posArr := Float32Array_from (positions st) in
  let idxArr := Uint32Array_from (faceIndices st) in
  do! mesh :=
    (if useFrame params then mret (posArr, idxArr)
     else lift (extractLargestComponent posArr idxArr)) in
  do! _ := progress (of_Z 80) in
  mret mesh.

(** Steps 4 and 5: smoothing and normals. *)
Definition finish (smoothing : number) (posArr : list number) (idxArr : list Z)
  : M MeshData :=
  do! posArr :=
    (if flt zero smoothing then lift (taubinSmooth posArr idxArr smoothing)
     else mret posArr) in
  do! _ := progress (of_Z 90) in
  let normals := computeVertexNormals posArr idxArr in
  do! _ := progress (of_Z 100) in
  mret {| vertices := posArr; normals := normals; indices := idxArr |}.

(** The grid of a parameter record: [None] when [res] is infinite or
    [total] is not a valid typed-array length, where the allocation of
    [solidField] raises a [RangeError]. *)
Definition grid_of (params : GenParams) : option grid :=
  let res_n := Math_floor (resolution params) in
  match Zfloor res_n with
  | None => None
  | Some res =>
      let g := {| res := res;
                  step := fdiv (size params) res_n;
                  half := fdiv (size params) (of_Z 2) |} in
      if 2 ^ 53 <=? total g then None else Some g
  end.

Definition generateGyroidMesh (params : GenParams) : M MeshData :=
  match validate params with
  | Some e => throw e
  | None =>
      match grid_of params with
      | None => throw RangeError
      | Some g =>
          do! mesh := surface params g in
          finish (smoothingIterations_of params) (fst mesh) (snd mesh)
      end
  end.
End Orchestrator.

(** ** Binary STL export *)

(** [view.setXxx(offset, ...)] writing the bytes [bs]; a write that does
    not fit in the buffer raises a [RangeError]. *)
Definition view_set (buffer : list Z) (offset : Z) (bs : list Z) : outcome (list Z) :=
  if (0 <=? offset) && (offset + len bs <=? len buffer) then
    Return (take (Z.to_nat offset) buffer ++ bs
            ++ drop (Z.to_nat (offset + len bs)) buffer)
  else Throw RangeError.

Definition uint32_le (n : Z) : list Z := Z_to_little_endian 4 8 (to_uint32 n).
Definition uint16_le (n : Z) : list Z := Z_to_little_endian 2 8 (n mod 2 ^ 16).
Definition float32_le (x : number) : list Z :=
  Z_to_little_endian 4 8 (binary32_bits (to_binary32 x)).

(** The unit face normal, or zero for a degenerate face. *)
Definition stl_normal (vertices : list number) (i0 i1 i2 : option Z)
  : number * number * number :=
  let '(nx, ny, nz) := face_cross vertices i0 i1 i2 in
  let l := Math_sqrt (fadd (fadd (fmul nx nx) (fmul ny ny)) (fmul nz nz)) in
  if flt tiny l then (fdiv nx l, fdiv ny l, fdiv nz l) else (zero, zero, zero).

(** The body of the loop over [f]: twelve floats and the attribute count,
    written at [offset = 84 + 50 f]. *)
Definition write_triangle (vertices : list number) (indices : list Z)
    (buffer : list Z) (f : Z) : outcome (list Z) :=
  let offset := 84 + f * 50 in
  let i0 := at_ indices (f * 3) in
  let i1 := at_ indices (f * 3 + 1) in
  let i2 := at_ indices (f * 3 + 2) in
  let '(nx, ny, nz) := stl_normal vertices i0 i1 i2 in
  let! b := view_set buffer offset (float32_le nx) in
  let! b := view_set b (offset + 4) (float32_le ny) in
  let! b := view_set b (offset + 8) (float32_le nz) in
  let! b := view_set b (offset + 12) (float32_le (num_at3 vertices i0 0)) in
  let! b := view_set b (offset + 16) (float32_le (num_at3 vertices i0 1)) in
  let! b := view_set b (offset + 20) (float32_le (num_at3 vertices i0 2)) in
  let! b := view_set b (offset + 24) (float32_le (num_at3 vertices i1 0)) in
  let! b := view_set b (offset + 28) (float32_le (num_at3 vertices i1 1)) in
  let! b := view_set b (offset + 32) (float32_le (num_at3 vertices i1 2)) in
  let! b := view_set b (offset + 36) (float32_le (num_at3 vertices i2 0)) in
  let! b := view_set b (offset + 40) (float32_le (num_at3 vertices i2 1)) in
  let! b := view_set b (offset + 44) (float32_le (num_at3 vertices i2 2)) in
  view_set b (offset + 48) (uint16_le 0).

(** [exportToSTL] on the fields of its argument; [indices] may be missing.
    The result is the content of the blob handed to the browser for
    download, or [None] when the function returns without exporting. *)
Definition exportToSTL_fields (vertices : list number) (indices : option (list Z))
  : outcome (option (list Z)) :=
  match indices with
  | None => Return None
  | Some indices =>
      if len indices =? 0 then Return None      (* 'No triangles to export' *)
      else
        let bufferLength := 80 + 4 + len indices * 50 / 3 in
        let buffer := replicate (Z.to_nat bufferLength) 0 in
        let! buffer := view_set buffer 80 (uint32_le (len indices / 3)) in
        let! buffer := ofold (write_triangle vertices indices) buffer (thirds (len indices)) in
        Return (Some buffer)
  end.

Definition exportToSTL (data : MeshData) : outcome (option (list Z)) :=
  exportToSTL_fields (vertices data) (Some (indices data)).

(** ** An instance of the host, for evaluating the model

    [constants.ts] is not among the sources.  The edge masks below are
    computed from the corner pairs [EDGE_V0], [EDGE_V1] of the source (an
    edge is crossed when its two corners differ); the triangle rows are
    those of the eight configurations with a single solid corner, every
    other row being empty.  Sine and cosine are short Taylor polynomials. *)

Definition EDGE_V0 : list Z := [0; 1; 2; 3; 4; 5; 6; 7; 0; 1; 2; 3].
Definition EDGE_V1 : list Z := [1; 2; 3; 0; 5; 6; 7; 4; 4; 5; 6; 7].

Definition edge_mask (i : Z) : Z :=
  foldl (fun m e =>
           if Bool.eqb (Z.testbit i (tbl EDGE_V0 e)) (Z.testbit i (tbl EDGE_V1 e))
           then m else Z.lor m (Z.shiftl 1 e)) 0 (seqZ 0 12).
Definition sample_EDGE_TABLE : list Z := Eval vm_compute in edge_mask <$> seqZ 0 256.

Definition sample_row (i : Z) : list Z :=
  let row (es : list Z) := es ++ replicate 13 (-1) in
  if i =? 254 then row [0; 3; 8] else if i =? 253 then row [0; 9; 1]
  else if i =? 251 then row [1; 10; 2] else if i =? 247 then row [2; 11; 3]
  else if i =? 239 then row [4; 8; 7] else if i =? 223 then row [9; 4; 5]
  else if i =? 191 then row [10; 5; 6] else if i =? 127 then row [7; 11; 6]
  else replicate 16 (-1).
Definition sample_TRI_TABLE : list Z := Eval vm_compute in concat (sample_row <$> seqZ 0 256).

Definition sample_sin (x : number) : number :=
  let x2 := fmul x x in
  fmul x (fadd one (fmul x2 (fadd (fneg (fdiv one (of_Z 6)))
                                  (fmul x2 (fdiv one (of_Z 120)))))).
Definition sample_cos (x : number) : number :=
  let x2 := fmul x x in
  fadd one (fmul x2 (fadd (fneg (fdiv one (of_Z 2)))
                          (fmul x2 (fdiv one (of_Z 24))))).

(** A host whose state is the log of the reported percentages. *)
Definition log_progress : @ProgressCallback (list number) :=
  fun p w => Some (w ++ [p]).

Definition sample_generate (params : GenParams) : outcome (MeshData * list number) :=
  generateGyroidMesh sample_sin sample_cos sample_EDGE_TABLE sample_TRI_TABLE
    log_progress params [].

(** The initial parameter record of [App.tsx], at a given resolution. *)
Definition app_params (resolution : number) : GenParams :=
  {| size := of_Z 100; cellSize := of_Z 25; wallThickness := dec 35 2;
     useFrame := false; shellThickness := of_Z 3; frameBeamWidth := of_Z 10;
     resolution := resolution; smoothingIterations := Some (of_Z 8);
     makeManifold := Some false |}.


Definition with_cellSize (params : GenParams) (c : number) : GenParams :=
  {| size := size params; cellSize := c;
     wallThickness := wallThickness params; useFrame := useFrame params;
     shellThickness := shellThickness params;
     frameBeamWidth := frameBeamWidth params; resolution := resolution params;
     smoothingIterations := smoothingIterations params;
     makeManifold := makeManifold params |}.

(** The effective cell size in the words of the specification:
    [size / max(1, round(size / cellSize))]. *)
Definition effective_cell_size (size cellSize : number) : number :=
  fdiv size (Math_max one (Math_round (fdiv size cellSize))).

(** [x > 0] on numbers. *)
Definition positive (x : number) : bool := flt zero x.

(** Not strictly positive: at most zero, or NaN. *)
Definition not_positive (x : number) : Prop := fle x zero = true \/ x = NaN.

(** The application's record with a cell size that is not a number, as an
    empty input field yields. *)
Definition nan_cell_params : GenParams := with_cellSize (app_params (of_Z 2)) NaN.

(** The application's record in frame mode, and the grid of a 100 mm cube
    at resolution 4. *)
Definition frame_params : GenParams :=
  {| size := of_Z 100; cellSize := of_Z 25; wallThickness := dec 35 2;
     useFrame := true; shellThickness := of_Z 3; frameBeamWidth := of_Z 10;
     resolution := of_Z 4; smoothingIterations := Some (of_Z 8);
     makeManifold := Some false |}.
Definition sample_grid : grid :=
  {| res := 4; step := of_Z 25; half := of_Z 50 |}.

(** The binary STL file in the words of the specification: a record of
    fifty bytes per triangle (the face normal, the three corners, and an
    attribute count of zero) after a zeroed header of eighty bytes and
    the little-endian triangle count. *)
Definition stl_record (vertices : list number) (indices : list Z) (f : Z) : list Z :=
  let i0 := at_ indices (f * 3) in
  let i1 := at_ indices (f * 3 + 1) in
  let i2 := at_ indices (f * 3 + 2) in
  let '(nx, ny, nz) := stl_normal vertices i0 i1 i2 in
  float32_le nx ++ float32_le ny ++ float32_le nz
  ++ float32_le (num_at3 vertices i0 0) ++ float32_le (num_at3 vertices i0 1)
  ++ float32_le (num_at3 vertices i0 2)
  ++ float32_le (num_at3 vertices i1 0) ++ float32_le (num_at3 vertices i1 1)
  ++ float32_le (num_at3 vertices i1 2)
  ++ float32_le (num_at3 vertices i2 0) ++ float32_le (num_at3 vertices i2 1)
  ++ float32_le (num_at3 vertices i2 2)
  ++ uint16_le 0.

Definition stl_file (data : MeshData) : list Z :=
  let triangleCount := len (indices data) / 3 in
  replicate 80 0 ++ uint32_le triangleCount
  ++ concat (stl_record (vertices data) (indices data) <$> seqZ 0 triangleCount).

(** A mesh without faces, and one right triangle in the plane z = 0. *)
Definition empty_mesh : MeshData := {| vertices := []; normals := []; indices := [] |}.
Definition flat_triangle : MeshData :=
  {| vertices := [zero; zero; zero; one; zero; zero; zero; one; zero];
     normals := [zero; zero; one; zero; zero; one; zero; zero; one];
     indices := [0; 1; 2] |}.

(** Index validity of an indexed mesh: three indices per face, each below
    the number [positions.length / 3] of vertices. *)
Definition well_formed (positions : list number) (indices : list Z) : Prop :=
  len positions mod 3 = 0
  /\ len indices mod 3 = 0
  /\ Forall (fun i => 0 <= i < len positions / 3) indices.

(** The triangle table has its 256 rows of 16 entries, each an edge number
    or the terminator -1. *)
Definition TRI_TABLE_ok (TRI_TABLE : list Z) : Prop :=
  4096 <= len TRI_TABLE /\ Forall (fun e => -1 <= e <= 11) TRI_TABLE.

(** What the sweep maintains: whole vertices, caches and face corners that
    point at existing vertices.  An [undefined] corner will read as vertex 0. *)
Definition corner_ok (n : Z) (o : option Z) : Prop :=
  match o with
  | Some v => 0 <= v < n
  | None => 0 < n
  end.

Definition mc_ok (st : mc_state) : Prop :=
  let n := len (positions st) / 3 in
  len (positions st) mod 3 = 0
  /\ Forall (fun v => v < n) (cacheX st)
  /\ Forall (fun v => v < n) (cacheY st)
  /\ Forall (fun v => v < n) (cacheZ st)
  /\ len (faceIndices st) mod 3 = 0
  /\ Forall (corner_ok n) (faceIndices st).

(** The order of the vertices in the words of the specification.  A grid
    edge is named by its axis and the grid point it starts from; the sweep
    meets the active edges of the cubes in the order (z, y, x, edge), and
    the vertices are those of the edges in the order of their first
    occurrence. *)
Definition edge_slot (g : grid) (c0 e : Z) : Z * Z :=
  (tbl EDGE_DIR e, c0 + cornerOff g (tbl EDGE_CACHE_CORNER e)).

Definition cube_edges (EDGE_TABLE : list Z) (g : grid) (solidField : list Z)
    (z y x : Z) : list (Z * Z) :=
  let c0 := x + y * np g + z * np2 g in
  let edges := at_ EDGE_TABLE (cube_index g solidField c0) in
  match edges with
  | Some 0 => []
  | _ => edge_slot g c0 <$> filter (fun e => edge_active edges e = true) (seqZ 0 12)
  end.

Definition sweep_edges (EDGE_TABLE : list Z) (g : grid) (solidField : list Z)
  : list (Z * Z) :=
  seqZ 0 (res g) ≫= fun z =>
  seqZ 0 (res g) ≫= fun y =>
  seqZ 0 (res g) ≫= fun x => cube_edges EDGE_TABLE g solidField z y x.

Definition first_met (seen : list (Z * Z)) (e : Z * Z) : list (Z * Z) :=
  if decide (e ∈ seen) then seen else seen ++ [e].
Definition first_occurrences (es : list (Z * Z)) : list (Z * Z) := foldl first_met [] es.

Definition edge_vertex (g : grid) (solidField : list Z) (e : Z * Z) : list number :=
  let '(wx, wy, wz) := edge_position g solidField e.1 e.2 in [wx; wy; wz].

(** What relates the state of the sweep to the edges met so far: the
    positions are their vertices in order, and a cache slot holds -1 for an
    edge not met yet and otherwise the rank of the edge. *)
Definition sweep_inv (g : grid) (solidField : list Z) (st : mc_state)
    (seen : list (Z * Z)) : Prop :=
  positions st = seen ≫= edge_vertex g solidField
  /\ forall dir base,
      0 <= dir <= 2 -> 0 <= base < total g ->
      exists v, at_ (cache_of st dir) base = Some v
                /\ ((v = -1 /\ (dir, base) ∉ seen)
                    \/ (0 <= v /\ at_ seen v = Some (dir, base))).


Definition is_zero (x : number) : Prop := exists s, x = S754_zero s.

(** ** The application ([App.tsx] and [components/ControlPanel.tsx]) *)

Definition with_size (params : GenParams) (s : number) : GenParams :=
  {| size := s; cellSize := cellSize params;
     wallThickness := wallThickness params; useFrame := useFrame params;
     shellThickness := shellThickness params;
     frameBeamWidth := frameBeamWidth params; resolution := resolution params;
     smoothingIterations := smoothingIterations params;
     makeManifold := makeManifold params |}.

Definition with_makeManifold (params : GenParams) (m : option bool) : GenParams :=
  {| size := size params; cellSize := cellSize params;
     wallThickness := wallThickness params; useFrame := useFrame params;
     shellThickness := shellThickness params;
     frameBeamWidth := frameBeamWidth params; resolution := resolution params;
     smoothingIterations := smoothingIterations params;
     makeManifold := m |}.

(** The derived values shown by the panel:
    [cellCount = Math.max(1, Math.round(params.size / params.cellSize))] and
    [actualCellMM = params.size / cellCount]. *)
Definition cellCount (params : GenParams) : number :=
  Math_max one (Math_round (fdiv (size params) (cellSize params))).
Definition actualCellMM (params : GenParams) : number :=
  fdiv (size params) (cellCount params).

(** The [onChange] of the cells-per-axis slider, whose value [n] is an
    integer from 1 to 8: [onChange({ cellSize: params.size / n })], merged
    into the parameters by [handleParamChange]. *)
Definition set_cells_per_axis (params : GenParams) (n : Z) : GenParams :=
  with_cellSize params (fdiv (size params) (of_Z n)).

(** [handleExport]: nothing happens without a mesh, otherwise the mesh
    goes to [exportToSTL]; the file name plays no part in the bytes. *)
Definition handleExport (meshData : option MeshData) : outcome (option (list Z)) :=
  match meshData with
  | None => Return None
  | Some data => exportToSTL data
  end.

(** Whether two numbers are the same value, bit for bit. *)
Definition same_number (x y : number) : bool :=
  match x, y with
  | S754_zero a, S754_zero b => Bool.eqb a b
  | S754_infinity a, S754_infinity b => Bool.eqb a b
  | S754_nan, S754_nan => true
  | S754_finite s m e, S754_finite s' m' e' => Bool.eqb s s' && Pos.eqb m m' && Z.eqb e e'
  | _, _ => false
  end.

(** Whether choosing [n] cells at size [s] shows [n] cells and snaps nothing. *)
Definition cells_slider_stable (s n : Z) : bool :=
  let c := fdiv (of_Z s) (of_Z n) in
  let count := Math_max one (Math_round (fdiv (of_Z s) c)) in
  same_number count (of_Z n) && same_number (fdiv (of_Z s) count) c.

(** ** Predicates used in the proofs *)

(** A call that ends in [throw new Error(...)]. *)
Definition raises_Error {A} (o : outcome A) : Prop := exists msg, o = Throw (Error msg).
Definition never_Error {W A} (m : @M W A) : Prop := forall w, ~ raises_Error (m w).


(** A face number whose three corners exist in [indices]. *)
Definition face_ok (indices : list Z) (f : Z) : Prop := 0 <= f /\ f * 3 + 2 < len indices.

(** The vertex-to-faces rows: one per vertex, holding face numbers. *)
Definition rows_ok (numVerts : Z) (indices : list Z) (vertFaces : list (list Z)) : Prop :=
  len vertFaces = numVerts /\ Forall (Forall (face_ok indices)) vertFaces.

(** The remapping of the kept faces. *)
Definition remap_ok (numVerts : Z) (st : list Z * Z * list (option Z)) : Prop :=
  let '(vertMap, newVertCount, newIdx) := st in
  len vertMap = numVerts /\ 0 <= newVertCount
  /\ Forall (fun m => -1 <= m < newVertCount) vertMap
  /\ Forall (fun o => exists m, o = Some m /\ 0 <= m < newVertCount) newIdx.

(** The neighbour rows have one entry per vertex, the row of a vertex that
    no face mentions is empty, and the rows hold vertex indices. *)
Definition adj_ok (numVerts : Z) (indices : list Z) (adj : list (list Z)) : Prop :=
  len adj = numVerts
  /\ (forall v, v ∉ indices -> 0 <= v < numVerts -> at_ adj v = Some [])
  /\ Forall (Forall (fun n => 0 <= n < numVerts)) adj.

(** Coordinate [k] is zero at every vertex. *)
Definition in_plane (numVerts k : Z) (pos : list number) : Prop :=
  forall v, 0 <= v < numVerts -> is_zero (num_at pos (v * 3 + k)).

(** The state of the flood fill: one mark per face, a stack of face numbers,
    and the height of the stack plus the number of unmarked faces is
    [measure]. *)
Definition flood_inv (indices : list Z) (measure : nat) (st : list Z * list Z) : Prop :=
  len st.1 = len indices / 3
  /\ Forall (face_ok indices) st.2
  /\ (length st.2 + unvisited st.1 = measure)%nat.

(** A zero of either sign, or NaN. *)
Definition zero_or_nan (x : number) : Prop :=
  x = S754_zero false \/ x = S754_zero true \/ x = NaN.

(** Whether the grid point [(x, y, z)] lies in the outermost layer. *)
Definition on_boundary (g : grid) (x y z : Z) : bool :=
  (x =? 0) || (x =? res g) || (y =? 0) || (y =? res g) || (z =? 0) || (z =? res g).

(** The per-axis tables of [generateGyroidMesh], [mmCoords] and
    [radCoords], and the value that the field builder computes for grid
    index [idx] from them and from their sines and cosines. *)
Definition mmCoords_of (g : grid) : list number :=
  (fun i => Math_fround (fadd (fneg (half g)) (fmul (of_Z i) (step g)))) <$> seqZ 0 (np g).
Definition radCoords_of (params : GenParams) (g : grid) : list number :=
  (fun mm => Math_fround (fmul mm (scale_of params))) <$> mmCoords_of g.
Definition voxel_of (Math_sin Math_cos : number -> number) (params : GenParams)
    (g : grid) (idx : Z) : Z :=
  voxel params g (mmCoords_of g)
    ((fun r => Math_fround (Math_sin r)) <$> radCoords_of params g)
    ((fun r => Math_fround (Math_cos r)) <$> radCoords_of params g) idx.

(** What relates the state of the remapping loop to the corners [(f, k)]
    handled so far: distinct old vertices have distinct new numbers, and
    entry [i] of [newIdx] is the new number of the vertex at corner [i]. *)
Definition remap_tracks (numVerts : Z) (indices : list Z)
    (st : list Z * Z * list (option Z)) (cs : list (Z * Z)) : Prop :=
  let '(vertMap, cnt, newIdx) := st in
  len vertMap = numVerts
  /\ 0 <= cnt <= len newIdx
  /\ len newIdx = len cs
  /\ Forall (fun m => -1 <= m < cnt) vertMap
  /\ (forall v1 v2 m, 0 <= m -> at_ vertMap v1 = Some m -> at_ vertMap v2 = Some m -> v1 = v2)
  /\ (forall i f k, at_ cs i = Some (f, k) ->
        exists v m, at_ indices (f * 3 + k) = Some v /\ at_ vertMap v = Some m
                    /\ 0 <= m /\ at_ newIdx i = Some (Some m)).

(** Two vertices are neighbours through the faces [fs] when one of those
    faces names both, at two different corners. *)
Definition share_a_face (indices : list Z) (fs : list Z) (v n : Z) : Prop :=
  exists f k k', f ∈ fs /\ 0 <= k < 3 /\ 0 <= k' < 3 /\ k <> k'
                 /\ at_ indices (f * 3 + k) = Some v
                 /\ at_ indices (f * 3 + k') = Some n.

(** A computation that can only fail because the callback raised. *)
Definition fails_by_callback_only {W A} (m : @M W A) : Prop :=
  forall w, match m w with
            | Return _ => True
            | Throw e => e = CallbackThrew
            | Diverges => False
            end.

(** Face [f] names vertex [v] at one of its corners; two faces touch when
    they name a common vertex; a face is marked in [visited]. *)
Definition names_vertex (indices : list Z) (f v : Z) : Prop :=
  exists k, 0 <= k < 3 /\ at_ indices (f * 3 + k) = Some v.
Definition touch (indices : list Z) (f f' : Z) : Prop :=
  exists v, names_vertex indices f v /\ names_vertex indices f' v.
Definition marked (visited : list Z) (f : Z) : Prop :=
  exists b, at_ visited f = Some b /\ b <> 0.

(** The state of one flood fill that started with the faces [m0] marked
    and has popped the faces [comp]: the marked faces are those of [m0],
    of the stack and of [comp]; the faces of the stack and of [comp] are
    not in [m0]; and whatever touches a face of [comp] is marked. *)
Definition flood_state (indices : list Z) (m0 : Z -> Prop)
    (visited stack comp : list Z) : Prop :=
  len visited = len indices / 3
  /\ Forall (face_ok indices) stack
  /\ (forall f, marked visited f <-> m0 f \/ f ∈ stack \/ f ∈ comp)
  /\ (forall f, f ∈ stack \/ f ∈ comp -> ~ m0 f)
  /\ (forall f f', f ∈ comp -> face_ok indices f' -> touch indices f f' ->
                   marked visited f').

(** What the loop over the seeds keeps: the marked faces, and the faces of
    the best component so far, are closed under touching. *)
Definition whole_components (indices : list Z) (st : list Z * list Z) : Prop :=
  len st.1 = len indices / 3
  /\ (forall f f', marked st.1 f -> face_ok indices f' -> touch indices f f' ->
                   marked st.1 f')
  /\ (forall f f', f ∈ st.2 -> face_ok indices f' -> touch indices f f' -> f' ∈ st.2)
  /\ Forall (face_ok indices) st.2.

(** A mesh of two components that touch nowhere: sixty faces on the
    vertices 0, 1, 2 and fifty on the vertices 3, 4, 5. *)
Definition two_components : MeshData :=
  {| vertices := of_Z <$> seqZ 1 18;
     normals := replicate 18 zero;
     indices := concat (replicate 60 [0; 1; 2]) ++ concat (replicate 50 [3; 4; 5]) |}.

(** * Properties *)

(** ** Arrays *)

Lemma len_nonneg {A} (l : list A) : 0 <= len l.
Proof. unfold len. lia. Qed.

Lemma len_app {A} (l k : list A) : len (l ++ k) = len l + len k.
Proof. unfold len. rewrite length_app. lia. Qed.

Lemma len_replicate {A} (n : Z) (x : A) : 0 <= n -> len (replicate (Z.to_nat n) x) = n.
Proof. intros. unfold len. rewrite length_replicate. lia. Qed.

Lemma len_put {A} (l : list A) i x : len (put l i x) = len l.
Proof. unfold put, len. case_decide; [rewrite length_insert|]; done. Qed.

Lemma len_fmap {A B} (f : A -> B) (l : list A) : len (f <$> l) = len l.
Proof. unfold len. by rewrite length_fmap. Qed.

Lemma at_Some_lt {A} (l : list A) i x : at_ l i = Some x -> 0 <= i < len l.
Proof.
  unfold at_, len. case_decide; [|done].
  intros H1%lookup_lt_Some. lia.
Qed.

Lemma at_is_Some {A} (l : list A) i : 0 <= i < len l -> is_Some (at_ l i).
Proof.
  unfold at_, len. intros. rewrite decide_True by lia.
  apply lookup_lt_is_Some. lia.
Qed.

Lemma at_None {A} (l : list A) i : ~ (0 <= i < len l) -> at_ l i = None.
Proof.
  intros. destruct (at_ l i) eqn:E; [|done].
  apply at_Some_lt in E. lia.
Qed.

Lemma at_put_eq {A} (l : list A) i x : 0 <= i < len l -> at_ (put l i x) i = Some x.
Proof.
  unfold at_, put, len. intros. rewrite !decide_True by lia.
  apply list_lookup_insert_eq. lia.
Qed.

Lemma at_put_ne {A} (l : list A) i j x : i <> j -> at_ (put l i x) j = at_ l j.
Proof.
  unfold at_, put. intros. repeat case_decide; try done.
  apply list_lookup_insert_ne. lia.
Qed.

Lemma at_put {A} (l : list A) i j x :
  at_ (put l i x) j = if decide (i = j /\ 0 <= i < len l) then Some x else at_ l j.
Proof.
  case_decide as H.
  - destruct H as [-> ?]. by apply at_put_eq.
  - destruct (decide (i = j)) as [->|]; [|by apply at_put_ne].
    rewrite !at_None; [done|lia|rewrite len_put; lia].
Qed.

Lemma at_replicate {A} (n : nat) (x : A) i :
  0 <= i < Z.of_nat n -> at_ (replicate n x) i = Some x.
Proof.
  intros. unfold at_. rewrite decide_True by lia.
  apply lookup_replicate_2. lia.
Qed.

Lemma at_fmap {A B} (f : A -> B) (l : list A) i : at_ (f <$> l) i = f <$> at_ l i.
Proof. unfold at_. case_decide; [apply list_lookup_fmap|done]. Qed.

Lemma at_elem_of {A} (l : list A) i x : at_ l i = Some x -> x ∈ l.
Proof.
  unfold at_. case_decide; [|done]. apply list_elem_of_lookup_2.
Qed.

(** ** Which calls can raise [Error]

    [throw new Error(...)] occurs only in the parameter checks; every other
    failure of the pipeline is a [TypeError], a [RangeError] or comes from
    the callback. *)

Lemma obind_Return {A B} (m : outcome A) (k : A -> outcome B) b :
  obind m k = Return b -> exists a, m = Return a /\ k a = Return b.
Proof. destruct m; simpl; [eauto|done|done]. Qed.

Lemma obind_raises {A B} (m : outcome A) (k : A -> outcome B) :
  raises_Error (obind m k) ->
  raises_Error m \/ exists a, m = Return a /\ raises_Error (k a).
Proof.
  destruct m; simpl; intros H; [right; eauto| |destruct H; done].
  left. destruct H as [msg H]. exists msg. congruence.
Qed.

Lemma ofold_raises {A B} (f : A -> B -> outcome A) xs a :
  (forall a x, ~ raises_Error (f a x)) -> ~ raises_Error (ofold f a xs).
Proof.
  intros Hf. revert a. induction xs as [|x xs IH]; intros a; simpl.
  - intros [? ?]. done.
  - intros [H|(a' & _ & H)]%obind_raises; [by eapply Hf|by eapply IH].
Qed.

Ltac no_raise :=
  repeat match goal with
         | |- ~ raises_Error (Return _) => intros [? ?]; discriminate
         | |- ~ raises_Error (Throw TypeError) => intros [? ?]; discriminate
         | |- ~ raises_Error (Throw RangeError) => intros [? ?]; discriminate
         | |- ~ raises_Error (Throw FuelExhausted) => intros [? ?]; discriminate
         | |- ~ raises_Error (Throw CallbackThrew) => intros [? ?]; discriminate
         | |- ~ raises_Error Diverges => intros [? ?]; discriminate
         | |- ~ raises_Error (match ?x with _ => _ end) => destruct x
         | |- ~ raises_Error (obind _ _) =>
             let H := fresh in
             intros [H|(? & _ & H)]%obind_raises; revert H;
             match goal with |- ?P -> False => change (~ P) end
         | |- ~ raises_Error (ofold _ _ _) => apply ofold_raises; intros
         end.

Lemma push_adj_no_Error adjTemp a b c : ~ raises_Error (push_adj adjTemp a b c).
Proof. unfold push_adj. no_raise. Qed.

Lemma adj_face_no_Error idx adjTemp f : ~ raises_Error (adj_face idx adjTemp f).
Proof. unfold adj_face. no_raise; apply push_adj_no_Error. Qed.

Lemma taubinSmooth_no_Error positions idx iterations :
  ~ raises_Error (taubinSmooth positions idx iterations).
Proof.
  unfold taubinSmooth, build_adjacency. no_raise. apply adj_face_no_Error.
Qed.

Lemma push_face_no_Error vf v f : ~ raises_Error (push_face vf v f).
Proof. unfold push_face. no_raise. Qed.

Lemma vert_face_no_Error idx vf f : ~ raises_Error (vert_face idx vf f).
Proof. unfold vert_face. no_raise; apply push_face_no_Error. Qed.

Lemma visit_corners_no_Error idx vf f st : ~ raises_Error (visit_corners idx vf f st).
Proof. unfold visit_corners. no_raise. Qed.

Lemma flood_no_Error fuel idx vf visited stack comp :
  ~ raises_Error (flood fuel idx vf visited stack comp).
Proof.
  revert visited stack comp. induction fuel as [|fuel IH]; intros visited stack comp;
    destruct stack as [|f stack]; simpl; no_raise.
  - apply visit_corners_no_Error.
  - apply IH.
Qed.

Lemma flood_seed_no_Error idx vf st seed : ~ raises_Error (flood_seed idx vf st seed).
Proof. unfold flood_seed. destruct st. no_raise; apply flood_no_Error. Qed.

Lemma extractLargestComponent_no_Error positions idx :
  ~ raises_Error (extractLargestComponent positions idx).
Proof.
  unfold extractLargestComponent. no_raise.
  - apply vert_face_no_Error.
  - apply flood_seed_no_Error.
Qed.

Section OrchestratorFacts.
Context {W : Type}.
Variables Math_sin Math_cos : number -> number.
Variables EDGE_TABLE TRI_TABLE : list Z.
Variable onProgress : @ProgressCallback W.

Lemma mret_never_Error {A} (a : A) : never_Error (W:=W) (mret a).
Proof. intros w [? ?]. done. Qed.

Lemma lift_never_Error {A} (o : outcome A) : ~ raises_Error o -> never_Error (W:=W) (lift o).
Proof.
  intros Ho w. unfold lift.
  intros [H|(a & _ & [? ?])]%obind_raises; done.
Qed.

Lemma progress_never_Error p : never_Error (W:=W) (progress onProgress p).
Proof. intros w. unfold progress. destruct (onProgress p w); intros [? ?]; done. Qed.

Lemma mbind_never_Error {A B} (m : M A) (k : A -> M B) :
  never_Error (W:=W) m -> (forall a, never_Error (W:=W) (k a)) -> never_Error (W:=W) (mbind m k).
Proof.
  intros Hm Hk w. unfold mbind.
  intros [H|(aw & _ & H)]%obind_raises; [by eapply Hm|by eapply Hk].
Qed.

Lemma mfold_never_Error {A B} (f : A -> B -> M A) xs a :
  (forall a x, never_Error (W:=W) (f a x)) -> never_Error (W:=W) (mfold f a xs).
Proof.
  intros Hf. revert a. induction xs as [|x xs IH]; intros a; simpl.
  - apply mret_never_Error.
  - apply mbind_never_Error; [apply Hf|apply IH].
Qed.

Ltac never :=
  repeat first
    [ apply mret_never_Error
    | apply progress_never_Error
    | apply mbind_never_Error; [|intros]
    | apply mfold_never_Error; intros
    | apply lift_never_Error
    | match goal with
      | |- never_Error (if ?b then _ else _) => destruct b
      | |- never_Error (let _ := _ in _) => cbv zeta
      end ].

Lemma surface_never_Error params g :
  never_Error (W:=W) (surface Math_sin Math_cos EDGE_TABLE TRI_TABLE onProgress params g).
Proof.
  unfold surface, build_field, march. never.
  apply extractLargestComponent_no_Error.
Qed.

Lemma finish_never_Error smoothing posArr idxArr :
  never_Error (W:=W) (finish onProgress smoothing posArr idxArr).
Proof. unfold finish. never. apply taubinSmooth_no_Error. Qed.
End OrchestratorFacts.

(** ** Comparisons of numbers *)

Lemma falsy_or_nonpositive (x : number) : falsy x || fle x zero = negb (positive x).
Proof. destruct x as [[]|[]| |[] m e]; reflexivity. Qed.

Lemma SFcompare_Lt_Gt (a b : number) : SFcompare a b = Some Lt -> SFcompare b a = Some Gt.
Proof.
  destruct a as [[]|[]| |[] m1 e1], b as [[]|[]| |[] m2 e2]; simpl; try congruence.
  - rewrite (Z.compare_antisym e1 e2).
    destruct (e1 ?= e2) eqn:E; simpl; try congruence.
    pose proof (Pos.compare_cont_antisym m1 m2 Eq) as Hm. simpl in Hm. rewrite <- Hm.
    destruct (Pos.compare_cont Eq m1 m2); simpl; congruence.
  - rewrite (Z.compare_antisym e1 e2).
    destruct (e1 ?= e2) eqn:E; simpl; try congruence.
    pose proof (Pos.compare_cont_antisym m1 m2 Eq) as Hm. simpl in Hm. rewrite <- Hm.
    destruct (Pos.compare_cont Eq m1 m2); simpl; congruence.
Qed.

Lemma flt_not_fle (a b : number) : flt a b = true -> fle b a = false.
Proof.
  unfold flt, fle, SFltb, SFleb. destruct (SFcompare a b) as [[]|] eqn:E; try done.
  intros _. by rewrite (SFcompare_Lt_Gt _ _ E).
Qed.

Lemma validate_None (params : GenParams) :
  validate params = None <->
  positive (size params) = true /\ positive (cellSize params) = true
  /\ positive (resolution params) = true.
Proof.
  unfold validate. rewrite !falsy_or_nonpositive.
  destruct (positive (cellSize params)), (positive (resolution params)),
    (positive (size params)); simpl;
    (split; [intros ?; try discriminate; auto | intros (? & ? & ?); try discriminate; auto]).
Qed.

Lemma validate_Some (params : GenParams) e :
  validate params = Some e -> exists msg, e = Error msg.
Proof.
  unfold validate. repeat case_match; intros; simplify_eq; eauto.
Qed.

Lemma positive_false (x : number) : positive x = false <-> not_positive x.
Proof.
  unfold not_positive, NaN.
  destruct x as [[]|[]| |[] m e]; simpl; split; intros H; try done;
    try (by left); try (by right); destruct H; done.
Qed.

(** ** Parameter validation *)

(** C4, as stated, fails: a cell size that is NaN is rejected with
    'Invalid cell size' although none of the three parameters is at most
    zero. *)
Lemma generate_rejects_NaN_cell_size :
  ~ (raises_Error (sample_generate nan_cell_params) <->
     fle (size nan_cell_params) zero = true
     \/ fle (cellSize nan_cell_params) zero = true
     \/ fle (resolution nan_cell_params) zero = true).
Proof.
  intros [H _]. destruct H as [H|[H|H]]; try (vm_compute in H; discriminate H).
  exists "Invalid cell size"%string. reflexivity.
Qed.

(** C4 (amended): [generateGyroidMesh] throws its parameter error exactly
    when [size], [cellSize] or [resolution] is not strictly positive, that
    is at most zero or NaN; a run that throws returns no mesh. *)
Theorem generate_invalid_parameter_iff {W} Math_sin Math_cos EDGE_TABLE TRI_TABLE
    (onProgress : @ProgressCallback W) (params : GenParams) (w : W) :
  let run := generateGyroidMesh Math_sin Math_cos EDGE_TABLE TRI_TABLE onProgress params w in
  (raises_Error run <->
   not_positive (size params) \/ not_positive (cellSize params)
   \/ not_positive (resolution params))
  /\ (forall e, run = Throw e -> forall mw, run <> Return mw).
Proof.
  intros run. split; [|intros e He mw; rewrite He; discriminate].
  rewrite <- !positive_false. subst run. unfold generateGyroidMesh.
  destruct (validate params) as [e|] eqn:Hv.
  - split.
    + intros _.
      destruct (positive (size params)) eqn:H1; [|by left].
      destruct (positive (cellSize params)) eqn:H2; [|by right; left].
      destruct (positive (resolution params)) eqn:H3; [|by right; right].
      assert (validate params = None) as Hn by (by apply validate_None).
      congruence.
    + intros _. destruct (validate_Some _ _ Hv) as [msg ->]. by exists msg.
  - apply validate_None in Hv as (H1 & H2 & H3). split.
    + intros Hr. exfalso. revert Hr. destruct (grid_of params) as [g|].
      * apply mbind_never_Error; [apply surface_never_Error|].
        intros a. apply finish_never_Error.
      * intros [? ?]. done.
    + rewrite H1, H2, H3. intros [?|[?|?]]; done.
Qed.

(** ** Parameter defaults *)



(** ** Cell snapping *)

(** C5: the cell size that the field builder works with is
    [size / max(1, round(size / cellSize))]: it is the snapped size, the
    angular scale of the field is [2 pi] over it, two cell sizes that snap
    to the same value build the same field, and for size 100 and cell
    size 30 it is the double nearest to 100/3 whatever the other
    parameters are. *)
Theorem cell_snapping {W} Math_sin Math_cos (onProgress : @ProgressCallback W)
    (params : GenParams) (c : number) (g : grid) :
  snappedCellSize (with_cellSize params c) = snappedCellSize params ->
  snappedCellSize params = effective_cell_size (size params) (cellSize params)
  /\ scale_of params
     = fdiv (fmul (of_Z 2) Math_PI) (effective_cell_size (size params) (cellSize params))
  /\ build_field Math_sin Math_cos onProgress (with_cellSize params c) g
     = build_field Math_sin Math_cos onProgress params g
  /\ (forall wt uf st fb r si mm,
        snappedCellSize
          {| size := of_Z 100; cellSize := of_Z 30; wallThickness := wt;
             useFrame := uf; shellThickness := st; frameBeamWidth := fb;
             resolution := r; smoothingIterations := si; makeManifold := mm |}
        = fdiv (of_Z 100) (of_Z 3)).
Proof.
  intros Hc. repeat split.
  unfold build_field, scale_of. rewrite Hc. reflexivity.
Qed.

Lemma cell_snapping_witness :
  snappedCellSize (app_params (of_Z 60)) = fdiv (of_Z 100) (of_Z 4)
  /\ build_field sample_sin sample_cos log_progress
       (with_cellSize (app_params (of_Z 2)) (of_Z 26)) sample_grid
     = build_field sample_sin sample_cos log_progress (app_params (of_Z 2)) sample_grid.
Proof.
  split; [reflexivity|].
  apply (cell_snapping sample_sin sample_cos log_progress
           (app_params (of_Z 2)) (of_Z 26) sample_grid).
  reflexivity.
Defined.

(** ** Frame mode *)

(** C6: in frame mode a voxel whose three coordinates are all farther than
    the beam width from the faces of the cube is not structural, and a voxel
    is structural exactly when it is within the beam width of the faces of
    at least two axes. *)
Theorem frame_openness (params : GenParams) (g : grid) (channelA channelB : bool)
    (xMM yMM zMM : number) :
  useFrame params = true ->
  let inner := fsub (half g) (frameBeamWidth params) in
  let nearX := fle inner (Math_abs xMM) in
  let nearY := fle inner (Math_abs yMM) in
  let nearZ := fle inner (Math_abs zMM) in
  (flt (Math_abs xMM) inner = true -> flt (Math_abs yMM) inner = true ->
   flt (Math_abs zMM) inner = true ->
   structural_at params g channelA channelB xMM yMM zMM = false)
  /\ (structural_at params g channelA channelB xMM yMM zMM = true <->
      2 <= Z.b2z nearX + Z.b2z nearY + Z.b2z nearZ).
Proof.
  intros Hf inner nearX nearY nearZ. unfold structural_at. rewrite Hf.
  unfold structural_frame. fold inner. fold nearX nearY nearZ. split.
  - intros Hx%flt_not_fle Hy%flt_not_fle Hz%flt_not_fle.
    subst nearX nearY nearZ. rewrite Hx, Hy, Hz. reflexivity.
  - destruct nearX, nearY, nearZ; simpl; split; intros; try done; lia.
Qed.

Lemma frame_openness_witness :
  structural_at frame_params sample_grid false false zero zero zero = false.
Proof.
  apply (frame_openness frame_params sample_grid false false zero zero zero);
    reflexivity.
Defined.

(** ** Export of an empty mesh *)

(** C10: with an empty or a missing index array [exportToSTL] returns
    before any buffer exists; in particular it does not produce the
    84-byte file of a zero-triangle STL. *)
Theorem exportToSTL_empty_returns_early (vertices normals : list number) :
  let empty := {| vertices := vertices; normals := normals; indices := [] |} in
  exportToSTL_fields vertices None = Return None
  /\ exportToSTL empty = Return None
  /\ exportToSTL empty <> Return (Some (replicate 80 0 ++ uint32_le 0)).
Proof. repeat split. discriminate. Qed.

(** ** The layout of the STL file *)

Lemma len_float32_le x : len (float32_le x) = 4.
Proof. unfold len, float32_le. by rewrite length_Z_to_little_endian. Qed.

Lemma len_uint32_le n : len (uint32_le n) = 4.
Proof. unfold len, uint32_le. by rewrite length_Z_to_little_endian. Qed.

Lemma len_uint16_le n : len (uint16_le n) = 2.
Proof. unfold len, uint16_le. by rewrite length_Z_to_little_endian. Qed.

(** A write that replaces the bytes [old] found after the prefix [pre]. *)
Lemma view_set_at (pre old rest new : list Z) (offset : Z) :
  offset = len pre -> len old = len new ->
  view_set (pre ++ old ++ rest) offset new = Return ((pre ++ new) ++ rest).
Proof.
  intros -> Hlen. unfold view_set.
  pose proof (len_nonneg pre). pose proof (len_nonneg new).
  rewrite !len_app.
  replace ((0 <=? len pre) && (len pre + len new <=? len pre + (len old + len rest)))
    with true.
  2:{ symmetry. apply andb_true_iff. pose proof (len_nonneg rest). split; lia. }
  f_equal. unfold len in *.
  rewrite take_app_length' by lia.
  rewrite (app_assoc pre old rest).
  rewrite drop_app_length' by (rewrite length_app; lia).
  by rewrite <- app_assoc.
Qed.

Lemma stl_record_len vertices indices f : len (stl_record vertices indices f) = 50.
Proof.
  unfold stl_record. destruct (stl_normal _ _ _ _) as [[nx ny] nz].
  rewrite !len_app, !len_float32_le, len_uint16_le. lia.
Qed.

Lemma write_triangle_record vertices indices (pre rest : list Z) (f : Z) :
  len pre = 84 + f * 50 ->
  write_triangle vertices indices (pre ++ replicate 50 0 ++ rest) f
  = Return ((pre ++ stl_record vertices indices f) ++ rest).
Proof.
  intros Hpre. unfold write_triangle, stl_record.
  destruct (stl_normal _ _ _ _) as [[nx ny] nz].
  change (replicate 50 0) with
    (replicate 4 0 ++ replicate 4 0 ++ replicate 4 0 ++ replicate 4 0
     ++ replicate 4 0 ++ replicate 4 0 ++ replicate 4 0 ++ replicate 4 0
     ++ replicate 4 0 ++ replicate 4 0 ++ replicate 4 0 ++ replicate 4 0
     ++ replicate 2 (0 : Z)).
  rewrite <- !app_assoc.
  do 12 (erewrite view_set_at;
         [ cbn [obind]
         | rewrite ?len_app, ?len_float32_le; lia
         | rewrite len_float32_le; reflexivity ]).
  rewrite (view_set_at _ (replicate 2 0) rest);
    [ | rewrite ?len_app, ?len_float32_le; lia | rewrite len_uint16_le; reflexivity ].
  by rewrite <- !app_assoc.
Qed.

Lemma write_triangles vertices indices (k : nat) :
  forall (pre : list Z) (f : Z),
    len pre = 84 + f * 50 ->
    ofold (write_triangle vertices indices) (pre ++ replicate (50 * k) 0)
          (seqZ f (Z.of_nat k))
    = Return (pre ++ concat (stl_record vertices indices <$> seqZ f (Z.of_nat k))).
Proof.
  induction k as [|k IH]; intros pre f Hpre.
  - simpl. by rewrite !app_nil_r.
  - rewrite seqZ_cons by lia.
    replace (50 * S k)%nat with (50 + 50 * k)%nat by lia.
    rewrite replicate_add. cbn [ofold fmap list_fmap concat].
    rewrite write_triangle_record by done. cbn [obind].
    replace (Z.pred (Z.of_nat (S k))) with (Z.of_nat k) by lia.
    rewrite IH.
    + by rewrite <- app_assoc.
    + rewrite len_app, stl_record_len. lia.
Qed.

Lemma thirds_exact n : 0 <= n -> thirds (3 * n) = seqZ 0 n.
Proof. intros. unfold thirds. f_equal. symmetry. apply Z.div_unique with 2; lia. Qed.

(** C2, as stated, fails: for the mesh without faces no byte buffer is
    produced, so none of size 84 + 50 * 0. *)
Lemma exportToSTL_empty_mesh_no_buffer :
  ~ exists bytes,
      exportToSTL empty_mesh = Return (Some bytes)
      /\ len bytes = 84 + 50 * (len (indices empty_mesh) / 3).
Proof. intros (bytes & H & _). discriminate H. Qed.

(** C2 (amended): for every mesh whose index array is not empty and has
    a length that is a multiple of three, [exportToSTL] produces the file
    of the binary layout: eighty zero bytes, the little-endian uint32
    triangle count, and [indices.length / 3] records of fifty bytes (the
    float32 face normal, three float32 corners, the uint16 attribute
    count 0); its size is 84 + 50 * triangleCount. *)
Theorem exportToSTL_layout (data : MeshData) (triangleCount : Z) :
  0 < triangleCount ->
  len (indices data) = 3 * triangleCount ->
  exportToSTL data = Return (Some (stl_file data))
  /\ len (stl_file data) = 84 + 50 * triangleCount
  /\ length (stl_record (vertices data) (indices data) <$> seqZ 0 triangleCount)
     = Z.to_nat triangleCount
  /\ (forall f, len (stl_record (vertices data) (indices data) f) = 50)
  /\ take 80 (stl_file data) = replicate 80 0
  /\ take 4 (drop 80 (stl_file data)) = uint32_le triangleCount.
Proof.
  intros Hn Hlen.
  assert (exists k : nat, triangleCount = Z.of_nat k) as [k ->]
    by (exists (Z.to_nat triangleCount); lia).
  assert (len (indices data) / 3 = Z.of_nat k) as Hdiv
    by (rewrite Hlen; symmetry; apply Z.div_unique with 0; lia).
  assert (forall k : nat, forall f,
             len (concat (stl_record (vertices data) (indices data)
                            <$> seqZ f (Z.of_nat k))) = 50 * Z.of_nat k) as Hrecords.
  { clear. induction k as [|k IH]; intros f; [done|].
    rewrite seqZ_cons by lia. cbn [fmap list_fmap concat].
    replace (Z.pred (Z.of_nat (S k))) with (Z.of_nat k) by lia.
    rewrite len_app, stl_record_len, IH. lia. }
  split; [|split; [|split; [|split; [|split]]]].
  - unfold exportToSTL, exportToSTL_fields, stl_file.
    rewrite Hdiv. replace (len (indices data) =? 0) with false by (symmetry; lia).
    replace (len (indices data) * 50 / 3) with (50 * Z.of_nat k)
      by (rewrite Hlen; apply Z.div_unique with 0; lia).
    replace (Z.to_nat (80 + 4 + 50 * Z.of_nat k))
      with (80 + (4 + 50 * k))%nat by lia.
    rewrite !replicate_add.
    rewrite (view_set_at (replicate 80 0) (replicate 4 0));
      [ | done | by rewrite len_uint32_le ].
    cbn [obind]. rewrite Hlen, thirds_exact by lia.
    rewrite write_triangles.
    + cbn [obind]. by rewrite <- app_assoc.
    + rewrite len_app, len_uint32_le. reflexivity.
  - unfold stl_file. rewrite Hdiv, !len_app, len_uint32_le, Hrecords.
    change (len (replicate 80 0)) with 80. lia.
  - rewrite length_fmap, length_seqZ. reflexivity.
  - apply stl_record_len.
  - unfold stl_file. by rewrite take_app_length'.
  - unfold stl_file. rewrite drop_app_length' by done.
    rewrite take_app_length'; [by rewrite Hdiv|].
    apply Nat2Z.inj. unfold uint32_le. by rewrite length_Z_to_little_endian.
Qed.

Lemma exportToSTL_layout_witness :
  exportToSTL flat_triangle = Return (Some (stl_file flat_triangle))
  /\ len (stl_file flat_triangle) = 134.
Proof.
  destruct (exportToSTL_layout flat_triangle 1) as (H1 & H2 & _);
    [reflexivity|reflexivity|].
  split; [exact H1|exact H2].
Defined.

(** ** Index validity after marching cubes *)

Lemma Forall_put {A} (P : A -> Prop) (l : list A) i x :
  Forall P l -> P x -> Forall P (put l i x).
Proof. unfold put. intros. case_decide; [by apply Forall_insert|done]. Qed.

Lemma Forall_at {A} (P : A -> Prop) (l : list A) i x :
  Forall P l -> at_ l i = Some x -> P x.
Proof. intros Hl Hx%at_elem_of. by eapply Forall_forall in Hl. Qed.

Lemma div3_succ n : n mod 3 = 0 -> (n + 3) mod 3 = 0 /\ (n + 3) / 3 = n / 3 + 1.
Proof.
  intros H. pose proof (Z.div_mod n 3 ltac:(lia)) as Hn.
  assert (n + 3 = 3 * (n / 3 + 1) + 0) as E by lia.
  split.
  - symmetry. eapply Z.mod_unique with (n / 3 + 1); [lia|exact E].
  - symmetry. eapply Z.div_unique with 0; [lia|exact E].
Qed.

Lemma corner_ok_mono n m o : n <= m -> corner_ok n o -> corner_ok m o.
Proof. destruct o; simpl; lia. Qed.

Lemma mc_ok_cache st dir : mc_ok st -> Forall (fun v => v < len (positions st) / 3) (cache_of st dir).
Proof. intros (_ & ? & ? & ? & _). unfold cache_of. repeat case_match; done. Qed.

Lemma push_position_ok st wx wy wz :
  mc_ok st ->
  mc_ok (push_position st wx wy wz)
  /\ len (positions (push_position st wx wy wz)) / 3 = len (positions st) / 3 + 1.
Proof.
  intros (Hm & Hx & Hy & Hz & Hf & Hc).
  destruct (div3_succ _ Hm) as [Hm' Hd'].
  assert (len (positions (push_position st wx wy wz)) = len (positions st) + 3) as Hl
      by (simpl; rewrite len_app; reflexivity).
  unfold mc_ok. rewrite Hl, Hd'. cbn [cacheX cacheY cacheZ faceIndices push_position].
  repeat split; try done;
    try (eapply Forall_impl; [eassumption|]; simpl; intros; lia).
  eapply Forall_impl; [exact Hc|]. intros o. apply corner_ok_mono. lia.
Qed.

Lemma cache_put_ok st dir baseIdx v :
  mc_ok st -> v < len (positions st) / 3 ->
  mc_ok (cache_put st dir baseIdx v)
  /\ positions (cache_put st dir baseIdx v) = positions st.
Proof.
  intros (Hm & Hx & Hy & Hz & Hf & Hc) Hv. unfold cache_put, mc_ok.
  repeat case_match; cbn [positions cacheX cacheY cacheZ faceIndices];
    repeat split; try done; by apply Forall_put.
Qed.

Lemma getEdgeVertex_ok g solidField edge c0 st v st' :
  mc_ok st ->
  getEdgeVertex g solidField edge c0 st = (v, st') ->
  mc_ok st'
  /\ len (positions st) / 3 <= len (positions st') / 3
  /\ 0 <= v < len (positions st') / 3.
Proof.
  intros Hok. unfold getEdgeVertex.
  destruct (edge_position _ _ _ _) as [[wx wy] wz].
  set (dir := tbl EDGE_DIR edge). set (baseIdx := c0 + cornerOff g _).
  assert (forall v0 st0,
             (len (positions st) / 3,
              cache_put (push_position st wx wy wz) dir baseIdx (len (positions st) / 3))
             = (v0, st0) ->
             mc_ok st0 /\ len (positions st) / 3 <= len (positions st0) / 3
             /\ 0 <= v0 < len (positions st0) / 3) as Hcreate.
  { intros v0 st0 [= <- <-].
    destruct (push_position_ok st wx wy wz Hok) as [Hok1 Hn1].
    destruct (cache_put_ok _ dir baseIdx (len (positions st) / 3) Hok1) as [Hok2 Hp2];
      [lia|].
    rewrite Hp2, Hn1. split; [done|].
    pose proof (len_nonneg (positions st)).
    assert (0 <= len (positions st) / 3) by (apply Z.div_pos; lia). lia. }
  destruct (at_ (cache_of st dir) baseIdx) as [v0|] eqn:Hat; [|by apply Hcreate].
  destruct (0 <=? v0) eqn:Hv; [|by apply Hcreate].
  intros [= <- <-]. split; [done|]. split; [lia|].
  pose proof (Forall_at _ _ _ _ (mc_ok_cache st dir Hok) Hat). simpl in *. lia.
Qed.

Lemma foldl_invariant {A B} (P : A -> Prop) (f : A -> B -> A) (l : list B) (a : A) :
  P a -> (forall a x, x ∈ l -> P a -> P (f a x)) -> P (foldl f a l).
Proof.
  revert a. induction l as [|x l IH]; intros a Ha Hf; simpl; [done|].
  apply IH.
  - apply Hf; [left|done].
  - intros a' y Hy. apply Hf. by right.
Qed.

Lemma lor_bit_bound a c : 0 <= a < 256 -> 0 <= c < 8 -> 0 <= Z.lor a (Z.shiftl 1 c) < 256.
Proof.
  intros Ha Hc.
  assert (0 < Z.shiftl 1 c < 256) as Hb.
  { rewrite Z.shiftl_1_l. split; [apply Z.pow_pos_nonneg; lia|].
    change 256 with (2 ^ 8). apply Z.pow_lt_mono_r; lia. }
  split; [apply Z.lor_nonneg; lia|].
  destruct (decide (Z.lor a (Z.shiftl 1 c) = 0)) as [->|Hne]; [lia|].
  assert (0 < Z.lor a (Z.shiftl 1 c)) as Hpos
      by (pose proof (proj2 (Z.lor_nonneg a (Z.shiftl 1 c)) ltac:(lia)); lia).
  change 256 with (2 ^ 8). apply Z.log2_lt_pow2; [done|].
  rewrite Z.log2_lor by lia.
  apply Z.max_lub_lt.
  - destruct (decide (a = 0)) as [->|]; [done|]. apply Z.log2_lt_pow2; lia.
  - apply Z.log2_lt_pow2; lia.
Qed.

Lemma cube_index_range g solidField c0 : 0 <= cube_index g solidField c0 < 256.
Proof.
  unfold cube_index. apply foldl_invariant; [lia|].
  intros a c Hc%elem_of_seqZ Ha. repeat case_match; try done.
  apply lor_bit_bound; lia.
Qed.

Section SweepInvariant.
Variables EDGE_TABLE TRI_TABLE : list Z.
Variable g : grid.
Variable solidField : list Z.
Hypothesis TRI_ok : TRI_TABLE_ok TRI_TABLE.

Lemma resolve_edges_ok edges c0 st ev st' :
  mc_ok st ->
  resolve_edges g solidField edges c0 st = (ev, st') ->
  mc_ok st' /\ len ev = 12 /\ Forall (fun v => v < len (positions st') / 3) ev.
Proof.
  intros Hok. unfold resolve_edges.
  set (P := fun es : list Z * mc_state =>
              mc_ok es.2 /\ len es.1 = 12
              /\ Forall (fun v => v < len (positions es.2) / 3) es.1).
  intros H. change (P (ev, st')). rewrite <- H. apply foldl_invariant.
  - unfold P. cbn [fst snd]. split; [exact Hok|]. split; [reflexivity|].
    apply Forall_replicate.
    destruct Hok as (Hm & _). pose proof (len_nonneg (positions st)).
    assert (0 <= len (positions st) / 3) by (apply Z.div_pos; lia). lia.
  - intros [ev0 st0] e _ (Hok0 & Hlen & Hev). cbn [fst snd] in *.
    destruct (edge_active edges e); [|done].
    destruct (getEdgeVertex g solidField e c0 st0) as [v st1] eqn:Hg.
    destruct (getEdgeVertex_ok _ _ _ _ _ _ _ Hok0 Hg) as (Hok1 & Hmono & Hv).
    unfold P. cbn [fst snd]. split; [done|]. rewrite len_put. split; [done|].
    apply Forall_put; [|lia].
    eapply Forall_impl; [exact Hev|]. simpl. intros. lia.
Qed.

Lemma ev_at_corner_ok ev n e :
  Forall (fun v => v < n) ev -> negative (ev_at ev e) = false ->
  0 < n -> corner_ok n (ev_at ev e).
Proof.
  intros Hev Hneg Hn. destruct (ev_at ev e) as [v|] eqn:E; simpl; [|done].
  simpl in Hneg. destruct e as [e|]; [|done]. simpl in E.
  pose proof (Forall_at _ _ _ _ Hev E). simpl in *. lia.
Qed.

Lemma push_face_indices_ok st a b c :
  mc_ok st ->
  corner_ok (len (positions st) / 3) a -> corner_ok (len (positions st) / 3) b ->
  corner_ok (len (positions st) / 3) c ->
  mc_ok (push_face_indices st a b c).
Proof.
  intros (Hm & Hx & Hy & Hz & Hf & Hc) Ha Hb Hcc. unfold mc_ok.
  cbn [positions cacheX cacheY cacheZ faceIndices push_face_indices].
  repeat split; try done.
  - rewrite len_app. change (len [a; b; c]) with 3. by apply div3_succ.
  - apply Forall_app. split; [done|]. repeat constructor; done.
Qed.

Lemma emit_triangles_next tBase ev t ts st x :
  at_ TRI_TABLE (tBase + t) = Some x -> x <> -1 ->
  emit_triangles TRI_TABLE tBase ev (t :: ts) st
  = if negative (ev_at ev (Some x))
       || negative (ev_at ev (at_ TRI_TABLE (tBase + t + 1)))
       || negative (ev_at ev (at_ TRI_TABLE (tBase + t + 2)))
    then emit_triangles TRI_TABLE tBase ev ts st
    else emit_triangles TRI_TABLE tBase ev ts
           (push_face_indices st (ev_at ev (Some x))
              (ev_at ev (at_ TRI_TABLE (tBase + t + 1)))
              (ev_at ev (at_ TRI_TABLE (tBase + t + 2)))).
Proof.
  intros Hx Hne. cbn [emit_triangles]. rewrite Hx.
  destruct x as [|p|[p|p|]]; try reflexivity. done.
Qed.

Lemma emit_triangles_ok tBase ev ts st :
  mc_ok st -> len ev = 12 ->
  Forall (fun v => v < len (positions st) / 3) ev ->
  Forall (fun t => 0 <= tBase + t < 4096) ts ->
  mc_ok (emit_triangles TRI_TABLE tBase ev ts st)
  /\ positions (emit_triangles TRI_TABLE tBase ev ts st) = positions st.
Proof.
  intros Hok Hlen Hev Hts. revert st Hok Hev.
  induction ts as [|t ts IH]; intros st Hok Hev; [done|].
  apply Forall_cons in Hts as [Ht Hts].
  destruct TRI_ok as [Hl Hrange].
  destruct (at_is_Some TRI_TABLE (tBase + t) ltac:(lia)) as [x Hx].
  pose proof (Forall_at _ _ _ _ Hrange Hx) as Hxr. simpl in Hxr.
  assert (x = -1 \/ 0 <= x <= 11) as [->|Hx0] by lia.
  { cbn [emit_triangles]. rewrite Hx. done. }
  rewrite (emit_triangles_next _ _ _ _ _ _ Hx) by lia.
  destruct (negative (ev_at ev (Some x))) eqn:N1; [by apply IH|].
  destruct (negative (ev_at ev (at_ TRI_TABLE (tBase + t + 1)))) eqn:N2; [by apply IH|].
  destruct (negative (ev_at ev (at_ TRI_TABLE (tBase + t + 2)))) eqn:N3; [by apply IH|].
  simpl orb. cbv iota.
  assert (0 < len (positions st) / 3) as Hn.
  { destruct (at_is_Some ev x ltac:(lia)) as [v Hv].
    pose proof (Forall_at _ _ _ _ Hev Hv) as Hvn.
    simpl in N1. rewrite Hv in N1. simpl in *. lia. }
  destruct (IH Hts (push_face_indices st (ev_at ev (Some x))
                      (ev_at ev (at_ TRI_TABLE (tBase + t + 1)))
                      (ev_at ev (at_ TRI_TABLE (tBase + t + 2))))) as [H1 H2].
  - apply push_face_indices_ok; [done|by apply ev_at_corner_ok..].
  - done.
  - split; [done|]. rewrite H2. reflexivity.
Qed.

Lemma march_cube_ok z y x st :
  mc_ok st -> mc_ok (march_cube EDGE_TABLE TRI_TABLE g solidField z y x st).
Proof.
  intros Hok. unfold march_cube.
  set (c0 := x + y * np g + z * np2 g).
  pose proof (cube_index_range g solidField c0) as Hci.
  assert (let '(ev, st) := resolve_edges g solidField
                             (at_ EDGE_TABLE (cube_index g solidField c0)) c0 st in
          mc_ok (emit_triangles TRI_TABLE (Z.shiftl (cube_index g solidField c0) 4)
                   ev [0; 3; 6; 9; 12; 15] st)) as Hgo.
  { destruct (resolve_edges _ _ _ _ _) as [ev st'] eqn:Hr.
    destruct (resolve_edges_ok _ _ _ _ _ Hok Hr) as (Hok' & Hlen & Hev).
    apply emit_triangles_ok; try done.
    rewrite Z.shiftl_mul_pow2 by lia.
    repeat constructor; lia. }
  destruct (at_ EDGE_TABLE (cube_index g solidField c0)) as [[|p|p]|]; [done|..];
    destruct (resolve_edges _ _ _ _ _); exact Hgo.
Qed.

Lemma march_slab_ok st z :
  mc_ok st -> mc_ok (march_slab EDGE_TABLE TRI_TABLE g solidField st z).
Proof.
  intros Hok. unfold march_slab.
  apply foldl_invariant; [done|]. intros st1 y _ Hok1.
  apply foldl_invariant; [done|]. intros st2 x _ Hok2.
  by apply march_cube_ok.
Qed.
End SweepInvariant.

Lemma mc_init_ok g : mc_ok (mc_init g).
Proof.
  unfold mc_ok, mc_init. cbn [positions cacheX cacheY cacheZ faceIndices].
  repeat split; try done; by apply Forall_replicate.
Qed.

(** ** Index validity after component extraction *)

Lemma ofold_invariant {A B} (P : A -> Prop) (f : A -> B -> outcome A) xs a a' :
  P a ->
  (forall a x a', x ∈ xs -> P a -> f a x = Return a' -> P a') ->
  ofold f a xs = Return a' -> P a'.
Proof.
  revert a. induction xs as [|x xs IH]; intros a Ha Hf; simpl.
  - by intros [= <-].
  - intros (a1 & H1 & H2)%obind_Return.
    eapply IH; [|intros ? y ? Hy; apply Hf; by right|exact H2].
    eapply Hf; [left|exact Ha|exact H1].
Qed.

Lemma thirds_face_ok (indices : list Z) f :
  len indices mod 3 = 0 -> f ∈ thirds (len indices) -> face_ok indices f.
Proof.
  intros Hm Hf. unfold thirds in Hf. apply elem_of_seqZ in Hf.
  pose proof (Z.div_mod (len indices) 3 ltac:(lia)) as Hd.
  assert ((len indices + 2) / 3 = len indices / 3) as E.
  { symmetry. apply Z.div_unique with 2; lia. }
  unfold face_ok. lia.
Qed.

Lemma Uint32Array_from_valid n (newIdx : list (option Z)) :
  Forall (corner_ok n) newIdx ->
  Forall (fun i => 0 <= i < n) (Uint32Array_from newIdx).
Proof.
  intros H. unfold Uint32Array_from. apply Forall_fmap.
  eapply Forall_impl; [exact H|]. intros [v|]; simpl; unfold to_uint32; intros Hv.
  - pose proof (Z.mod_pos_bound v (2 ^ 32) ltac:(lia)).
    pose proof (Z.mod_le v (2 ^ 32) ltac:(lia) ltac:(lia)). lia.
  - rewrite Z.mod_0_l by lia. lia.
Qed.

Section Extraction.
Variable positions : list number.
Variable indices : list Z.
Hypothesis Hwf : well_formed positions indices.

Let numVerts := len positions / 3.

Lemma corner_valid f k :
  face_ok indices f -> 0 <= k < 3 ->
  exists v, at_ indices (f * 3 + k) = Some v /\ 0 <= v < numVerts.
Proof.
  intros [Hf0 Hf1] Hk. destruct Hwf as (_ & _ & Hall).
  destruct (at_is_Some indices (f * 3 + k) ltac:(lia)) as [v Hv].
  exists v. split; [done|]. by eapply Forall_at in Hall.
Qed.

Lemma push_face_rows_ok vertFaces v f vertFaces' :
  rows_ok numVerts indices vertFaces -> face_ok indices f ->
  push_face vertFaces v f = Return vertFaces' -> rows_ok numVerts indices vertFaces'.
Proof.
  intros [Hl Hr] Hf. unfold push_face.
  destruct v as [v|]; [|done]. destruct (at_ vertFaces v) as [row|] eqn:E; [|done].
  intros [= <-]. split; [by rewrite len_put|].
  apply Forall_put; [done|]. apply Forall_app. split.
  - by eapply Forall_at in Hr.
  - by apply Forall_singleton.
Qed.

Lemma vert_face_rows_ok vertFaces f vertFaces' :
  rows_ok numVerts indices vertFaces -> face_ok indices f ->
  vert_face indices vertFaces f = Return vertFaces' -> rows_ok numVerts indices vertFaces'.
Proof.
  intros Hr Hf. unfold vert_face.
  intros (v1 & H1 & (v2 & H2 & H3)%obind_Return)%obind_Return.
  eauto using push_face_rows_ok.
Qed.

Lemma visit_faces_ok nfs visited stack :
  Forall (face_ok indices) nfs -> Forall (face_ok indices) stack ->
  Forall (face_ok indices) (visit_faces nfs (visited, stack)).2.
Proof.
  intros Hn Hs. unfold visit_faces.
  apply (foldl_invariant (fun st : list Z * list Z => Forall (face_ok indices) st.2));
    [done|].
  intros [vis stk] nf Hnf Hstk. cbn [snd] in *.
  assert (face_ok indices nf) by (by eapply Forall_forall in Hn).
  repeat case_match; simplify_eq; cbn [snd]; try done; by apply Forall_cons.
Qed.

Lemma visit_corners_ok vertFaces f st st' :
  rows_ok numVerts indices vertFaces -> Forall (face_ok indices) st.2 ->
  visit_corners indices vertFaces f st = Return st' ->
  Forall (face_ok indices) st'.2.
Proof.
  intros [_ Hr] Hs. unfold visit_corners.
  apply (ofold_invariant (fun st : list Z * list Z => Forall (face_ok indices) st.2));
    [done|].
  intros [vis stk] k st1 _ Hstk.
  destruct (at_ indices (f * 3 + k)) as [v|]; [|done].
  destruct (at_ vertFaces v) as [nfs|] eqn:E; [|done].
  intros [= <-]. apply visit_faces_ok; [|done]. by eapply Forall_at in Hr.
Qed.

Lemma flood_ok fuel vertFaces visited stack comp visited' comp' :
  rows_ok numVerts indices vertFaces ->
  Forall (face_ok indices) stack -> Forall (face_ok indices) comp ->
  flood fuel indices vertFaces visited stack comp = Return (visited', comp') ->
  Forall (face_ok indices) comp'.
Proof.
  intros Hr. revert visited stack comp.
  induction fuel as [|fuel IH]; intros visited stack comp Hs Hc;
    destruct stack as [|f stack]; simpl; try done; try (by intros [= <- <-]).
  apply Forall_cons in Hs as [Hf Hs].
  intros ([vis stk] & H1 & H2)%obind_Return. cbn [fst snd] in H2.
  eapply IH; [| |exact H2].
  - by apply (visit_corners_ok vertFaces f (visited, stack) (vis, stk) Hr Hs H1).
  - apply Forall_app. split; [done|]. by apply Forall_singleton.
Qed.

Lemma flood_seed_ok vertFaces st seed st' :
  rows_ok numVerts indices vertFaces -> face_ok indices seed ->
  Forall (face_ok indices) st.2 ->
  flood_seed indices vertFaces st seed = Return st' ->
  Forall (face_ok indices) st'.2.
Proof.
  intros Hr Hseed Hb. unfold flood_seed. destruct st as [visited bestComp].
  cbn [snd] in Hb.
  assert (forall o : outcome (list Z * list Z),
             o = flood (S (unvisited (put visited seed 1))) indices vertFaces
                   (put visited seed 1) [seed] [] ->
             (let! vc := o in
              Return (vc.1, if len bestComp <? len vc.2 then vc.2 else bestComp))
             = Return st' -> Forall (face_ok indices) st'.2) as Hgo.
  { intros o -> ([vis comp] & H1 & [= <-])%obind_Return. cbn [fst snd].
    apply flood_ok in H1; [|done|by apply Forall_singleton|done].
    by destruct (len bestComp <? len comp). }
  destruct (at_ visited seed) as [[|p|p]|]; try (by intros [= <-]); by apply Hgo.
Qed.

Lemma remap_corner_ok f st k :
  face_ok indices f -> 0 <= k < 3 -> remap_ok numVerts st ->
  remap_ok numVerts (remap_corner indices f st k)
  /\ len (remap_corner indices f st k).2 = len st.2 + 1.
Proof.
  intros Hf Hk. destruct st as [[vertMap cnt] newIdx].
  intros (Hl & Hc & Hm & Hi). unfold remap_corner.
  destruct (corner_valid f k Hf Hk) as (v & -> & Hv).
  destruct (at_is_Some vertMap v ltac:(lia)) as [m Hm0]. rewrite Hm0.
  pose proof (Forall_at _ _ _ _ Hm Hm0) as Hmr. simpl in Hmr.
  assert (forall l : list (option Z),
             Forall (fun o => exists m, o = Some m /\ 0 <= m < cnt) l ->
             Forall (fun o => exists m, o = Some m /\ 0 <= m < cnt + 1) l) as Hmono.
  { intros l Hl'. eapply Forall_impl; [exact Hl'|].
    intros o (m' & -> & ?). exists m'. split; [done|lia]. }
  destruct (decide (m = -1)) as [->|Hne].
  - cbn [fst snd]. rewrite at_put_eq by lia. rewrite len_app. split; [|reflexivity].
    unfold remap_ok. rewrite len_put. repeat split; try lia.
    + apply Forall_put; [|lia]. eapply Forall_impl; [exact Hm|]. simpl. intros. lia.
    + apply Forall_app. split; [by apply Hmono|].
      apply Forall_singleton. exists cnt. split; [done|lia].
  - assert (match m with
            | -1 => (put vertMap v cnt, cnt + 1)
            | _ => (vertMap, cnt)
            end = (vertMap, cnt)) as ->
        by (destruct m as [|p|[p|p|]]; done).
    cbn [fst snd]. rewrite Hm0, len_app. split; [|reflexivity].
    unfold remap_ok. repeat split; try done.
    apply Forall_app. split; [done|].
    apply Forall_singleton. exists m. split; [done|lia].
Qed.

Lemma remap_face_ok st f :
  face_ok indices f -> remap_ok numVerts st ->
  remap_ok numVerts (remap_face indices st f)
  /\ len (remap_face indices st f).2 = len st.2 + 3.
Proof.
  intros Hf Hst. unfold remap_face. cbn [foldl].
  destruct (remap_corner_ok f st 0 Hf ltac:(lia) Hst) as [H0 L0].
  destruct (remap_corner_ok f _ 1 Hf ltac:(lia) H0) as [H1 L1].
  destruct (remap_corner_ok f _ 2 Hf ltac:(lia) H1) as [H2 L2].
  split; [done|lia].
Qed.

Lemma remap_faces_ok comp st :
  Forall (face_ok indices) comp -> remap_ok numVerts st -> len st.2 mod 3 = 0 ->
  remap_ok numVerts (foldl (remap_face indices) st comp)
  /\ len (foldl (remap_face indices) st comp).2 mod 3 = 0.
Proof.
  intros Hc. revert st. induction Hc as [|f comp Hf Hc IH]; intros st Hst Hm; [done|].
  cbn [foldl]. destruct (remap_face_ok st f Hf Hst) as [H1 L1].
  apply IH; [done|]. rewrite L1. by apply div3_succ.
Qed.

Lemma move_vertices_len vertMap newPos vs :
  len (foldl (move_vertex positions vertMap) newPos vs) = len newPos.
Proof.
  revert newPos. induction vs as [|v vs IH]; intros newPos; [done|].
  cbn [foldl]. rewrite IH. unfold move_vertex.
  repeat case_match; rewrite ?len_put; done.
Qed.

Lemma extractLargestComponent_valid positions' indices' :
  extractLargestComponent positions indices = Return (positions', indices') ->
  well_formed positions' indices'.
Proof.
  unfold extractLargestComponent.
  destruct (len indices <? 300); [by intros [= <- <-]|].
  destruct (negb (len positions mod 3 =? 0)); [done|].
  fold numVerts.
  intros (vertFaces & Hvf & ([visited bestComp] & Hfl & H)%obind_Return)%obind_Return.
  cbn [snd] in H.
  destruct (len bestComp * 3 =? len indices); [by injection H as <- <-|].
  destruct (foldl (remap_face indices) _ bestComp) as [[vertMap cnt] newIdx] eqn:Hre.
  injection H as <- <-.
  pose proof Hwf as (Hp & Hi & Hall).
  pose proof (len_nonneg positions).
  assert (0 <= numVerts) by (apply Z.div_pos; lia).
  assert (rows_ok numVerts indices vertFaces) as Hrows.
  { revert Hvf. apply ofold_invariant.
    - split; [by apply len_replicate|]. by apply Forall_replicate.
    - intros vf f vf' Hf Hvfok. apply vert_face_rows_ok; [done|].
      by apply thirds_face_ok. }
  assert (Forall (face_ok indices) bestComp) as Hbest.
  { change bestComp with (visited, bestComp).2. revert Hfl.
    apply (ofold_invariant (fun st : list Z * list Z => Forall (face_ok indices) st.2));
      [done|].
    intros st seed st' Hseed Hst. apply flood_seed_ok; [done| |done].
    by apply thirds_face_ok. }
  destruct (remap_faces_ok bestComp (replicate (Z.to_nat numVerts) (-1), 0, []) Hbest)
    as [Hrm Hlen3].
  { unfold remap_ok. repeat split; [by apply len_replicate|done| |done].
    by apply Forall_replicate. }
  { done. }
  rewrite Hre in Hrm, Hlen3. destruct Hrm as (_ & Hcnt & _ & Hidx). cbn [snd] in Hlen3.
  assert (len (foldl (move_vertex positions vertMap)
                 (replicate (Z.to_nat (cnt * 3)) zero) (seqZ 0 numVerts)) = cnt * 3) as Hl
      by (rewrite move_vertices_len, len_replicate; lia).
  unfold well_formed. rewrite Hl.
  assert (cnt * 3 / 3 = cnt) as -> by (apply Z.div_mul; lia).
  split; [apply Z.mod_mul; lia|]. split.
  - unfold Uint32Array_from. by rewrite len_fmap.
  - apply Uint32Array_from_valid. eapply Forall_impl; [exact Hidx|].
    by intros o (m & -> & ?).
Qed.
End Extraction.

(** ** Taubin smoothing keeps the shape of the arrays *)

Lemma ofold_succeeds {A B} (P : A -> Prop) (f : A -> B -> outcome A) xs a :
  P a ->
  (forall a x, x ∈ xs -> P a -> exists a', f a x = Return a' /\ P a') ->
  exists a', ofold f a xs = Return a' /\ P a'.
Proof.
  revert a. induction xs as [|x xs IH]; intros a Ha Hf; simpl; [eauto|].
  destruct (Hf a x) as (a1 & -> & Ha1); [left|done|]. cbn [obind].
  apply IH; [done|]. intros a2 y Hy. apply Hf. by right.
Qed.

Lemma smooth_vertex_len factor temp result v nbrs :
  len (smooth_vertex factor temp result v nbrs) = len result.
Proof. unfold smooth_vertex. case_match; by rewrite ?len_put. Qed.

Lemma half_step_len adj factor result : len (half_step adj factor result) = len result.
Proof.
  unfold half_step. generalize result at 1 as temp. intros temp.
  generalize (zip (seqZ 0 (len adj)) adj) as vs. intros vs. revert result.
  induction vs as [|vn vs IH]; intros result; [done|].
  cbn [foldl]. by rewrite IH, smooth_vertex_len.
Qed.

Lemma taubin_passes_len adj positions iters :
  len (foldl (fun result iter => half_step adj (taubin_factor iter) result)
         positions iters) = len positions.
Proof.
  revert positions. induction iters as [|i iters IH]; intros positions; [done|].
  cbn [foldl]. by rewrite IH, half_step_len.
Qed.

Lemma taubinSmooth_len positions indices iterations result :
  taubinSmooth positions indices iterations = Return result ->
  len result = len positions.
Proof.
  unfold taubinSmooth. destruct (_ || _); [by intros [= <-]|].
  destruct (negb _); [done|].
  intros (adj & _ & H)%obind_Return.
  destruct (loop_count _); [|done]. injection H as <-. apply taubin_passes_len.
Qed.



Section Adjacency.
Variable positions : list number.
Variable indices : list Z.
Hypothesis Hwf : well_formed positions indices.

Let numVerts := len positions / 3.

Lemma push_adj_ok adjTemp a b c :
  adj_ok numVerts indices adjTemp -> a ∈ indices -> 0 <= a < numVerts ->
  0 <= b < numVerts -> 0 <= c < numVerts ->
  exists adjTemp', push_adj adjTemp a b c = Return adjTemp' /\ adj_ok numVerts indices adjTemp'.
Proof.
  intros (Hl & Hrow & Hval) Ha Hav Hbv Hcv. unfold push_adj.
  destruct (at_is_Some adjTemp a ltac:(lia)) as [row Hr]. rewrite Hr.
  eexists. split; [done|]. split; [by rewrite len_put|]. split.
  - intros v Hv Hvr. rewrite at_put_ne; [by apply Hrow|].
    intros ->. done.
  - apply Forall_put; [done|]. apply Forall_app. split.
    + by eapply Forall_at in Hval.
    + apply Forall_cons. split; [done|]. by apply Forall_singleton.
Qed.

Lemma adj_face_ok adjTemp f :
  adj_ok numVerts indices adjTemp -> face_ok indices f ->
  exists adjTemp', adj_face indices adjTemp f = Return adjTemp' /\ adj_ok numVerts indices adjTemp'.
Proof.
  intros Hok Hf. unfold adj_face.
  destruct (corner_valid positions indices Hwf f 0 Hf ltac:(lia)) as (a & Ha & Hav).
  destruct (corner_valid positions indices Hwf f 1 Hf ltac:(lia)) as (b & Hb & Hbv).
  destruct (corner_valid positions indices Hwf f 2 Hf ltac:(lia)) as (c & Hc & Hcv).
  rewrite Z.add_0_r in Ha. rewrite Ha, Hb, Hc.
  destruct (push_adj_ok adjTemp a b c Hok) as (t1 & -> & H1);
    [by eapply at_elem_of|done..|].
  cbn [obind]. destruct (push_adj_ok t1 b a c H1) as (t2 & -> & H2);
    [by eapply at_elem_of|done..|].
  cbn [obind]. apply push_adj_ok; [done|by eapply at_elem_of|done..].
Qed.

Lemma unique_from_subset seen xs x : x ∈ unique_from seen xs -> x ∈ xs.
Proof.
  revert seen. induction xs as [|y xs IH]; intros seen; simpl; [done|].
  case_decide.
  - intros H'%IH. by right.
  - intros [->|H']%elem_of_cons; [left|right; by eapply IH].
Qed.

Lemma build_adjacency_ok :
  exists adj, build_adjacency numVerts indices = Return adj /\ adj_ok numVerts indices adj.
Proof.
  unfold build_adjacency.
  pose proof Hwf as (Hp & Hi & Hall).
  pose proof (len_nonneg positions).
  assert (0 <= numVerts) by (apply Z.div_pos; lia).
  destruct (ofold_succeeds (adj_ok numVerts indices) (adj_face indices) (thirds (len indices))
              (replicate (Z.to_nat numVerts) [])) as (adjTemp & -> & (Hl & Hrow & Hval)).
  - split; [by apply len_replicate|]. split.
    + intros v _ Hv. apply at_replicate. lia.
    + by apply Forall_replicate.
  - intros a f Hf Ha. apply adj_face_ok; [done|]. by apply thirds_face_ok.
  - cbn [obind]. eexists. split; [done|]. split; [by rewrite len_fmap|]. split.
    + intros v Hv Hvr. rewrite at_fmap, Hrow by done. reflexivity.
    + apply Forall_fmap. eapply Forall_impl; [exact Hval|].
      intros row Hrowv. apply Forall_forall. intros x Hx%unique_from_subset.
      by eapply Forall_forall in Hrowv.
Qed.

Lemma taubinSmooth_succeeds iterations n :
  loop_count (fmul iterations (of_Z 2)) = Some n ->
  exists result, taubinSmooth positions indices iterations = Return result.
Proof.
  intros Hn. unfold taubinSmooth. destruct (_ || _); [eauto|].
  destruct Hwf as (Hp & _). rewrite Hp. cbn [Z.eqb negb].
  fold numVerts. destruct build_adjacency_ok as (adj & -> & _). cbn [obind].
  rewrite Hn. eauto.
Qed.


End Adjacency.

(** ** Runs of the orchestrator *)

Lemma mc_ok_well_formed st :
  mc_ok st ->
  well_formed (Float32Array_from (positions st)) (Uint32Array_from (faceIndices st)).
Proof.
  intros (Hm & _ & _ & _ & Hf & Hc). unfold well_formed, Float32Array_from.
  rewrite len_fmap. split; [done|]. split.
  - unfold Uint32Array_from. rewrite len_fmap. exact Hf.
  - by apply Uint32Array_from_valid.
Qed.

Section Runs.
Context {W : Type}.
Variables Math_sin Math_cos : number -> number.
Variables EDGE_TABLE TRI_TABLE : list Z.
Variable onProgress : @ProgressCallback W.

Lemma mbind_Return {A B} (m : M A) (k : A -> M B) (w w' : W) b :
  mbind m k w = Return (b, w') ->
  exists a w1, m w = Return (a, w1) /\ k a w1 = Return (b, w').
Proof.
  unfold mbind. intros ([a w1] & H1 & H2)%obind_Return. eauto.
Qed.

Lemma mret_Return {A} (a b : A) (w w' : W) :
  mret a w = Return (b, w') -> b = a /\ w' = w.
Proof. by intros [= <- <-]. Qed.

Lemma lift_Return {A} (o : outcome A) (w w' : W) a :
  lift o w = Return (a, w') -> o = Return a /\ w' = w.
Proof. unfold lift. by intros (a' & -> & [= <- <-])%obind_Return. Qed.

Lemma mfold_invariant {A B} (P : A -> Prop) (f : A -> B -> M A) xs a (w w' : W) a' :
  P a ->
  (forall a x w a' w', x ∈ xs -> P a -> f a x w = Return (a', w') -> P a') ->
  mfold f a xs w = Return (a', w') -> P a'.
Proof.
  revert a w. induction xs as [|x xs IH]; intros a w Ha Hf; simpl.
  - by intros [-> _]%mret_Return.
  - intros (a1 & w1 & H1 & H2)%mbind_Return.
    eapply IH; [|intros ? y ? ? ? Hy; apply Hf; by right|exact H2].
    eapply Hf; [left|exact Ha|exact H1].
Qed.

Lemma march_ok g solidField (w w' : W) st :
  TRI_TABLE_ok TRI_TABLE ->
  march EDGE_TABLE TRI_TABLE onProgress g solidField w = Return (st, w') ->
  mc_ok st.
Proof.
  intros Htri. unfold march. apply mfold_invariant; [apply mc_init_ok|].
  intros st0 z w0 st1 w1 _ Hok (_ & w2 & _ & [-> _]%mret_Return)%mbind_Return.
  by apply march_slab_ok.
Qed.

Lemma surface_valid params g (w w' : W) posArr idxArr :
  TRI_TABLE_ok TRI_TABLE ->
  surface Math_sin Math_cos EDGE_TABLE TRI_TABLE onProgress params g w
  = Return ((posArr, idxArr), w') ->
  well_formed posArr idxArr.
Proof.
  intros Htri. unfold surface.
  intros (solidField & w1 & _ & (_ & w2 & _ & (_ & w3 & _ & H)%mbind_Return
                                 )%mbind_Return)%mbind_Return.
  apply mbind_Return in H as (st & w4 & Hst & (_ & w5 & _ & H)%mbind_Return).
  apply mbind_Return in H as ([pos idx] & w6 & Hmesh & (_ & w7 & _ & Hret)%mbind_Return).
  apply mret_Return in Hret as [[= -> ->] _].
  pose proof (mc_ok_well_formed st (march_ok _ _ _ _ _ Htri Hst)) as Hwf.
  destruct (useFrame params).
  - by apply mret_Return in Hmesh as [[= -> ->] _].
  - apply lift_Return in Hmesh as [Hex _].
    by eapply extractLargestComponent_valid.
Qed.

Lemma finish_Return smoothing posArr idxArr (w w' : W) m :
  finish onProgress smoothing posArr idxArr w = Return (m, w') ->
  indices m = idxArr /\ len (vertices m) = len posArr
  /\ (flt zero smoothing = false -> vertices m = posArr)
  /\ (flt zero smoothing = true ->
      taubinSmooth posArr idxArr smoothing = Return (vertices m)).
Proof.
  unfold finish.
  intros (pos' & w1 & Hs & (_ & w2 & _ & (_ & w3 & _ & Hret)%mbind_Return
                           )%mbind_Return)%mbind_Return.
  apply mret_Return in Hret as [-> _]. cbn [vertices indices].
  destruct (flt zero smoothing).
  - apply lift_Return in Hs as [Hs _].
    repeat split; [by eapply taubinSmooth_len|done|done].
  - apply mret_Return in Hs as [-> _]. done.
Qed.

Lemma generate_Return params (w w' : W) m :
  generateGyroidMesh Math_sin Math_cos EDGE_TABLE TRI_TABLE onProgress params w
  = Return (m, w') ->
  exists g posArr idxArr w1,
    validate params = None /\ grid_of params = Some g
    /\ surface Math_sin Math_cos EDGE_TABLE TRI_TABLE onProgress params g w
       = Return ((posArr, idxArr), w1)
    /\ finish onProgress (smoothingIterations_of params) posArr idxArr w1
       = Return (m, w').
Proof.
  unfold generateGyroidMesh. destruct (validate params); [done|].
  destruct (grid_of params) as [g|]; [|done].
  intros ([pos idx] & w1 & H1 & H2)%mbind_Return. by exists g, pos, idx, w1.
Qed.

Lemma generate_valid params (w w' : W) m :
  TRI_TABLE_ok TRI_TABLE ->
  generateGyroidMesh Math_sin Math_cos EDGE_TABLE TRI_TABLE onProgress params w
  = Return (m, w') ->
  well_formed (vertices m) (indices m).
Proof.
  intros Htri (g & pos & idx & w1 & _ & _ & Hs & Hf)%generate_Return.
  apply surface_valid in Hs as (Hp & Hi & Hall); [|done].
  apply finish_Return in Hf as (-> & Hl & _). unfold well_formed. by rewrite Hl.
Qed.
End Runs.

(** ** Index validity *)

(** C1: with a triangle table of edge numbers, every run of
    [generateGyroidMesh] that returns a mesh returns one whose index array
    has a length that is a multiple of three and holds only indices below
    [positions.length / 3]; the same holds of the arrays that the sweep
    leaves, of what the component filter returns on them, and of what
    smoothing returns. *)
Theorem generate_index_validity {W} Math_sin Math_cos EDGE_TABLE TRI_TABLE
    (onProgress : @ProgressCallback W) (params : GenParams) (w w' : W) (m : MeshData) :
  TRI_TABLE_ok TRI_TABLE ->
  generateGyroidMesh Math_sin Math_cos EDGE_TABLE TRI_TABLE onProgress params w
  = Return (m, w') ->
  (len (indices m) mod 3 = 0
   /\ Forall (fun i => 0 <= i < len (vertices m) / 3) (indices m))
  /\ (forall g solidField w0 w1 st,
         march EDGE_TABLE TRI_TABLE onProgress g solidField w0 = Return (st, w1) ->
         well_formed (Float32Array_from (positions st))
                     (Uint32Array_from (faceIndices st)))
  /\ (forall positions indices positions' indices',
         well_formed positions indices ->
         extractLargestComponent positions indices = Return (positions', indices') ->
         well_formed positions' indices')
  /\ (forall positions indices iterations positions',
         well_formed positions indices ->
         taubinSmooth positions indices iterations = Return positions' ->
         well_formed positions' indices).
Proof.
  intros Htri Hrun. split; [|split; [|split]].
  - by destruct (generate_valid _ _ _ _ _ _ _ _ _ Htri Hrun) as (_ & ? & ?).
  - intros g solidField w0 w1 st Hst.
    apply mc_ok_well_formed. by eapply march_ok.
  - intros positions indices positions' indices' Hwf.
    by apply extractLargestComponent_valid.
  - intros positions indices iterations positions' (Hp & Hi & Hall) Hl%taubinSmooth_len.
    unfold well_formed. by rewrite Hl.
Qed.

Lemma sample_TRI_TABLE_ok : TRI_TABLE_ok sample_TRI_TABLE.
Proof.
  split; [by vm_compute|].
  apply (bool_decide_unpack _). by vm_compute.
Qed.

Lemma generate_index_validity_witness :
  match sample_generate (app_params (of_Z 2)) with
  | Return (m, _) =>
      len (indices m) mod 3 = 0
      /\ Forall (fun i => 0 <= i < len (vertices m) / 3) (indices m)
  | _ => False
  end.
Proof.
  destruct (sample_generate (app_params (of_Z 2))) as [[m w']|e|] eqn:E;
    [|vm_compute in E; discriminate E..].
  apply (generate_index_validity sample_sin sample_cos sample_EDGE_TABLE
           sample_TRI_TABLE log_progress (app_params (of_Z 2)) [] w' m
           sample_TRI_TABLE_ok E).
Defined.

(** ** Smoothing moves positions only *)





(** ** The host cannot influence the mesh *)

Section Agreement.
Context {W1 W2 : Type}.






Variables Math_sin Math_cos : number -> number.
Variables EDGE_TABLE TRI_TABLE : list Z.
Variable cb1 : @ProgressCallback W1.
Variable cb2 : @ProgressCallback W2.




End Agreement.

(** ** The order of the vertices *)

Lemma foldl_track {A B C} (R : A -> C -> Prop) (f : A -> B -> A) (h : C -> B -> C)
    (l : list B) a c :
  R a c -> (forall a c x, x ∈ l -> R a c -> R (f a x) (h c x)) ->
  R (foldl f a l) (foldl h c l).
Proof.
  revert a c. induction l as [|x l IH]; intros a c Hac Hstep; [done|].
  cbn [foldl]. apply IH.
  - apply Hstep; [left|done].
  - intros a' c' y Hy. apply Hstep. by right.
Qed.

Lemma foldl_bind {A B C} (f : A -> B -> A) (k : C -> list B) (l : list C) a :
  foldl f a (l ≫= k) = foldl (fun a x => foldl f a (k x)) a l.
Proof.
  revert a. induction l as [|x l IH]; intros a; [done|].
  rewrite bind_cons, foldl_app. cbn [foldl]. apply IH.
Qed.

Lemma foldl_filter_fmap {A B C} (f : A -> C -> A) (h : B -> C) (p : B -> bool)
    (l : list B) a :
  foldl (fun a x => if p x then f a (h x) else a) a l
  = foldl f a (h <$> filter (fun x => p x = true) l).
Proof.
  revert a. induction l as [|x l IH]; intros a; [done|].
  cbn [foldl]. rewrite filter_cons. destruct (p x) eqn:E.
  - rewrite decide_True by done. cbn [fmap list_fmap foldl]. apply IH.
  - rewrite decide_False by done. apply IH.
Qed.

Lemma len_edge_vertices g solidField (seen : list (Z * Z)) :
  len (seen ≫= edge_vertex g solidField) = 3 * len seen.
Proof.
  induction seen as [|e seen IH]; [done|].
  rewrite bind_cons, len_app, IH. unfold edge_vertex.
  destruct (edge_position _ _ _ _) as [[wx wy] wz]. unfold len. simpl. lia.
Qed.

Lemma at_app_l {A} (l k : list A) i x : at_ l i = Some x -> at_ (l ++ k) i = Some x.
Proof.
  unfold at_. case_decide; [|done]. intros Hx. by apply lookup_app_l_Some.
Qed.

Lemma at_app_end {A} (l : list A) x : at_ (l ++ [x]) (len l) = Some x.
Proof.
  unfold at_, len. rewrite decide_True by lia. rewrite Nat2Z.id.
  by rewrite lookup_app_r, Nat.sub_diag.
Qed.

Lemma cache_of_put st dir baseIdx v dir' :
  0 <= dir <= 2 -> 0 <= dir' <= 2 ->
  cache_of (cache_put st dir baseIdx v) dir'
  = if decide (dir' = dir) then put (cache_of st dir) baseIdx v else cache_of st dir'.
Proof.
  intros Hd Hd'. unfold cache_of, cache_put.
  assert (dir = 0 \/ dir = 1 \/ dir = 2) as [E|[E|E]] by lia;
    assert (dir' = 0 \/ dir' = 1 \/ dir' = 2) as [E'|[E'|E']] by lia;
    subst; reflexivity.
Qed.

Lemma positions_cache_put st dir baseIdx v :
  positions (cache_put st dir baseIdx v) = positions st.
Proof. unfold cache_put. repeat case_match; reflexivity. Qed.

Lemma getEdgeVertex_track g solidField e c0 st seen :
  sweep_inv g solidField st seen ->
  0 <= (edge_slot g c0 e).1 <= 2 -> 0 <= (edge_slot g c0 e).2 < total g ->
  sweep_inv g solidField (getEdgeVertex g solidField e c0 st).2
            (first_met seen (edge_slot g c0 e)).
Proof.
  intros [Hpos Hcache] Hdir Hbase. unfold getEdgeVertex, edge_slot in *.
  set (dir := tbl EDGE_DIR e) in *.
  set (base := c0 + cornerOff g (tbl EDGE_CACHE_CORNER e)) in *.
  cbn [fst snd] in Hdir, Hbase.
  destruct (Hcache dir base Hdir Hbase) as (v0 & Hv0 & Hcase).
  rewrite Hv0. unfold first_met.
  destruct Hcase as [[-> Hnew]|[Hv Hat]].
  - change (0 <=? -1) with false. cbv iota. rewrite decide_False by done.
    pose proof (eq_refl (edge_vertex g solidField (dir, base))) as Hev.
    unfold edge_vertex at 1 in Hev. cbn [fst snd] in Hev.
    destruct (edge_position g solidField dir base) as [[wx wy] wz].
    cbn [snd].
    assert (len (positions st) / 3 = len seen) as Hn.
    { rewrite Hpos, len_edge_vertices. rewrite Z.mul_comm. apply Z.div_mul. lia. }
    rewrite Hn. split.
    + rewrite positions_cache_put. cbn [positions push_position].
      rewrite Hpos, bind_app, bind_cons. cbn [mbind list_bind].
      rewrite app_nil_r, <- Hev. reflexivity.
    + intros dir' base' Hd' Hb'. rewrite cache_of_put by done.
      change (cache_of (push_position st wx wy wz) dir) with (cache_of st dir).
      change (cache_of (push_position st wx wy wz) dir') with (cache_of st dir').
      destruct (Hcache dir' base' Hd' Hb') as (v1 & Hv1 & Hcase1).
      destruct (decide (dir' = dir)) as [->|Hne].
      * destruct (decide (base' = base)) as [->|Hneb].
        -- exists (len seen). rewrite at_put_eq by (by eapply at_Some_lt).
           split; [done|]. right. split; [apply len_nonneg|apply at_app_end].
        -- exists v1. rewrite at_put_ne by done. split; [done|].
           destruct Hcase1 as [[-> Hnot]|[? Hseen]]; [left|right].
           ++ split; [done|]. rewrite elem_of_app, list_elem_of_singleton.
              intros [?|[= ?]]; done.
           ++ split; [done|]. by apply at_app_l.
      * exists v1. split; [done|].
        destruct Hcase1 as [[-> Hnot]|[? Hseen]]; [left|right].
        -- split; [done|]. rewrite elem_of_app, list_elem_of_singleton.
           intros [?|[= ? ?]]; done.
        -- split; [done|]. by apply at_app_l.
  - replace (0 <=? v0) with true by (symmetry; lia). cbv iota. cbn [snd].
    rewrite decide_True by (by eapply at_elem_of). by split.
Qed.

Lemma edge_slot_in_range g x y z e :
  0 <= x < res g -> 0 <= y < res g -> 0 <= z < res g -> e ∈ seqZ 0 12 ->
  0 <= (edge_slot g (x + y * np g + z * np2 g) e).1 <= 2
  /\ 0 <= (edge_slot g (x + y * np g + z * np2 g) e).2 < total g.
Proof.
  intros Hx Hy Hz He%elem_of_seqZ. unfold edge_slot, cornerOff, total, np2, np.
  cbn [fst snd]. set (n := res g + 1).
  assert (y * n <= (n - 2) * n) by (apply Z.mul_le_mono_nonneg_r; lia).
  assert (0 <= y * n) by (apply Z.mul_nonneg_nonneg; lia).
  assert (0 <= n * n) by (apply Z.mul_nonneg_nonneg; lia).
  assert (z * (n * n) <= (n - 2) * (n * n)) by (apply Z.mul_le_mono_nonneg_r; lia).
  assert (0 <= z * (n * n)) by (apply Z.mul_nonneg_nonneg; lia).
  assert (e = 0 \/ e = 1 \/ e = 2 \/ e = 3 \/ e = 4 \/ e = 5 \/ e = 6 \/ e = 7
          \/ e = 8 \/ e = 9 \/ e = 10 \/ e = 11) as He' by lia.
  repeat (destruct He' as [He'|He']); subst e;
    vm_compute tbl; (split; [lia|nia]).
Qed.

Lemma emit_triangles_frame TRI_TABLE tBase ev ts st :
  positions (emit_triangles TRI_TABLE tBase ev ts st) = positions st
  /\ forall dir, cache_of (emit_triangles TRI_TABLE tBase ev ts st) dir = cache_of st dir.
Proof.
  revert st. induction ts as [|t ts IH]; intros st; [done|]. cbn [emit_triangles].
  assert (forall a b c,
             positions (emit_triangles TRI_TABLE tBase ev ts (push_face_indices st a b c))
             = positions st
             /\ forall dir,
                 cache_of (emit_triangles TRI_TABLE tBase ev ts
                             (push_face_indices st a b c)) dir
                 = cache_of st dir) as Hpush.
  { intros a b c. destruct (IH (push_face_indices st a b c)) as [-> Hc].
    split; [done|]. intros dir. by rewrite Hc. }
  repeat case_match; try done; try apply IH; apply Hpush.
Qed.

Section SweepOrder.
Variables EDGE_TABLE TRI_TABLE : list Z.
Variable g : grid.
Variable solidField : list Z.

Lemma resolve_edges_track edges c0 st seen :
  sweep_inv g solidField st seen ->
  (forall e, e ∈ seqZ 0 12 ->
             0 <= (edge_slot g c0 e).1 <= 2 /\ 0 <= (edge_slot g c0 e).2 < total g) ->
  sweep_inv g solidField (resolve_edges g solidField edges c0 st).2
    (foldl first_met seen
       (edge_slot g c0 <$> filter (fun e => edge_active edges e = true) (seqZ 0 12))).
Proof.
  intros Hinv Hrange. unfold resolve_edges.
  rewrite <- (foldl_filter_fmap first_met (edge_slot g c0) (edge_active edges)).
  apply (foldl_track (fun (es : list Z * mc_state) seen => sweep_inv g solidField es.2 seen));
    [done|].
  intros [ev st0] seen0 e He Hinv0. cbn [snd] in *.
  destruct (edge_active edges e); [|done].
  destruct (Hrange e He) as [Hd Hb].
  pose proof (getEdgeVertex_track g solidField e c0 st0 seen0 Hinv0 Hd Hb) as Hstep.
  by destruct (getEdgeVertex g solidField e c0 st0) as [v st1].
Qed.

Lemma march_cube_track z y x st seen :
  0 <= x < res g -> 0 <= y < res g -> 0 <= z < res g ->
  sweep_inv g solidField st seen ->
  sweep_inv g solidField (march_cube EDGE_TABLE TRI_TABLE g solidField z y x st)
    (foldl first_met seen (cube_edges EDGE_TABLE g solidField z y x)).
Proof.
  intros Hx Hy Hz Hinv. unfold march_cube, cube_edges.
  set (c0 := x + y * np g + z * np2 g).
  set (edges := at_ EDGE_TABLE (cube_index g solidField c0)).
  assert (sweep_inv g solidField
            (let '(ev, st0) := resolve_edges g solidField edges c0 st in
             emit_triangles TRI_TABLE (Z.shiftl (cube_index g solidField c0) 4) ev
               [0; 3; 6; 9; 12; 15] st0)
            (foldl first_met seen
               (edge_slot g c0 <$>
                  filter (fun e => edge_active edges e = true) (seqZ 0 12)))) as Hgo.
  { pose proof (resolve_edges_track edges c0 st seen Hinv) as Hr.
    destruct (resolve_edges g solidField edges c0 st) as [ev st0]. cbn [snd] in Hr.
    destruct Hr as [Hp Hc]; [intros e He; by apply edge_slot_in_range|].
    destruct (emit_triangles_frame TRI_TABLE (Z.shiftl (cube_index g solidField c0) 4)
                ev [0; 3; 6; 9; 12; 15] st0) as [Hp' Hc'].
    split; [by rewrite Hp'|]. intros dir base Hd Hb. rewrite Hc'. by apply Hc. }
  destruct edges as [[|p|p]|]; done.
Qed.

Lemma march_slab_track st seen z :
  0 <= z < res g ->
  sweep_inv g solidField st seen ->
  sweep_inv g solidField (march_slab EDGE_TABLE TRI_TABLE g solidField st z)
    (foldl first_met seen
       (seqZ 0 (res g) ≫= fun y =>
        seqZ 0 (res g) ≫= fun x => cube_edges EDGE_TABLE g solidField z y x)).
Proof.
  intros Hz Hinv. unfold march_slab. rewrite foldl_bind.
  apply (foldl_track (sweep_inv g solidField)); [done|].
  intros st1 seen1 y Hy%elem_of_seqZ Hinv1. rewrite foldl_bind.
  apply (foldl_track (sweep_inv g solidField)); [done|].
  intros st2 seen2 x Hx%elem_of_seqZ Hinv2.
  apply march_cube_track; [lia..|done].
Qed.

Lemma mc_init_track : 0 <= res g -> sweep_inv g solidField (mc_init g) [].
Proof.
  intros Hres. split; [done|]. intros dir base Hd Hb. exists (-1).
  split; [|left; split; [done|apply not_elem_of_nil]].
  unfold cache_of, mc_init. cbn [cacheX cacheY cacheZ].
  repeat case_match; apply at_replicate; lia.
Qed.
End SweepOrder.

Lemma mfold_track {W A B C} (R : A -> C -> Prop) (f : A -> B -> @M W A) (h : C -> B -> C)
    xs a c (w w' : W) a' :
  R a c ->
  (forall a c x w a' w', x ∈ xs -> R a c -> f a x w = Return (a', w') -> R a' (h c x)) ->
  mfold f a xs w = Return (a', w') -> R a' (foldl h c xs).
Proof.
  revert a c w. induction xs as [|x xs IH]; intros a c w Hac Hf; simpl.
  - by intros [-> _]%mret_Return.
  - intros (a1 & w1 & H1 & H2)%mbind_Return.
    eapply IH; [|intros ? ? y ? ? ? Hy; apply Hf; by right|exact H2].
    eapply Hf; [left|exact Hac|exact H1].
Qed.

Lemma march_positions {W} EDGE_TABLE TRI_TABLE (onProgress : @ProgressCallback W)
    g solidField (w w' : W) st :
  0 <= res g ->
  march EDGE_TABLE TRI_TABLE onProgress g solidField w = Return (st, w') ->
  positions st
  = first_occurrences (sweep_edges EDGE_TABLE g solidField) ≫= edge_vertex g solidField.
Proof.
  intros Hres Hrun. unfold first_occurrences, sweep_edges. rewrite foldl_bind.
  revert Hrun. unfold march. intros Hrun.
  eapply (mfold_track (sweep_inv g solidField)) in Hrun as [Hp _]; [exact Hp| |].
  - by apply mc_init_track.
  - intros st0 seen z w0 st1 w1 Hz%elem_of_seqZ Hinv
           (u & w2 & _ & [-> _]%mret_Return)%mbind_Return.
    apply march_slab_track; [lia|done].
Qed.

(** ** Determinism *)



(** ** Rounding to binary64 without overflow

    The reciprocal [1 / count] of a positive count of neighbours is a
    finite number: the facts below follow the rounding of [SpecFloat]
    through its two shifts. *)



















(** ** Taubin smoothing on flat input *)

Lemma fadd_zeros x y : is_zero x -> is_zero y -> is_zero (fadd x y).
Proof. intros [[] ->] [[] ->]; vm_compute; eauto. Qed.


Section FlatInput.
Variable positions : list number.
Variable indices : list Z.
Hypothesis Hwf : well_formed positions indices.
Variable k : Z.
Hypothesis Hk : 0 <= k < 3.

Let numVerts := len positions / 3.

Lemma sum_zero temp nbrs :
  in_plane numVerts k temp -> Forall (fun n => 0 <= n < numVerts) nbrs ->
  is_zero (foldl (fun s n => fadd s (num_at temp (n * 3 + k))) zero nbrs).
Proof.
  intros Htemp Hn. apply foldl_invariant; [by exists false|].
  intros s n Hin Hs. apply fadd_zeros; [done|]. apply Htemp.
  by eapply Forall_forall in Hn.
Qed.



End FlatInput.




(** ** The flood fill never runs out of fuel *)

Lemma obind_Throw {A B} (m : outcome A) (k : A -> outcome B) e :
  obind m k = Throw e -> m = Throw e \/ exists a, m = Return a /\ k a = Throw e.
Proof. destruct m; simpl; intros H; [right; eauto|left; congruence|done]. Qed.

Lemma ofold_Throw {A B} (P : A -> Prop) (f : A -> B -> outcome A) xs a e :
  P a ->
  (forall a x, x ∈ xs -> P a ->
               f a x <> Throw e /\ forall a', f a x = Return a' -> P a') ->
  ofold f a xs <> Throw e.
Proof.
  revert a. induction xs as [|x xs IH]; intros a Ha Hf; simpl; [done|].
  destruct (Hf a x) as [Hne Hret]; [left|done|].
  intros [H|(a1 & H1 & H2)]%obind_Throw; [done|].
  revert H2. apply IH; [by apply Hret|]. intros a2 y Hy. apply Hf. by right.
Qed.

Lemma ofold_each_returns {A B} (f : A -> B -> outcome A) xs a a' x :
  ofold f a xs = Return a' -> x ∈ xs -> exists a1 a2, f a1 x = Return a2.
Proof.
  revert a. induction xs as [|y xs IH]; intros a; simpl; [by intros _ ?%elem_of_nil|].
  intros (a1 & H1 & H2)%obind_Return [->|Hx]%elem_of_cons; [eauto|by eapply IH].
Qed.

Lemma vert_face_face_ok indices vertFaces f vertFaces' :
  vert_face indices vertFaces f = Return vertFaces' -> face_ok indices f.
Proof.
  unfold vert_face, push_face.
  intros (v1 & H1 & (v2 & H2 & H3)%obind_Return)%obind_Return.
  destruct (at_ indices (f * 3)) as [a|] eqn:Ea; [|done].
  destruct (at_ indices (f * 3 + 2)) as [c|] eqn:Ec; [|done].
  apply at_Some_lt in Ea, Ec. unfold face_ok. lia.
Qed.

Lemma unvisited_put visited i :
  at_ visited i = Some 0 -> S (unvisited (put visited i 1)) = unvisited visited.
Proof.
  unfold at_, put, unvisited. case_decide; [|done]. intros Hi.
  pose proof (lookup_lt_Some _ _ _ Hi) as Hlt.
  rewrite insert_take_drop by done.
  rewrite <- (take_drop_middle visited (Z.to_nat i) 0 Hi) at 3.
  rewrite !filter_app, !filter_cons, !length_app.
  rewrite decide_False by done. rewrite decide_True by done. simpl. lia.
Qed.

Section Fuel.
Variable indices : list Z.
Variable vertFaces : list (list Z).
Hypothesis Hrows : Forall (Forall (face_ok indices)) vertFaces.

Lemma face_ok_lt f : face_ok indices f -> 0 <= f < len indices / 3.
Proof.
  intros [H0 H1]. split; [done|].
  pose proof (Z.div_mod (len indices) 3 ltac:(lia)).
  pose proof (Z.mod_pos_bound (len indices) 3 ltac:(lia)). lia.
Qed.

Lemma visit_faces_inv measure nfs st :
  Forall (face_ok indices) nfs -> flood_inv indices measure st ->
  flood_inv indices measure (visit_faces nfs st).
Proof.
  intros Hn Hst. unfold visit_faces. apply foldl_invariant; [done|].
  intros [visited stack] nf Hnf (Hl & Hs & Hm). cbn [fst snd] in *.
  assert (face_ok indices nf) as Hok by (by eapply Forall_forall in Hn).
  pose proof (face_ok_lt nf Hok) as Hlt.
  destruct (at_is_Some visited nf ltac:(lia)) as [b Hb]. rewrite Hb.
  assert (flood_inv indices measure (put visited nf 1, nf :: stack) \/ b <> 0) as Hcase.
  { destruct (decide (b = 0)) as [->|Hne]; [left|by right].
    split; [cbn [fst]; by rewrite len_put|]. split; [by apply Forall_cons|].
    cbn [fst snd length]. pose proof (unvisited_put visited nf Hb). lia. }
  destruct b as [|p|p]; [by destruct Hcase| |]; by split.
Qed.

Lemma visit_corners_inv measure f st :
  flood_inv indices measure st ->
  visit_corners indices vertFaces f st <> Throw FuelExhausted
  /\ forall st', visit_corners indices vertFaces f st = Return st' ->
                 flood_inv indices measure st'.
Proof.
  intros Hst. unfold visit_corners. split.
  - apply (ofold_Throw (fun _ => True)); [done|]. intros st0 k _ _.
    split; [|done]. repeat case_match; done.
  - intros st'. apply (ofold_invariant (flood_inv indices measure)); [done|].
    intros st0 k st1 _ Hst0.
    destruct (at_ indices (f * 3 + k)) as [v|]; [|done].
    destruct (at_ vertFaces v) as [nfs|] eqn:E; [|done]. intros [= <-].
    apply visit_faces_inv; [|done]. by eapply Forall_at in Hrows.
Qed.

Lemma flood_fuel fuel visited stack comp :
  flood_inv indices (length stack + unvisited visited) (visited, stack) ->
  (length stack + unvisited visited <= fuel)%nat ->
  flood fuel indices vertFaces visited stack comp <> Throw FuelExhausted
  /\ forall visited' comp',
      flood fuel indices vertFaces visited stack comp = Return (visited', comp') ->
      len visited' = len indices / 3.
Proof.
  revert visited stack comp.
  induction fuel as [|fuel IH]; intros visited stack comp Hinv Hfuel;
    destruct stack as [|f stack]; cbn [flood].
  - split; [done|]. intros ? ? [= <- <-]. apply Hinv.
  - simpl in Hfuel. lia.
  - split; [done|]. intros ? ? [= <- <-]. apply Hinv.
  - destruct Hinv as (Hl & [Hf Hs]%Forall_cons & _). cbn [fst snd length] in *.
    destruct (visit_corners_inv (length stack + unvisited visited) f (visited, stack))
      as [Hne Hret]; [by split|].
    destruct (visit_corners indices vertFaces f (visited, stack)) as [[vis stk]|e|] eqn:E;
      cbn [obind fst snd]; [|split; [congruence|done]|done].
    destruct (Hret _ eq_refl) as (Hl' & Hs' & Hm'). cbn [fst snd] in *.
    apply IH; [split; [done|split; [done|reflexivity]]|lia].
Qed.

Lemma flood_seed_fuel st seed :
  face_ok indices seed -> len st.1 = len indices / 3 ->
  flood_seed indices vertFaces st seed <> Throw FuelExhausted
  /\ forall st', flood_seed indices vertFaces st seed = Return st' ->
                 len st'.1 = len indices / 3.
Proof.
  intros Hseed Hl. destruct st as [visited bestComp]. cbn [fst] in Hl.
  unfold flood_seed.
  assert ((let! vc := flood (S (unvisited (put visited seed 1))) indices vertFaces
                        (put visited seed 1) [seed] [] in
           Return (vc.1, if len bestComp <? len vc.2 then vc.2 else bestComp))
          <> Throw FuelExhausted
          /\ forall st',
              (let! vc := flood (S (unvisited (put visited seed 1))) indices vertFaces
                            (put visited seed 1) [seed] [] in
               Return (vc.1, if len bestComp <? len vc.2 then vc.2 else bestComp))
              = Return st' -> len st'.1 = len indices / 3) as Hgo.
  { destruct (flood_fuel (S (unvisited (put visited seed 1))) (put visited seed 1)
                [seed] []) as [Hne Hret].
    - split; [cbn [fst]; by rewrite len_put|]. split; [by apply Forall_singleton|done].
    - simpl. lia.
    - destruct (flood _ _ _ _ _ _) as [[vis comp]|e|]; cbn [obind fst snd].
      + split; [done|]. intros st' [= <-]. cbn [fst]. by eapply Hret.
      + split; [congruence|done].
      + done. }
  destruct (at_ visited seed) as [[|p|p]|]; try apply Hgo;
    (split; [done|by intros st' [= <-]]).
Qed.
End Fuel.

Lemma push_face_fuel vertFaces v f : push_face vertFaces v f <> Throw FuelExhausted.
Proof. unfold push_face. destruct v as [v|]; [|done]. by destruct (at_ vertFaces v). Qed.

Lemma vert_face_fuel indices vertFaces f :
  vert_face indices vertFaces f <> Throw FuelExhausted.
Proof.
  unfold vert_face.
  intros [H|(a & _ & [H|(b & _ & H)]%obind_Throw)]%obind_Throw;
    by apply push_face_fuel in H.
Qed.

(** The bound on the rounds of the flood fill is never reached:
    [extractLargestComponent] does not end in [FuelExhausted]. *)
Lemma extractLargestComponent_fuel positions indices :
  extractLargestComponent positions indices <> Throw FuelExhausted.
Proof.
  unfold extractLargestComponent.
  destruct (len indices <? 300); [done|]. destruct (negb _); [done|].
  destruct (ofold (vert_face indices) _ (thirds (len indices))) as [vertFaces|e|] eqn:Hvf;
    cbn [obind]; [| |done].
  2:{ intros [= ->]. revert Hvf. apply (ofold_Throw (fun _ => True)); [done|].
      intros vf f _ _. split; [|done]. apply vert_face_fuel. }
  assert (Forall (Forall (face_ok indices)) vertFaces) as Hrows.
  { revert Hvf. apply ofold_invariant; [by apply Forall_replicate|].
    intros vf f vf' _ Hr Hf. pose proof (vert_face_face_ok _ _ _ _ Hf) as Hok.
    revert Hf. unfold vert_face.
    intros (v1 & H1 & (v2 & H2 & H3)%obind_Return)%obind_Return.
    assert (forall v a b, Forall (Forall (face_ok indices)) a ->
                          push_face a v f = Return b ->
                          Forall (Forall (face_ok indices)) b) as Hpush.
    { intros v a b Ha. unfold push_face. destruct v as [v|]; [|done].
      destruct (at_ a v) as [row|] eqn:E; [|done]. intros [= <-].
      apply Forall_put; [done|]. apply Forall_app. split.
      - by eapply Forall_at in Ha.
      - by apply Forall_singleton. }
    eauto. }
  assert (forall seed, seed ∈ thirds (len indices) -> face_ok indices seed) as Hseeds.
  { intros seed Hs. destruct (ofold_each_returns _ _ _ _ _ Hvf Hs) as (a1 & a2 & Hf).
    by eapply vert_face_face_ok. }
  pose proof (len_nonneg indices).
  assert (0 <= len indices / 3) by (apply Z.div_pos; lia).
  assert (ofold (flood_seed indices vertFaces)
            (replicate (Z.to_nat (len indices / 3)) 0, [])
            (thirds (len indices)) <> Throw FuelExhausted) as Hne.
  { apply (ofold_Throw (fun st : list Z * list Z => len st.1 = len indices / 3)).
    - cbn [fst]. by apply len_replicate.
    - intros st seed Hs Hl. apply flood_seed_fuel; [done|by apply Hseeds|done]. }
  destruct (ofold (flood_seed indices vertFaces) _ _) as [vb|e|]; cbn [obind];
    [|congruence|done].
  destruct (_ =? _); [done|]. by repeat case_match.
Qed.

(** * Further properties of the code *)

(** ** Vertices sit at the midpoints of the grid edges *)

Lemma sample_cases solidField i :
  sample solidField i = one \/ sample solidField i = fneg one.
Proof.
  unfold sample. destruct (at_ solidField i) as [[|[p|p|]|p]|]; auto.
Qed.

(** X1: the two end samples of an edge are -1 or 1, so the interpolation
    parameter that [getEdgeVertex] computes is 0.5 on every edge, whatever the
    field holds; the position of the vertex of an edge therefore depends on
    the grid alone. *)
Theorem interpolation_is_midpoint (g : grid) (solidField solidField' : list Z)
    (dir baseIdx endA endB : Z) :
  interpolate (sample solidField endA) (sample solidField endB) = num_half
  /\ edge_position g solidField dir baseIdx = edge_position g solidField' dir baseIdx.
Proof.
  assert (forall f a b, interpolate (sample f a) (sample f b) = num_half) as H.
  { intros f a b.
    destruct (sample_cases f a) as [-> | ->], (sample_cases f b) as [-> | ->];
      reflexivity. }
  split; [apply H|]. unfold edge_position. by rewrite !H.
Qed.

(** ** The edge tables *)

(** X2: the cache tables agree with the corner tables.  For each of the
    twelve edges, the two grid points between which [getEdgeVertex]
    interpolates (the cache base point and its neighbour along the axis of
    the edge) are the two corners [EDGE_V0], [EDGE_V1] of that edge, on
    every grid. *)
Theorem edge_ends_are_the_corners (g : grid) (c0 e : Z) :
  0 <= e < 12 ->
  let endA := c0 + cornerOff g (tbl EDGE_CACHE_CORNER e) in
  let endB := endA + axisDelta g (tbl EDGE_DIR e) in
  let cornerA := c0 + cornerOff g (tbl EDGE_V0 e) in
  let cornerB := c0 + cornerOff g (tbl EDGE_V1 e) in
  (endA = cornerA /\ endB = cornerB) \/ (endA = cornerB /\ endB = cornerA).
Proof.
  intros He.
  assert (e = 0 \/ e = 1 \/ e = 2 \/ e = 3 \/ e = 4 \/ e = 5 \/ e = 6 \/ e = 7
          \/ e = 8 \/ e = 9 \/ e = 10 \/ e = 11) as H by lia.
  unfold cornerOff, axisDelta, np2.
  repeat destruct H as [->|H]; [..|subst e];
    cbn [tbl at_ default EDGE_CACHE_CORNER EDGE_DIR EDGE_V0 EDGE_V1 dX dY dZ];
    cbv -[np Z.add Z.mul]; lia.
Qed.

Lemma edge_ends_are_the_corners_witness :
  (5 + cornerOff sample_grid (tbl EDGE_CACHE_CORNER 2) = 5 + cornerOff sample_grid (tbl EDGE_V0 2)
   /\ 5 + cornerOff sample_grid (tbl EDGE_CACHE_CORNER 2) + axisDelta sample_grid (tbl EDGE_DIR 2)
      = 5 + cornerOff sample_grid (tbl EDGE_V1 2))
  \/ (5 + cornerOff sample_grid (tbl EDGE_CACHE_CORNER 2) = 5 + cornerOff sample_grid (tbl EDGE_V1 2)
      /\ 5 + cornerOff sample_grid (tbl EDGE_CACHE_CORNER 2) + axisDelta sample_grid (tbl EDGE_DIR 2)
         = 5 + cornerOff sample_grid (tbl EDGE_V0 2)).
Proof.
  apply (edge_ends_are_the_corners sample_grid 5 2). lia.
Defined.

(** ** The cube index *)

Lemma cube_index_bits_from (g : grid) (solidField : list Z) (c0 : Z) (cs : list Z) acc c :
  0 <= c -> Forall (fun c' => 0 <= c') cs ->
  Z.testbit
    (foldl (fun cubeIndex c =>
              match at_ solidField (c0 + cornerOff g c) with
              | Some 0 => Z.lor cubeIndex (Z.shiftl 1 c)
              | _ => cubeIndex
              end) acc cs) c
  = Z.testbit acc c
    || bool_decide (c ∈ cs /\ at_ solidField (c0 + cornerOff g c) = Some 0).
Proof.
  intros Hc. revert acc. induction cs as [|c' cs IH]; intros acc Hcs.
  - cbn [foldl]. rewrite bool_decide_eq_false_2; [by rewrite orb_false_r|].
    by intros [?%elem_of_nil _].
  - apply Forall_cons in Hcs as [Hc' Hcs]. cbn [foldl]. rewrite IH by done.
    assert (Z.testbit (Z.lor acc (Z.shiftl 1 c')) c = Z.testbit acc c || bool_decide (c = c'))
      as Hbit.
    { rewrite Z.lor_spec, Z.shiftl_1_l, Z.pow2_bits_eqb by done. f_equal.
      destruct (Z.eqb_spec c' c) as [->|Hne].
      - by rewrite bool_decide_eq_true_2.
      - rewrite bool_decide_eq_false_2; [done|]. intros ->. done. }
    destruct (decide (c = c')) as [<-|Hne].
    + destruct (at_ solidField (c0 + cornerOff g c)) as [[|p|p]|] eqn:E.
      * rewrite Hbit, bool_decide_eq_true_2 by done.
        rewrite (bool_decide_eq_true_2 (c ∈ c :: cs /\ _)); [|split; [by left|done]].
        by rewrite !orb_true_r.
      * f_equal. apply bool_decide_ext. split; intros [_ ?]; done.
      * f_equal. apply bool_decide_ext. split; intros [_ ?]; done.
      * f_equal. apply bool_decide_ext. split; intros [_ ?]; done.
    + assert (Z.testbit
                match at_ solidField (c0 + cornerOff g c') with
                | Some 0 => Z.lor acc (Z.shiftl 1 c')
                | _ => acc
                end c = Z.testbit acc c) as ->.
      { destruct (at_ solidField (c0 + cornerOff g c')) as [[|p|p]|]; try done.
        rewrite Hbit, bool_decide_eq_false_2 by done. by rewrite orb_false_r. }
      f_equal. apply bool_decide_ext. rewrite elem_of_cons.
      split; [intros [? ?]; split; [by right|done]|].
      intros [[?|?] ?]; [done|by split].
Qed.

(** X3: the cube index is a number from 0 to 255 whose bit [c] is set
    exactly when corner [c] of the cube is void (its field value is 0); a
    corner outside the field counts as not void. *)
Theorem cube_index_bits (g : grid) (solidField : list Z) (c0 c : Z) :
  0 <= c < 8 ->
  0 <= cube_index g solidField c0 < 256
  /\ (Z.testbit (cube_index g solidField c0) c = true
      <-> at_ solidField (c0 + cornerOff g c) = Some 0).
Proof.
  intros Hc. split; [apply cube_index_range|].
  unfold cube_index. rewrite cube_index_bits_from; [|lia|].
  - rewrite Z.bits_0, orb_false_l, bool_decide_eq_true.
    split; [by intros [_ ?]|]. intros H. split; [|done]. apply elem_of_seqZ. lia.
  - apply Forall_forall. intros x Hx%elem_of_seqZ. lia.
Qed.

Lemma cube_index_bits_witness :
  Z.testbit (cube_index sample_grid [1; 0] 0) 1 = true <-> at_ [1; 0] (0 + cornerOff sample_grid 1) = Some 0.
Proof.
  apply (cube_index_bits sample_grid [1; 0] 0 1). lia.
Defined.

(** ** Vertices shared through the edge caches *)

Lemma EDGE_DIR_range e : 0 <= tbl EDGE_DIR e <= 2.
Proof.
  unfold tbl. destruct (decide (0 <= e < 12)) as [He|He].
  - assert (e = 0 \/ e = 1 \/ e = 2 \/ e = 3 \/ e = 4 \/ e = 5 \/ e = 6 \/ e = 7
            \/ e = 8 \/ e = 9 \/ e = 10 \/ e = 11) as H by lia.
    repeat destruct H as [->|H]; [..|subst e]; vm_compute; split; discriminate.
  - rewrite at_None; [simpl; lia|]. unfold len. simpl. lia.
Qed.

Lemma getEdgeVertex_slot g solidField e c0 e' c0' st :
  edge_slot g c0' e' = edge_slot g c0 e ->
  getEdgeVertex g solidField e' c0' st = getEdgeVertex g solidField e c0 st.
Proof. unfold edge_slot, getEdgeVertex. by intros [= -> ->]. Qed.

(** X4: a grid edge gets one vertex.  When the cache slot of the edge
    exists, a second request for the same grid edge (from whatever cube and
    under whatever edge number) returns the vertex of the first request
    and changes nothing; a request adds at most one vertex. *)
Theorem getEdgeVertex_shares_the_vertex (g : grid) (solidField : list Z)
    (e c0 e' c0' : Z) (st : mc_state) :
  edge_slot g c0' e' = edge_slot g c0 e ->
  0 <= (edge_slot g c0 e).2 < len (cache_of st (edge_slot g c0 e).1) ->
  let r := getEdgeVertex g solidField e c0 st in
  0 <= r.1
  /\ getEdgeVertex g solidField e' c0' r.2 = r
  /\ (len (positions r.2) = len (positions st)
      \/ len (positions r.2) = len (positions st) + 3).
Proof.
  intros Hslot Hbase r. subst r. rewrite (getEdgeVertex_slot _ _ _ _ _ _ _ Hslot).
  unfold edge_slot in Hbase. cbn [fst snd] in Hbase. unfold getEdgeVertex.
  pose proof (EDGE_DIR_range e) as Hdir.
  set (dir := tbl EDGE_DIR e) in *.
  set (base := c0 + cornerOff g (tbl EDGE_CACHE_CORNER e)) in *.
  destruct (edge_position g solidField dir base) as [[wx wy] wz] eqn:Epos.
  assert (let st' := cache_put (push_position st wx wy wz) dir base (len (positions st) / 3) in
          0 <= len (positions st) / 3
          /\ match at_ (cache_of st' dir) base with
             | Some v => if 0 <=? v then (v, st')
                         else (len (positions st') / 3,
                               cache_put (push_position st' wx wy wz) dir base
                                 (len (positions st') / 3))
             | None => (len (positions st') / 3,
                        cache_put (push_position st' wx wy wz) dir base
                          (len (positions st') / 3))
             end = (len (positions st) / 3, st')
          /\ len (positions st') = len (positions st) + 3) as Hcreate.
  { intros st'. subst st'. pose proof (len_nonneg (positions st)).
    assert (0 <= len (positions st) / 3) as Hn by (apply Z.div_pos; lia).
    split; [done|]. split.
    - rewrite cache_of_put by done. rewrite decide_True by done.
      change (cache_of (push_position st wx wy wz) dir) with (cache_of st dir).
      rewrite at_put_eq by done.
      replace (0 <=? len (positions st) / 3) with true by (symmetry; lia). done.
    - rewrite positions_cache_put. cbn [positions push_position].
      rewrite len_app. unfold len at 2. simpl. lia. }
  destruct (at_ (cache_of st dir) base) as [v|] eqn:Ev.
  - destruct (0 <=? v) eqn:Hv.
    + cbn [fst snd]. rewrite Ev, Hv. split; [lia|]. split; [done|by left].
    + cbn [fst snd]. destruct Hcreate as (H1 & H2 & H3).
      split; [done|]. split; [exact H2|by right].
  - destruct (at_is_Some (cache_of st dir) base Hbase) as [v Hv]. congruence.
Qed.

Lemma getEdgeVertex_shares_the_vertex_witness :
  getEdgeVertex sample_grid [] 2 0 (getEdgeVertex sample_grid [] 0 5 (mc_init sample_grid)).2
  = getEdgeVertex sample_grid [] 0 5 (mc_init sample_grid).
Proof.
  apply (getEdgeVertex_shares_the_vertex sample_grid [] 0 5 2 0 (mc_init sample_grid)).
  - reflexivity.
  - vm_compute. split; [discriminate|reflexivity].
Defined.

(** ** How many vertices the sweep can create *)

Lemma first_met_NoDup seen es :
  NoDup seen ->
  NoDup (foldl first_met seen es)
  /\ forall e, e ∈ foldl first_met seen es -> e ∈ seen \/ e ∈ es.
Proof.
  revert seen. induction es as [|x es IH]; intros seen Hnd; cbn [foldl].
  - split; [done|]. intros e He. by left.
  - destruct (IH (first_met seen x)) as [Hnd' Hin].
    + unfold first_met. case_decide; [done|].
      apply NoDup_app. split; [done|]. split.
      * intros y Hy ->%list_elem_of_singleton. done.
      * apply NoDup_singleton.
    + split; [done|]. intros e [He|He]%Hin; [|right; by right].
      unfold first_met in He. case_decide; [by left|].
      apply elem_of_app in He as [He|He]; [by left|].
      apply list_elem_of_singleton in He as ->. right; by left.
Qed.

Lemma cube_edges_in_range EDGE_TABLE g solidField z y x e :
  0 <= x < res g -> 0 <= y < res g -> 0 <= z < res g ->
  e ∈ cube_edges EDGE_TABLE g solidField z y x ->
  0 <= e.1 <= 2 /\ 0 <= e.2 < total g.
Proof.
  intros Hx Hy Hz. unfold cube_edges.
  generalize (at_ EDGE_TABLE (cube_index g solidField (x + y * np g + z * np2 g))).
  intros edges He.
  assert (e ∈ edge_slot g (x + y * np g + z * np2 g)
              <$> filter (fun e0 => edge_active edges e0 = true) (seqZ 0 12)) as Hin.
  { destruct edges as [m|]; [|exact He].
    destruct m as [|p|p]; [by apply elem_of_nil in He|exact He..]. }
  clear He. apply list_elem_of_fmap in Hin as (e0 & -> & Hf).
  apply list_elem_of_filter in Hf as [_ He0].
  by apply edge_slot_in_range.
Qed.

Lemma sweep_edges_in_range EDGE_TABLE g solidField e :
  e ∈ sweep_edges EDGE_TABLE g solidField ->
  0 <= e.1 <= 2 /\ 0 <= e.2 < total g.
Proof.
  unfold sweep_edges.
  intros (z & He & Hz%elem_of_seqZ)%list_elem_of_bind.
  apply list_elem_of_bind in He as (y & He & Hy%elem_of_seqZ).
  apply list_elem_of_bind in He as (x & He & Hx%elem_of_seqZ).
  apply (cube_edges_in_range EDGE_TABLE g solidField z y x); [lia..|exact He].
Qed.

Lemma slots_length (total : Z) (l : list (Z * Z)) :
  0 <= total -> NoDup l ->
  (forall e, e ∈ l -> 0 <= e.1 <= 2 /\ 0 <= e.2 < total) ->
  len l <= 3 * total.
Proof.
  intros Ht Hnd Hin.
  assert (l ⊆+ (seqZ 0 3 ≫= fun d => (fun b => (d, b)) <$> seqZ 0 total)) as Hsub.
  { apply NoDup_submseteq; [done|]. intros [d b] [Hd Hb]%Hin. cbn [fst snd] in *.
    apply list_elem_of_bind. exists d. split; [|apply elem_of_seqZ; lia].
    apply list_elem_of_fmap. exists b. split; [done|]. apply elem_of_seqZ. lia. }
  apply submseteq_length in Hsub. unfold len.
  assert (length (seqZ 0 3 ≫= fun d => (fun b => (d, b)) <$> seqZ 0 total)
          = (3 * Z.to_nat total)%nat) as E.
  { change (seqZ 0 3) with [0; 1; 2]. rewrite !bind_cons. cbn [mbind list_bind].
    rewrite !length_app, !length_fmap, !length_seqZ. simpl. lia. }
  lia.
Qed.

(** X5: the sweep creates at most one vertex per grid edge: when it
    returns, the number of vertices is the number of distinct edge slots
    met, which is at most three times the number of grid points. *)
Theorem vertex_count_bound {W} EDGE_TABLE TRI_TABLE (onProgress : @ProgressCallback W)
    (g : grid) (solidField : list Z) (w w' : W) (st : mc_state) :
  0 <= res g ->
  march EDGE_TABLE TRI_TABLE onProgress g solidField w = Return (st, w') ->
  len (positions st)
  = 3 * len (first_occurrences (sweep_edges EDGE_TABLE g solidField))
  /\ NoDup (first_occurrences (sweep_edges EDGE_TABLE g solidField))
  /\ len (positions st) / 3 <= 3 * total g.
Proof.
  intros Hres Hrun.
  rewrite (march_positions EDGE_TABLE TRI_TABLE onProgress g solidField w w' st Hres Hrun).
  rewrite len_edge_vertices.
  destruct (first_met_NoDup [] (sweep_edges EDGE_TABLE g solidField)) as [Hnd Hin];
    [constructor|].
  split; [done|]. split; [exact Hnd|].
  rewrite Z.mul_comm, Z.div_mul by lia.
  apply slots_length; [unfold total, np; nia|exact Hnd|].
  intros e [He%elem_of_nil|He]%Hin; [done|].
  by eapply sweep_edges_in_range.
Qed.

Lemma vertex_count_bound_witness :
  exists st w',
    march sample_EDGE_TABLE sample_TRI_TABLE log_progress sample_grid
      (replicate 125 0) [] = Return (st, w')
    /\ len (positions st) / 3 <= 3 * total sample_grid.
Proof.
  assert (exists r, march sample_EDGE_TABLE sample_TRI_TABLE log_progress sample_grid
                      (replicate 125 0) [] = Return r) as [[st w'] E]
    by (eexists; vm_compute; reflexivity).
  exists st, w'. split; [exact E|].
  apply (vertex_count_bound sample_EDGE_TABLE sample_TRI_TABLE log_progress sample_grid
           (replicate 125 0) [] w' st); [cbn; lia|exact E].
Defined.

(** ** Sealing the ports *)

Lemma structural_shell_sealed half step st channelA channelB xMM yMM zMM :
  structural_shell half step st false channelA channelB xMM yMM zMM = true ->
  structural_shell half step st true channelA channelB xMM yMM zMM = true.
Proof.
  unfold structural_shell.
  destruct (fle (Math_abs xMM) (fsub half st) && fle (Math_abs yMM) (fsub half st)
            && fle (Math_abs zMM) (fsub half st)); simpl; [done|].
  by intros _.
Qed.

(** X6: sealing the ports only ever adds material.  A voxel that is solid
    with [makeManifold] off (or omitted) is solid with it on, in frame mode
    the flag changes nothing, and omitting the flag is the same as turning
    it off. *)
Theorem makeManifold_only_adds_solid (params : GenParams) (g : grid)
    (mmCoords sinRad cosRad : list number) (idx : Z) (m : option bool) :
  let ports := voxel (with_makeManifold params m) g mmCoords sinRad cosRad idx in
  let sealed := voxel (with_makeManifold params (Some true)) g mmCoords sinRad cosRad idx in
  (ports = 1 -> sealed = 1)
  /\ (useFrame params = true -> ports = sealed)
  /\ (voxel (with_makeManifold params None) g mmCoords sinRad cosRad idx
      = voxel (with_makeManifold params (Some false)) g mmCoords sinRad cosRad idx).
Proof.
  intros ports sealed. subst ports sealed. unfold voxel, structural_at.
  cbn [useFrame with_makeManifold wallThickness shellThickness frameBeamWidth].
  unfold makeManifold_of, default. cbn [makeManifold with_makeManifold from_option id].
  split; [|split; [|done]].
  - destruct (useFrame params); [done|].
    destruct m as [[]|]; [done| |]; cbn [from_option id];
      (match goal with
       | |- context [structural_shell ?a ?b ?c false ?d ?e ?x ?y ?z] =>
           destruct (structural_shell a b c false d e x y z) eqn:E
       end;
       [by rewrite (structural_shell_sealed _ _ _ _ _ _ _ _ E)|];
       cbn [orb]; destruct (negb _ && negb _); [by rewrite orb_true_r|done]).
  - by intros ->.
Qed.

Lemma makeManifold_only_adds_solid_witness :
  voxel (with_makeManifold frame_params None) sample_grid [] [] [] 0
  = voxel (with_makeManifold frame_params (Some true)) sample_grid [] [] [] 0.
Proof.
  exact (proj1 (proj2 (makeManifold_only_adds_solid frame_params sample_grid [] [] [] 0 None))
           eq_refl).
Defined.

(** ** The voided boundary layer *)

Lemma grid_point_unique n x y z x' y' z' :
  0 <= x < n -> 0 <= y < n -> 0 <= x' < n -> 0 <= y' < n ->
  x + y * n + z * (n * n) = x' + y' * n + z' * (n * n) ->
  x = x' /\ y = y' /\ z = z'.
Proof.
  intros Hx Hy Hx' Hy' E.
  destruct (Z.div_mod_unique n (y + z * n) (y' + z' * n) x x') as [E1 E2];
    [lia|lia|lia|].
  destruct (Z.div_mod_unique n z z' y y') as [E3 E4]; [lia|lia|lia|].
  lia.
Qed.

Lemma grid_point_range n x y z :
  0 <= x < n -> 0 <= y < n -> 0 <= z < n -> 0 <= x + y * n + z * (n * n) < n * n * n.
Proof. intros. nia. Qed.

Lemma foldl_establish {A B} (Q : A -> Prop) (f : A -> B -> A) (P : A -> Prop) l x0 a :
  x0 ∈ l -> P a ->
  (forall a x, x ∈ l -> P a -> P (f a x)) ->
  (forall a, P a -> Q (f a x0)) ->
  (forall a x, x ∈ l -> P a -> Q a -> Q (f a x)) ->
  Q (foldl f a l).
Proof.
  intros Hin Ha HP Hset Hkeep. revert a Ha.
  induction l as [|x l IH]; intros a Ha; [by apply elem_of_nil in Hin|].
  simpl. apply elem_of_cons in Hin as [->|Hin].
  - apply (foldl_invariant (fun b => P b /\ Q b)).
    + split; [apply HP|apply Hset]; by try left.
    + intros b y Hy [Hb Hq]. split; [apply HP|apply Hkeep]; try done; by right.
  - apply IH; [done| | |].
    + intros ? ? ? ?. apply HP; [by right|done].
    + intros ? ? ? ? ?. apply Hkeep; [by right|done..].
    + apply HP; [by left|done].
Qed.

Lemma void_pair_len g f a b : len (void_pair g f a b) = len f.
Proof. unfold void_pair. by rewrite !len_put. Qed.

Lemma void_boundary_len g f : len (void_boundary g f) = len f.
Proof.
  unfold void_boundary. apply (foldl_invariant (fun f' => len f' = len f)); [done|].
  intros f1 a _ H1. apply (foldl_invariant (fun f' => len f' = len f)); [done|].
  intros f2 b _ H2. by rewrite void_pair_len.
Qed.

Lemma put_zero_keeps (f : list Z) i j : at_ f i = Some 0 -> at_ (put f j 0) i = Some 0.
Proof. intros H. rewrite at_put. by case_decide. Qed.

Lemma void_pair_keeps g f a b i : at_ f i = Some 0 -> at_ (void_pair g f a b) i = Some 0.
Proof. intros H. unfold void_pair. by repeat apply put_zero_keeps. Qed.

Section Boundary.
Variable g : grid.
Variable solidField : list Z.
Hypothesis Hres : 0 <= res g.
Hypothesis Hlen : len solidField = total g.

Lemma void_pair_interior f a b x y z :
  0 <= a < np g -> 0 <= b < np g ->
  0 < x < res g -> 0 < y < res g -> 0 < z < res g ->
  at_ (void_pair g f a b) (x + y * np g + z * np2 g) = at_ f (x + y * np g + z * np2 g).
Proof.
  intros Ha Hb Hx Hy Hz. unfold void_pair, np2, np in *.
  rewrite !at_put_ne; [done|..]; intros E.
  - apply (grid_point_unique (res g + 1) 0 a b x y z) in E; lia.
  - apply (grid_point_unique (res g + 1) (res g) a b x y z) in E; lia.
  - replace (a + 0) with (a + 0 * (res g + 1)) in E by lia.
    apply (grid_point_unique (res g + 1) a 0 b x y z) in E; lia.
  - apply (grid_point_unique (res g + 1) a (res g) b x y z) in E; lia.
  - replace (a + b * (res g + 1))
      with (a + b * (res g + 1) + 0 * ((res g + 1) * (res g + 1))) in E by lia.
    apply (grid_point_unique (res g + 1) a b 0 x y z) in E; lia.
  - apply (grid_point_unique (res g + 1) a b (res g) x y z) in E; lia.
Qed.

Lemma void_pair_sets f a b i :
  len f = total g -> 0 <= a < np g -> 0 <= b < np g ->
  i ∈ [0 + a * np g + b * np2 g; res g + a * np g + b * np2 g;
       a + 0 + b * np2 g; a + res g * np g + b * np2 g;
       a + b * np g; a + b * np g + res g * np2 g] ->
  at_ (void_pair g f a b) i = Some 0.
Proof.
  intros Hf Ha Hb Hi.
  assert (0 <= i < total g) as Hr.
  { unfold total, np2, np in *.
    pose proof (grid_point_range (res g + 1) 0 a b).
    pose proof (grid_point_range (res g + 1) (res g) a b).
    pose proof (grid_point_range (res g + 1) a 0 b).
    pose proof (grid_point_range (res g + 1) a (res g) b).
    pose proof (grid_point_range (res g + 1) a b 0).
    pose proof (grid_point_range (res g + 1) a b (res g)).
    repeat (apply elem_of_cons in Hi as [->|Hi]; [lia|]).
    by apply elem_of_nil in Hi. }
  unfold void_pair.
  repeat (apply elem_of_cons in Hi as [->|Hi];
          [repeat first [ apply at_put_eq; rewrite ?len_put; lia
                        | apply put_zero_keeps ]|]).
  by apply elem_of_nil in Hi.
Qed.

Lemma void_boundary_sets a b i :
  0 <= a < np g -> 0 <= b < np g ->
  i ∈ [0 + a * np g + b * np2 g; res g + a * np g + b * np2 g;
       a + 0 + b * np2 g; a + res g * np g + b * np2 g;
       a + b * np g; a + b * np g + res g * np2 g] ->
  at_ (void_boundary g solidField) i = Some 0.
Proof.
  intros Ha Hb Hi. unfold void_boundary.
  apply (foldl_establish (fun f => at_ f i = Some 0) _ (fun f => len f = total g) _ a).
  - apply elem_of_seqZ. lia.
  - done.
  - intros f a' _ Hf. apply (foldl_invariant (fun f' => len f' = total g)); [done|].
    intros. by rewrite void_pair_len.
  - intros f Hf.
    apply (foldl_establish (fun f => at_ f i = Some 0) _ (fun f => len f = total g) _ b).
    + apply elem_of_seqZ. lia.
    + done.
    + intros. by rewrite void_pair_len.
    + intros f' Hf'. by apply void_pair_sets.
    + intros. by apply void_pair_keeps.
  - intros f a' _ Hf Hq. apply (foldl_invariant (fun f' => at_ f' i = Some 0)); [done|].
    intros. by apply void_pair_keeps.
Qed.

Lemma void_boundary_interior x y z :
  0 < x < res g -> 0 < y < res g -> 0 < z < res g ->
  at_ (void_boundary g solidField) (x + y * np g + z * np2 g)
  = at_ solidField (x + y * np g + z * np2 g).
Proof.
  intros Hx Hy Hz. unfold void_boundary.
  apply (foldl_invariant (fun f => at_ f _ = at_ solidField _)); [done|].
  intros f a Ha%elem_of_seqZ Hf.
  apply (foldl_invariant (fun f => at_ f _ = at_ solidField _)); [done|].
  intros f' b Hb%elem_of_seqZ Hf'.
  rewrite void_pair_interior; [done|unfold np in *; lia..].
Qed.
End Boundary.

(** X7: after the boundary pass every grid point of the outermost layer is
    void and every other grid point holds what the field builder stored;
    the field keeps its length. *)
Theorem void_boundary_spec (g : grid) (solidField : list Z) (x y z : Z) :
  0 <= res g -> len solidField = total g ->
  0 <= x <= res g -> 0 <= y <= res g -> 0 <= z <= res g ->
  len (void_boundary g solidField) = len solidField
  /\ at_ (void_boundary g solidField) (x + y * np g + z * np2 g)
     = if on_boundary g x y z then Some 0
       else at_ solidField (x + y * np g + z * np2 g).
Proof.
  intros Hres Hlen Hx Hy Hz. split; [apply void_boundary_len|].
  unfold on_boundary.
  destruct (x =? 0) eqn:E1; [apply Z.eqb_eq in E1; subst x|apply Z.eqb_neq in E1].
  { apply (void_boundary_sets g solidField Hres Hlen y z); [unfold np; lia..|repeat first [by left | right]]. }
  destruct (x =? res g) eqn:E2; [apply Z.eqb_eq in E2; subst x|apply Z.eqb_neq in E2].
  { apply (void_boundary_sets g solidField Hres Hlen y z); [unfold np; lia..|repeat first [by left | right]]. }
  destruct (y =? 0) eqn:E3; [apply Z.eqb_eq in E3; subst y|apply Z.eqb_neq in E3].
  { apply (void_boundary_sets g solidField Hres Hlen x z); [unfold np; lia..|].
    rewrite Z.mul_0_l. repeat first [by left | right]. }
  destruct (y =? res g) eqn:E4; [apply Z.eqb_eq in E4; subst y|apply Z.eqb_neq in E4].
  { apply (void_boundary_sets g solidField Hres Hlen x z); [unfold np; lia..|repeat first [by left | right]]. }
  destruct (z =? 0) eqn:E5; [apply Z.eqb_eq in E5; subst z|apply Z.eqb_neq in E5].
  { apply (void_boundary_sets g solidField Hres Hlen x y); [unfold np; lia..|].
    rewrite Z.mul_0_l, Z.add_0_r. repeat first [by left | right]. }
  destruct (z =? res g) eqn:E6; [apply Z.eqb_eq in E6; subst z|apply Z.eqb_neq in E6].
  { apply (void_boundary_sets g solidField Hres Hlen x y); [unfold np; lia..|repeat first [by left | right]]. }
  simpl. apply void_boundary_interior; lia.
Qed.

Lemma void_boundary_spec_witness :
  at_ (void_boundary sample_grid (replicate 125 1))
      (0 + 1 * np sample_grid + 2 * np2 sample_grid) = Some 0.
Proof.
  apply (void_boundary_spec sample_grid (replicate 125 1) 0 1 2);
    first [reflexivity | cbn; lia].
Defined.

(** ** The chunked loop of the field builder *)

Lemma mfold_establish {W A B} (Q P : A -> Prop) (f : A -> B -> @M W A) xs x0 a
    (w w' : W) a' :
  x0 ∈ xs -> P a ->
  (forall a x w a' w', x ∈ xs -> P a -> f a x w = Return (a', w') -> P a') ->
  (forall a w a' w', P a -> f a x0 w = Return (a', w') -> Q a') ->
  (forall a x w a' w', x ∈ xs -> P a -> Q a -> f a x w = Return (a', w') -> Q a') ->
  mfold f a xs w = Return (a', w') -> Q a'.
Proof.
  intros Hin Ha HP Hset Hkeep. revert a w Ha.
  induction xs as [|x xs IH]; intros a w Ha; [by apply elem_of_nil in Hin|].
  simpl. intros (a1 & w1 & H1 & H2)%mbind_Return.
  apply elem_of_cons in Hin as [->|Hin].
  - eapply (mfold_invariant (fun b => P b /\ Q b)) in H2 as [_ Hq]; [exact Hq| |].
    + split; [eapply HP|eapply Hset]; try done; by left.
    + intros b y w2 b' w2' Hy [Hb Hq] Hf.
      split; [eapply HP|eapply Hkeep]; try done; by right.
  - eapply IH; [done| | | |exact H2].
    + intros b y w2 b' w2' Hy Hb Hf. eapply HP; [by right|exact Hb|exact Hf].
    + intros b y w2 b' w2' Hy Hb Hq Hf. eapply Hkeep; [by right|exact Hb|exact Hq|exact Hf].
    + eapply HP; [|exact Ha|exact H1]. by left.
Qed.

Section FieldBuilder.
Variable params : GenParams.
Variable g : grid.
Variables mmCoords sinRad cosRad : list number.

Lemma fill_chunk_len f start :
  len (fill_chunk params g mmCoords sinRad cosRad f start) = len f.
Proof.
  unfold fill_chunk. apply (foldl_invariant (fun f' => len f' = len f)); [done|].
  intros. by rewrite len_put.
Qed.

Lemma fill_chunk_keeps f start idx :
  at_ f idx = Some (voxel params g mmCoords sinRad cosRad idx) ->
  at_ (fill_chunk params g mmCoords sinRad cosRad f start) idx
  = Some (voxel params g mmCoords sinRad cosRad idx).
Proof.
  intros H. unfold fill_chunk.
  apply (foldl_invariant (fun f' => at_ f' idx = Some _)); [done|].
  intros f' j _ Hf'. rewrite at_put. case_decide as E; [|done]. by destruct E as [-> _].
Qed.

Lemma fill_chunk_sets f start idx :
  len f = total g -> 0 <= start <= idx -> idx < start + 100000 -> idx < total g ->
  at_ (fill_chunk params g mmCoords sinRad cosRad f start) idx
  = Some (voxel params g mmCoords sinRad cosRad idx).
Proof.
  intros Hf Hs Hc Ht. unfold fill_chunk.
  apply (foldl_establish (fun f' => at_ f' idx = Some _) _ (fun f' => len f' = total g)
           _ idx).
  - apply elem_of_seqZ. lia.
  - done.
  - intros. by rewrite len_put.
  - intros f' Hf'. apply at_put_eq. lia.
  - intros f' j _ _ Hq. rewrite at_put. case_decide as E; [|done]. by destruct E as [-> _].
Qed.
End FieldBuilder.

(** X8: the chunked loop of the field builder leaves no gap: when it
    returns, the field has [total] entries and the entry of every grid
    index is the value computed for that index. *)
Theorem build_field_fills_every_voxel {W} Math_sin Math_cos (onProgress : @ProgressCallback W)
    (params : GenParams) (g : grid) (w w' : W) (solidField : list Z) :
  0 <= total g ->
  build_field Math_sin Math_cos onProgress params g w = Return (solidField, w') ->
  len solidField = total g
  /\ forall idx, 0 <= idx < total g ->
       at_ solidField idx = Some (voxel_of Math_sin Math_cos params g idx).
Proof.
  intros Ht. unfold build_field.
  intros (_ & w1 & _ & Hrun)%mbind_Return.
  fold (mmCoords_of g) in Hrun. fold (radCoords_of params g) in Hrun.
  set (mm := mmCoords_of g) in *.
  set (sn := (fun r => Math_fround (Math_sin r)) <$> radCoords_of params g) in *.
  set (cs := (fun r => Math_fround (Math_cos r)) <$> radCoords_of params g) in *.
  assert (forall f k w0 f' w0',
            (let start := k * 100000 in
             let solidField := fill_chunk params g mm sn cs f start in
             if k mod 3 =? 0
             then mbind (progress onProgress
                           (fadd (of_Z 5)
                              (fmul (fdiv (of_Z start) (of_Z (total g))) (of_Z 25))))
                        (fun _ => mret solidField)
             else mret solidField) w0 = Return (f', w0') ->
            f' = fill_chunk params g mm sn cs f (k * 100000)) as Hstep.
  { intros f k w0 f' w0'. cbv zeta. destruct (k mod 3 =? 0).
    - by intros (_ & w2 & _ & [-> _]%mret_Return)%mbind_Return.
    - by intros [-> _]%mret_Return. }
  split.
  - revert Hrun. apply (mfold_invariant (fun f => len f = total g)).
    + by apply len_replicate.
    + intros f k w0 f' w0' _ Hf ->%Hstep. by rewrite fill_chunk_len.
  - intros idx Hidx. unfold voxel_of. fold mm sn cs. revert Hrun.
    apply (mfold_establish (fun f => at_ f idx = Some _) (fun f => len f = total g)
             _ _ (idx / 100000)).
    + apply elem_of_seqZ. split; [apply Z.div_pos; lia|].
      rewrite Z.add_0_l. apply Z.div_lt_upper_bound; [lia|].
      pose proof (Z.div_mod (total g + 100000 - 1) 100000 ltac:(lia)).
      pose proof (Z.mod_pos_bound (total g + 100000 - 1) 100000 ltac:(lia)). lia.
    + by apply len_replicate.
    + intros f k w0 f' w0' _ Hf ->%Hstep. by rewrite fill_chunk_len.
    + intros f w0 f' w0' Hf ->%Hstep.
      pose proof (Z.div_mod idx 100000 ltac:(lia)).
      pose proof (Z.mod_pos_bound idx 100000 ltac:(lia)).
      apply fill_chunk_sets; [done|lia..].
    + intros f k w0 f' w0' _ Hf Hq ->%Hstep. by apply fill_chunk_keeps.
Qed.

Lemma build_field_fills_every_voxel_witness :
  exists solidField w',
    build_field sample_sin sample_cos log_progress (app_params (of_Z 4)) sample_grid []
    = Return (solidField, w')
    /\ len solidField = total sample_grid.
Proof.
  assert (exists r,
             build_field sample_sin sample_cos log_progress (app_params (of_Z 4))
               sample_grid [] = Return r) as [[f w'] E] by (eexists; vm_compute; reflexivity).
  exists f, w'. split; [exact E|].
  apply (build_field_fills_every_voxel sample_sin sample_cos log_progress
           (app_params (of_Z 4)) sample_grid [] w' f);
    [change (total sample_grid) with 125; lia|exact E].
Defined.

(** ** Vertex normals *)

Lemma add_at3_len a i k d : len (add_at3 a i k d) = len a.
Proof. unfold add_at3. destruct i; [apply len_put|done]. Qed.

Lemma accumulate_face_len pos idx normals f :
  len (accumulate_face pos idx normals f) = len normals.
Proof.
  unfold accumulate_face. destruct (face_cross _ _ _ _) as [[nx ny] nz].
  by rewrite !add_at3_len.
Qed.

Lemma normalize_vertex_len normals v : len (normalize_vertex normals v) = len normals.
Proof. unfold normalize_vertex. case_match; [by rewrite !len_put|done]. Qed.

Lemma computeVertexNormals_len pos idx :
  len pos mod 3 = 0 -> len (computeVertexNormals pos idx) = len pos.
Proof.
  intros Hm. unfold computeVertexNormals.
  assert (forall l vs, len (foldl normalize_vertex l vs) = len l) as H1.
  { intros l vs. revert l. induction vs as [|v vs IH]; intros l; simpl; [done|].
    by rewrite IH, normalize_vertex_len. }
  assert (forall l fs, len (foldl (accumulate_face pos idx) l fs) = len l) as H2.
  { intros l fs. revert l. induction fs as [|f fs IH]; intros l; simpl; [done|].
    by rewrite IH, accumulate_face_len. }
  rewrite H1, H2. pose proof (len_nonneg pos).
  rewrite len_replicate by (apply Z.mul_nonneg_nonneg; [apply Z.div_pos|]; lia).
  pose proof (Z.div_mod (len pos) 3 ltac:(lia)). lia.
Qed.

Lemma add_at3_other a i k d j :
  (forall v, i = Some v -> j <> v * 3 + k) -> num_at (add_at3 a i k d) j = num_at a j.
Proof.
  unfold add_at3, num_at. destruct i as [v|]; [|done]. intros H.
  rewrite at_put_ne; [done|]. intros E. by apply (H v).
Qed.

Lemma accumulate_face_other pos idx normals f v k :
  0 <= k < 3 ->
  at_ idx (f * 3) <> Some v -> at_ idx (f * 3 + 1) <> Some v ->
  at_ idx (f * 3 + 2) <> Some v ->
  num_at (accumulate_face pos idx normals f) (v * 3 + k) = num_at normals (v * 3 + k).
Proof.
  intros Hk H0 H1 H2. unfold accumulate_face.
  destruct (face_cross _ _ _ _) as [[nx ny] nz].
  rewrite !add_at3_other; [done|..]; intros u Hu E;
    assert (u = v) by lia; congruence.
Qed.

Lemma normalize_vertex_other normals u v k :
  0 <= k < 3 -> u <> v ->
  num_at (normalize_vertex normals u) (v * 3 + k) = num_at normals (v * 3 + k).
Proof.
  intros Hk Hne. unfold normalize_vertex, num_at. case_match; [|done].
  rewrite !at_put_ne; [done|lia..].
Qed.

Lemma normalize_vertex_zero normals v k :
  0 <= k < 3 ->
  num_at normals (v * 3) = zero -> num_at normals (v * 3 + 1) = zero ->
  num_at normals (v * 3 + 2) = zero ->
  num_at (normalize_vertex normals v) (v * 3 + k) = num_at normals (v * 3 + k).
Proof.
  intros Hk H0 H1 H2. unfold normalize_vertex. by rewrite H0, H1, H2.
Qed.

(** X9: the normals array has one entry per coordinate of the positions,
    whatever the index array holds, and a vertex that no face names gets
    the normal (0, 0, 0). *)
Theorem computeVertexNormals_unreferenced (pos : list number) (idx : list Z) :
  len pos mod 3 = 0 ->
  len (computeVertexNormals pos idx) = len pos
  /\ forall v k, 0 <= v < len pos / 3 -> 0 <= k < 3 -> v ∉ idx ->
       at_ (computeVertexNormals pos idx) (v * 3 + k) = Some zero.
Proof.
  intros Hm. split; [by apply computeVertexNormals_len|]. intros v k Hv Hk Hnot.
  pose proof (computeVertexNormals_len pos idx Hm) as Hlen.
  pose proof (Z.div_mod (len pos) 3 ltac:(lia)) as Hd.
  destruct (at_is_Some (computeVertexNormals pos idx) (v * 3 + k) ltac:(lia)) as [x Hx].
  rewrite Hx. f_equal.
  assert (num_at (computeVertexNormals pos idx) (v * 3 + k) = zero) as Hz;
    [|by unfold num_at in Hz; rewrite Hx in Hz].
  clear x Hx. unfold computeVertexNormals.
  set (n0 := replicate (Z.to_nat (len pos / 3 * 3)) zero).
  set (n1 := foldl (accumulate_face pos idx) n0 (thirds (len idx))).
  assert (forall j, 0 <= j < 3 -> num_at n1 (v * 3 + j) = zero) as Hn1.
  { intros j Hj. unfold n1.
    apply (foldl_invariant (fun n => num_at n (v * 3 + j) = zero)).
    - unfold num_at, n0. rewrite at_replicate; [done|]. lia.
    - intros n f _ Hn. rewrite accumulate_face_other; [done|done|..];
        intros E%at_elem_of; done. }
  assert (forall vs n, (forall j, 0 <= j < 3 -> num_at n (v * 3 + j) = zero) ->
            forall j, 0 <= j < 3 -> num_at (foldl normalize_vertex n vs) (v * 3 + j) = zero)
    as Hgo.
  { intros vs. induction vs as [|u vs IH]; intros n Hn j Hj; simpl; [by apply Hn|].
    apply IH; [|done]. intros i Hi.
    destruct (decide (u = v)) as [->|Hne].
    - rewrite normalize_vertex_zero; [by apply Hn|done|..].
      + specialize (Hn 0 ltac:(lia)). by rewrite Z.add_0_r in Hn.
      + by apply Hn.
      + by apply Hn.
    - rewrite normalize_vertex_other; [by apply Hn|done..]. }
  by apply Hgo.
Qed.

Lemma computeVertexNormals_unreferenced_witness :
  at_ (computeVertexNormals (vertices flat_triangle) [0; 1; 1]) (2 * 3 + 0) = Some zero.
Proof.
  apply (computeVertexNormals_unreferenced (vertices flat_triangle) [0; 1; 1]).
  - reflexivity.
  - change (len (vertices flat_triangle) / 3) with 3. lia.
  - lia.
  - intros H. repeat (apply elem_of_cons in H as [H|H]; [discriminate H|]).
    by apply elem_of_nil in H.
Defined.

(** ** When smoothing raises *)

Lemma ofold_outcome {A B} (f : A -> B -> outcome A) (e : exn) xs a :
  (forall a x, x ∈ xs -> (exists a', f a x = Return a') \/ f a x = Throw e) ->
  (exists a', ofold f a xs = Return a') \/ ofold f a xs = Throw e.
Proof.
  revert a. induction xs as [|x xs IH]; intros a Hf; simpl; [eauto|].
  destruct (Hf a x) as [[a1 ->]| ->]; [by left| |by right].
  cbn [obind]. apply IH. intros a2 y Hy. apply Hf. by right.
Qed.

Lemma ofold_each_returns_with {A B} (P : A -> Prop) (f : A -> B -> outcome A) xs a a' x :
  P a -> (forall a x a', x ∈ xs -> P a -> f a x = Return a' -> P a') ->
  ofold f a xs = Return a' -> x ∈ xs -> exists a1 a2, P a1 /\ f a1 x = Return a2.
Proof.
  revert a. induction xs as [|y xs IH]; intros a Ha HP; simpl;
    [by intros _ ?%elem_of_nil|].
  intros (a1 & H1 & H2)%obind_Return [->|Hx]%elem_of_cons; [eauto|].
  eapply IH; [|intros ? z ? Hz; apply HP; by right|exact H2|exact Hx].
  eapply HP; [by left|exact Ha|exact H1].
Qed.

Lemma push_adj_Return adjTemp a b c adjTemp' :
  push_adj adjTemp a b c = Return adjTemp' ->
  0 <= a < len adjTemp /\ len adjTemp' = len adjTemp.
Proof.
  unfold push_adj. destruct (at_ adjTemp a) as [row|] eqn:E; [|done].
  intros [= <-]. split; [by eapply at_Some_lt|apply len_put].
Qed.

Lemma push_adj_outcome adjTemp a b c :
  (exists t, push_adj adjTemp a b c = Return t) \/ push_adj adjTemp a b c = Throw TypeError.
Proof. unfold push_adj. destruct (at_ adjTemp a); eauto. Qed.

Lemma adj_face_Return indices adjTemp f adjTemp' :
  adj_face indices adjTemp f = Return adjTemp' ->
  len adjTemp' = len adjTemp
  /\ forall k, 0 <= k < 3 ->
       exists v, at_ indices (f * 3 + k) = Some v /\ 0 <= v < len adjTemp.
Proof.
  unfold adj_face.
  destruct (at_ indices (f * 3)) as [a|] eqn:Ea; [|done].
  destruct (at_ indices (f * 3 + 1)) as [b|] eqn:Eb; [|done].
  destruct (at_ indices (f * 3 + 2)) as [c|] eqn:Ec; [|done].
  intros (t1 & [Ha L1]%push_adj_Return
          & (t2 & [Hb L2]%push_adj_Return & [Hc L3]%push_adj_Return)%obind_Return
         )%obind_Return.
  split; [lia|]. intros k Hk.
  assert (k = 0 \/ k = 1 \/ k = 2) as [->|[->| ->]] by lia.
  - rewrite Z.add_0_r. eauto.
  - exists b. split; [done|lia].
  - exists c. split; [done|lia].
Qed.

Lemma adj_face_outcome indices adjTemp f :
  (exists t, adj_face indices adjTemp f = Return t)
  \/ adj_face indices adjTemp f = Throw TypeError.
Proof.
  unfold adj_face.
  destruct (at_ indices (f * 3)) as [a|]; [|by right].
  destruct (at_ indices (f * 3 + 1)) as [b|]; [|by right].
  destruct (at_ indices (f * 3 + 2)) as [c|]; [|by right].
  destruct (push_adj_outcome adjTemp a b c) as [[t1 ->]| ->]; [|by right].
  cbn [obind].
  destruct (push_adj_outcome t1 b a c) as [[t2 ->]| ->]; [|by right].
  cbn [obind]. apply push_adj_outcome.
Qed.

Lemma build_adjacency_Return numVerts indices adj :
  0 <= numVerts ->
  build_adjacency numVerts indices = Return adj ->
  len indices mod 3 = 0 /\ Forall (fun i => 0 <= i < numVerts) indices.
Proof.
  intros Hn. unfold build_adjacency.
  intros (adjTemp & Hfold & _)%obind_Return.
  assert (forall f k, f ∈ thirds (len indices) -> 0 <= k < 3 ->
            exists v, at_ indices (f * 3 + k) = Some v /\ 0 <= v < numVerts) as Hall.
  { intros f k Hf Hk.
    destruct (ofold_each_returns_with (fun t => len t = numVerts) (adj_face indices)
                (thirds (len indices)) (replicate (Z.to_nat numVerts) []) adjTemp f)
      as (t1 & t2 & Ht1 & [_ Hc]%adj_face_Return); [by apply len_replicate| |done..|].
    - intros t x t' _ Ht [E _]%adj_face_Return. congruence.
    - rewrite <- Ht1. by apply Hc. }
  pose proof (len_nonneg indices) as Hl.
  pose proof (Z.div_mod (len indices + 2) 3 ltac:(lia)) as Hd.
  pose proof (Z.mod_pos_bound (len indices + 2) 3 ltac:(lia)) as Hb.
  assert (len indices mod 3 = 0) as Hm.
  { destruct (decide (len indices = 0)) as [->|Hne]; [done|].
    destruct (Hall ((len indices + 2) / 3 - 1) 2) as (v & Hv%at_Some_lt & _); [|lia|].
    - unfold thirds. apply elem_of_seqZ. lia.
    - apply Z.mod_divide; [lia|]. exists ((len indices + 2) / 3). lia. }
  split; [done|]. apply Forall_forall. intros i Hi.
  apply list_elem_of_lookup in Hi as [j Hj].
  pose proof (lookup_lt_Some _ _ _ Hj) as Hlt.
  pose proof (Z.div_mod (Z.of_nat j) 3 ltac:(lia)) as Hdj.
  pose proof (Z.mod_pos_bound (Z.of_nat j) 3 ltac:(lia)) as Hbj.
  destruct (Hall (Z.of_nat j / 3) (Z.of_nat j mod 3)) as (v & Hv & Hr); [|lia|].
  - unfold thirds. apply elem_of_seqZ. split; [apply Z.div_pos; lia|].
    rewrite Z.add_0_l. apply Z.div_lt_upper_bound; [lia|]. unfold len in *. lia.
  - replace (Z.of_nat j / 3 * 3 + Z.of_nat j mod 3) with (Z.of_nat j) in Hv by lia.
    unfold at_ in Hv. rewrite decide_True in Hv by lia. rewrite Nat2Z.id in Hv.
    congruence.
Qed.

(** X10: for a positive number of iterations and a non-empty positions
    array of whole vertices, [taubinSmooth] raises a [TypeError] exactly
    when the index array is not one of whole faces with every index below
    the number of vertices; it raises nothing else. *)
Theorem taubinSmooth_raises_on_bad_indices (positions : list number) (indices : list Z)
    (iterations : number) :
  fle iterations zero = false -> len positions <> 0 -> len positions mod 3 = 0 ->
  (taubinSmooth positions indices iterations = Throw TypeError
   <-> ~ well_formed positions indices)
  /\ forall e, taubinSmooth positions indices iterations = Throw e -> e = TypeError.
Proof.
  intros Hit Hne Hm. unfold taubinSmooth. rewrite Hit.
  replace (len positions =? 0) with false by (symmetry; by apply Z.eqb_neq).
  rewrite Hm. cbn [orb negb Z.eqb].
  pose proof (len_nonneg positions) as Hl.
  assert (0 <= len positions / 3) as Hn by (apply Z.div_pos; lia).
  destruct (build_adjacency (len positions / 3) indices) as [adj|e|] eqn:Hadj; cbn [obind].
  - apply build_adjacency_Return in Hadj as [Hi Hall]; [|done].
    split; [|by destruct (loop_count _)].
    split; [by destruct (loop_count _)|]. intros Hnot. destruct Hnot. by split.
  - assert (e = TypeError) as ->.
    { revert Hadj. unfold build_adjacency.
      destruct (ofold_outcome (adj_face indices) TypeError (thirds (len indices))
                  (replicate (Z.to_nat (len positions / 3)) []))
        as [[t ->]| ->]; [intros; apply adj_face_outcome|done|by intros [= <-]]. }
    split; [|by intros e [= <-]]. split; [|done]. intros _ Hwf.
    destruct (build_adjacency_ok positions indices Hwf) as (adj & Hadj' & _).
    congruence.
  - exfalso. revert Hadj. unfold build_adjacency.
    destruct (ofold_outcome (adj_face indices) TypeError (thirds (len indices))
                (replicate (Z.to_nat (len positions / 3)) []))
      as [[t ->]| ->]; [intros; apply adj_face_outcome|done|done].
Qed.

Lemma taubinSmooth_raises_on_bad_indices_witness :
  taubinSmooth (vertices flat_triangle) [0; 1; 3] one = Throw TypeError
  <-> ~ well_formed (vertices flat_triangle) [0; 1; 3].
Proof.
  apply (taubinSmooth_raises_on_bad_indices (vertices flat_triangle) [0; 1; 3] one).
  - reflexivity.
  - change (len (vertices flat_triangle)) with 9. lia.
  - reflexivity.
Defined.

(** ** The one-ring adjacency *)

Lemma ofold_track {A B C} (R : A -> C -> Prop) (f : A -> B -> outcome A) (h : C -> B -> C)
    xs a c a' :
  R a c ->
  (forall a c x a', x ∈ xs -> R a c -> f a x = Return a' -> R a' (h c x)) ->
  ofold f a xs = Return a' -> R a' (foldl h c xs).
Proof.
  revert a c. induction xs as [|x xs IH]; intros a c Hac Hf; simpl.
  - by intros [= <-].
  - intros (a1 & H1 & H2)%obind_Return.
    eapply IH; [|intros ? ? y ? Hy; apply Hf; by right|exact H2].
    eapply Hf; [left|exact Hac|exact H1].
Qed.

Lemma elem_of_foldl_cons {A} (xs c : list A) x :
  x ∈ foldl (fun fs f => f :: fs) c xs <-> x ∈ c \/ x ∈ xs.
Proof.
  revert c. induction xs as [|y xs IH]; intros c; simpl.
  - split; [by left|]. intros [?|?%elem_of_nil]; done.
  - rewrite IH, !elem_of_cons. tauto.
Qed.

Lemma unique_from_spec seen xs :
  NoDup (unique_from seen xs)
  /\ forall x, x ∈ unique_from seen xs <-> x ∈ xs /\ x ∉ seen.
Proof.
  revert seen. induction xs as [|y xs IH]; intros seen; simpl.
  - split; [constructor|]. intros x. split; [by intros ?%elem_of_nil|].
    by intros [?%elem_of_nil _].
  - case_decide as Hy.
    + destruct (IH seen) as [Hnd Hin]. split; [done|]. intros x.
      rewrite Hin, elem_of_cons. split; [tauto|].
      intros [[E|?] ?]; [by subst|tauto].
    + destruct (IH (y :: seen)) as [Hnd Hin]. split.
      * constructor; [|done]. rewrite Hin, elem_of_cons. tauto.
      * intros x. rewrite !elem_of_cons, Hin, elem_of_cons.
        destruct (decide (x = y)) as [E|E]; [subst; tauto|tauto].
Qed.

Lemma push_adj_rows adjTemp a b c adjTemp' v row' :
  push_adj adjTemp a b c = Return adjTemp' -> at_ adjTemp' v = Some row' ->
  exists row, at_ adjTemp v = Some row
              /\ forall n, n ∈ row' <-> n ∈ row \/ (v = a /\ (n = b \/ n = c)).
Proof.
  unfold push_adj. destruct (at_ adjTemp a) as [row|] eqn:E; [|done].
  intros [= <-]. rewrite at_put. case_decide as Hd.
  - destruct Hd as [<- _]. intros [= <-]. exists row. split; [done|].
    intros n. rewrite elem_of_app, !elem_of_cons, elem_of_nil. tauto.
  - intros Hv. exists row'. split; [done|]. intros n. split; [by left|].
    intros [?|[-> _]]; [done|].
    destruct Hd. split; [done|]. by eapply at_Some_lt.
Qed.

Lemma adj_face_rows indices adjTemp f adjTemp' v row' :
  adj_face indices adjTemp f = Return adjTemp' -> at_ adjTemp' v = Some row' ->
  exists row, at_ adjTemp v = Some row
              /\ forall n, n ∈ row' <-> n ∈ row \/ share_a_face indices [f] v n.
Proof.
  unfold adj_face.
  destruct (at_ indices (f * 3)) as [a|] eqn:Ea; [|done].
  destruct (at_ indices (f * 3 + 1)) as [b|] eqn:Eb; [|done].
  destruct (at_ indices (f * 3 + 2)) as [c|] eqn:Ec; [|done].
  intros (t1 & H1 & (t2 & H2 & H3)%obind_Return)%obind_Return Hv.
  destruct (push_adj_rows _ _ _ _ _ _ _ H3 Hv) as (r2 & Hr2 & M3).
  destruct (push_adj_rows _ _ _ _ _ _ _ H2 Hr2) as (r1 & Hr1 & M2).
  destruct (push_adj_rows _ _ _ _ _ _ _ H1 Hr1) as (r0 & Hr0 & M1).
  exists r0. split; [done|]. intros n. rewrite M3, M2, M1.
  assert (share_a_face indices [f] v n
          <-> (v = a /\ (n = b \/ n = c)) \/ (v = b /\ (n = a \/ n = c))
              \/ (v = c /\ (n = a \/ n = b))) as ->; [|tauto].
  unfold share_a_face. split.
  - intros (f' & k & k' & ->%list_elem_of_singleton & Hk & Hk' & Hne & Hkv & Hkn).
    assert (k = 0 \/ k = 1 \/ k = 2) as [->|[->| ->]] by lia;
      assert (k' = 0 \/ k' = 1 \/ k' = 2) as [->|[->| ->]] by lia;
      try done; rewrite ?Z.add_0_r in *; simplify_eq; tauto.
  - assert (f ∈ [f]) as Hin by (by left).
    intros [[-> [->| ->]]|[[-> [->| ->]]|[-> [->| ->]]]].
    + exists f, 0, 1. rewrite Z.add_0_r. repeat split; try done; lia.
    + exists f, 0, 2. rewrite Z.add_0_r. repeat split; try done; lia.
    + exists f, 1, 0. rewrite Z.add_0_r. repeat split; try done; lia.
    + exists f, 1, 2. repeat split; try done; lia.
    + exists f, 2, 0. rewrite Z.add_0_r. repeat split; try done; lia.
    + exists f, 2, 1. repeat split; try done; lia.
Qed.

Lemma share_a_face_cons indices f fs v n :
  share_a_face indices (f :: fs) v n
  <-> share_a_face indices fs v n \/ share_a_face indices [f] v n.
Proof.
  unfold share_a_face. split.
  - intros (f' & k & k' & [->|Hin]%elem_of_cons & H); [right|left].
    + exists f, k, k'. split; [by left|done].
    + exists f', k, k'. by split.
  - intros [(f' & k & k' & Hin & H)|(f' & k & k' & ->%list_elem_of_singleton & H)].
    + exists f', k, k'. split; [by right|done].
    + exists f, k, k'. split; [by left|done].
Qed.

(** X11: the neighbour rows that smoothing averages over.  When the
    adjacency is built, the row of a vertex holds, once each, exactly the
    vertices that some face names together with it at two different
    corners; so the rows are symmetric. *)
Theorem build_adjacency_rows (numVerts : Z) (indices : list Z) (adj : list (list Z))
    (v : Z) (row : list Z) :
  build_adjacency numVerts indices = Return adj -> at_ adj v = Some row ->
  NoDup row
  /\ (forall n, n ∈ row <-> share_a_face indices (thirds (len indices)) v n)
  /\ (forall n, n ∈ row -> exists row', at_ adj n = Some row' /\ v ∈ row').
Proof.
  unfold build_adjacency. intros (adjTemp & Hfold & [= <-])%obind_Return.
  pose proof (ofold_track
                (fun t fs => len t = len (replicate (Z.to_nat numVerts) ([] : list Z))
                             /\ forall v row, at_ t v = Some row ->
                                  forall n, n ∈ row <-> share_a_face indices fs v n)
                (adj_face indices) (fun fs f => f :: fs) (thirds (len indices))
                (replicate (Z.to_nat numVerts) []) [] adjTemp) as Htr.
  destruct Htr as [Hlen Hrows]; [| |exact Hfold|].
  { split; [done|]. intros u r Hu%at_elem_of n.
    apply elem_of_replicate in Hu as [-> _]. split; [by intros ?%elem_of_nil|].
    by intros (f & k & k' & ?%elem_of_nil & _). }
  { intros t fs f t' _ [Hl Hr] Hf. split.
    - apply adj_face_Return in Hf as [-> _]. done.
    - intros u r' Hu n.
      destruct (adj_face_rows _ _ _ _ _ _ Hf Hu) as (r & Hr0 & Hm).
      rewrite Hm, (Hr u r Hr0). symmetry. apply share_a_face_cons. }
  assert (forall u r n, at_ adjTemp u = Some r ->
            n ∈ r <-> share_a_face indices (thirds (len indices)) u n) as Hspec.
  { intros u r n Hu. rewrite (Hrows u r Hu). unfold share_a_face.
    split; intros (f & k & k' & Hin & H); exists f, k, k'; (split; [|done]).
    - apply elem_of_foldl_cons in Hin as [?%elem_of_nil|?]; done.
    - apply elem_of_foldl_cons. by right. }
  rewrite at_fmap. destruct (at_ adjTemp v) as [r|] eqn:Hv; [|done].
  intros [= <-]. destruct (unique_from_spec [] r) as [Hnd Hin].
  assert (forall n, n ∈ unique r <-> n ∈ r) as Hu.
  { intros n. unfold unique. rewrite Hin. split; [tauto|].
    intros ?. split; [done|]. by intros ?%elem_of_nil. }
  split; [exact Hnd|]. split.
  - intros n. rewrite Hu. by apply Hspec.
  - intros n Hn%Hu. apply (Hspec v r n Hv) in Hn as (f & k & k' & Hf & Hk & Hk' & Hne & Hkv & Hkn).
    assert (0 <= n < len adjTemp) as Hnr.
    { destruct (ofold_each_returns_with (fun t => len t = len adjTemp) (adj_face indices)
                  (thirds (len indices)) (replicate (Z.to_nat numVerts) []) adjTemp f)
        as (t1 & t2 & Ht1 & [_ Hc]%adj_face_Return); [done| |done..|].
      - intros t x t' _ Ht [E _]%adj_face_Return. congruence.
      - destruct (Hc k' Hk') as (n' & Hn' & Hr). rewrite Hkn in Hn'.
        injection Hn' as <-. lia. }
    destruct (at_is_Some adjTemp n Hnr) as [rn Hrn].
    exists (unique rn). rewrite at_fmap, Hrn. split; [done|].
    destruct (unique_from_spec [] rn) as [_ Hin']. unfold unique. rewrite Hin'.
    split; [|by intros ?%elem_of_nil].
    apply (Hspec n rn v Hrn). exists f, k', k. repeat split; try done; lia.
Qed.

Lemma build_adjacency_rows_witness : NoDup [1; 2].
Proof.
  exact (proj1 (build_adjacency_rows 3 [0; 1; 2] [[1; 2]; [0; 2]; [0; 1]] 0 [1; 2]
                  eq_refl eq_refl)).
Defined.

(** ** The component filter on a well-formed mesh *)

Lemma unvisited_le visited : (unvisited visited <= length visited)%nat.
Proof. unfold unvisited. apply length_filter. Qed.

Section ExtractionReturns.
Variable positions : list number.
Variable indices : list Z.
Hypothesis Hwf : well_formed positions indices.

Lemma push_face_returns vertFaces f k :
  rows_ok (len positions / 3) indices vertFaces -> face_ok indices f -> 0 <= k < 3 ->
  exists vertFaces',
    push_face vertFaces (at_ indices (f * 3 + k)) f = Return vertFaces'
    /\ rows_ok (len positions / 3) indices vertFaces'.
Proof.
  intros Hr Hf Hk.
  destruct (corner_valid positions indices Hwf f k Hf Hk) as (v & Hv & Hvr).
  rewrite Hv. unfold push_face.
  destruct (at_is_Some vertFaces v) as [row Hrow]; [destruct Hr as [-> _]; lia|].
  rewrite Hrow. eexists. split; [reflexivity|].
  eapply (push_face_rows_ok positions indices vertFaces (Some v)); [done..|].
  unfold push_face. by rewrite Hrow.
Qed.

Lemma vert_face_returns vertFaces f :
  rows_ok (len positions / 3) indices vertFaces -> face_ok indices f ->
  exists vertFaces',
    vert_face indices vertFaces f = Return vertFaces'
    /\ rows_ok (len positions / 3) indices vertFaces'.
Proof.
  intros Hr Hf. unfold vert_face.
  destruct (push_face_returns vertFaces f 0 Hr Hf ltac:(lia)) as (v1 & H1 & R1).
  rewrite Z.add_0_r in H1. rewrite H1. cbn [obind].
  destruct (push_face_returns v1 f 1 R1 Hf ltac:(lia)) as (v2 & -> & R2).
  cbn [obind]. by apply push_face_returns.
Qed.

Lemma visit_corners_returns vertFaces f st :
  rows_ok (len positions / 3) indices vertFaces -> face_ok indices f ->
  exists st', visit_corners indices vertFaces f st = Return st'.
Proof.
  intros [Hl _] Hf. unfold visit_corners.
  destruct (ofold_succeeds (fun _ => True)
              (fun st k =>
                 match at_ indices (f * 3 + k) with
                 | Some v => match at_ vertFaces v with
                             | Some nfs => Return (visit_faces nfs st)
                             | None => Throw TypeError
                             end
                 | None => Throw TypeError
                 end) [0; 1; 2] st) as (st' & H & _); [done| |eauto].
  intros st0 k Hk _.
  assert (0 <= k < 3) as Hkr.
  { repeat (apply elem_of_cons in Hk as [->|Hk]; [lia|]). by apply elem_of_nil in Hk. }
  destruct (corner_valid positions indices Hwf f k Hf Hkr) as (v & -> & Hvr).
  destruct (at_is_Some vertFaces v) as [nfs ->]; [lia|]. eauto.
Qed.

Lemma flood_returns vertFaces (bound fuel : nat) visited stack comp :
  rows_ok (len positions / 3) indices vertFaces ->
  flood_inv indices (length stack + unvisited visited) (visited, stack) ->
  (length stack + unvisited visited <= fuel)%nat ->
  (length comp + length stack + unvisited visited <= bound)%nat ->
  exists visited' comp',
    flood fuel indices vertFaces visited stack comp = Return (visited', comp')
    /\ len visited' = len indices / 3
    /\ (length comp' <= bound)%nat.
Proof.
  intros Hr. revert visited stack comp.
  induction fuel as [|fuel IH]; intros visited stack comp Hinv Hfuel Hb;
    destruct stack as [|f stack]; cbn [flood].
  - exists visited, comp. split; [done|]. split; [apply Hinv|lia].
  - simpl in Hfuel. lia.
  - exists visited, comp. split; [done|]. split; [apply Hinv|lia].
  - destruct Hinv as (Hl & [Hf Hs]%Forall_cons & _). cbn [fst snd length] in *.
    destruct (visit_corners_returns vertFaces f (visited, stack) Hr Hf) as [[vis stk] Hv].
    rewrite Hv. cbn [obind fst snd].
    destruct (visit_corners_inv indices vertFaces (proj2 Hr)
                (length stack + unvisited visited) f (visited, stack)) as [_ Hret];
      [by split|].
    destruct (Hret _ Hv) as (Hl' & Hs' & Hm'). cbn [fst snd] in *.
    apply IH.
    + split; [done|]. split; [done|reflexivity].
    + lia.
    + rewrite length_app. simpl. lia.
Qed.

Lemma flood_seed_returns vertFaces st seed :
  rows_ok (len positions / 3) indices vertFaces -> face_ok indices seed ->
  len st.1 = len indices / 3 -> len st.2 <= len indices / 3 ->
  exists st', flood_seed indices vertFaces st seed = Return st'
              /\ len st'.1 = len indices / 3 /\ len st'.2 <= len indices / 3.
Proof.
  intros Hr Hseed Hl Hb. destruct st as [visited bestComp]. cbn [fst snd] in *.
  unfold flood_seed.
  pose proof (face_ok_lt indices seed Hseed) as Hlt.
  destruct (at_is_Some visited seed ltac:(lia)) as [b Hbv]. rewrite Hbv.
  assert (b = 0 \/ b <> 0) as [-> |Hne] by lia.
  - pose proof (unvisited_put visited seed Hbv) as Hu.
    pose proof (unvisited_le visited) as Hle.
    destruct (flood_returns vertFaces (Z.to_nat (len indices / 3))
                (S (unvisited (put visited seed 1))) (put visited seed 1) [seed] [] Hr)
      as (vis & comp & -> & Hvl & Hcl).
    + split; [cbn [fst]; by rewrite len_put|]. split; [by apply Forall_singleton|done].
    + simpl. lia.
    + simpl. unfold len in *. lia.
    + cbn [obind fst snd]. eexists. split; [done|]. cbn [fst snd].
      split; [done|]. destruct (len bestComp <? len comp); [|done]. unfold len in *. lia.
  - exists (visited, bestComp). split; [by destruct b|done].
Qed.

Lemma remap_faces_len comp st :
  Forall (face_ok indices) comp -> remap_ok (len positions / 3) st ->
  len (foldl (remap_face indices) st comp).2 = len st.2 + 3 * len comp.
Proof.
  intros Hc. revert st. induction Hc as [|f comp Hf Hc IH]; intros st Hst.
  - simpl. change (len []) with 0. lia.
  - cbn [foldl]. destruct (remap_face_ok positions indices Hwf st f Hf Hst) as [H1 L1].
    rewrite IH by done. rewrite L1. unfold len. rewrite length_cons. lia.
Qed.
Lemma flood_seeds_return vertFaces :
  rows_ok (len positions / 3) indices vertFaces ->
  exists st,
    ofold (flood_seed indices vertFaces) (replicate (Z.to_nat (len indices / 3)) 0, [])
          (thirds (len indices)) = Return st
    /\ len st.1 = len indices / 3 /\ len st.2 <= len indices / 3
    /\ Forall (face_ok indices) st.2.
Proof.
  intros Hrows. pose proof Hwf as (Hp & Hi & Hall).
  pose proof (len_nonneg indices).
  assert (0 <= len indices / 3) by (apply Z.div_pos; lia).
  apply (ofold_succeeds
           (fun st : list Z * list Z =>
              len st.1 = len indices / 3 /\ len st.2 <= len indices / 3
              /\ Forall (face_ok indices) st.2)).
  - cbn [fst snd]. split; [by apply len_replicate|]. split; [done|done].
  - intros st seed Hseed (Hl & Hb & Hok).
    pose proof (thirds_face_ok indices seed Hi Hseed) as Hs.
    destruct (flood_seed_returns vertFaces st seed Hrows Hs Hl Hb)
      as (st' & Hst' & Hl' & Hb').
    exists st'. split; [done|]. split; [done|]. split; [done|].
    by eapply (flood_seed_ok positions indices).
Qed.
End ExtractionReturns.

Lemma extract_returns (positions : list number) (indices : list Z) :
  well_formed positions indices ->
  exists positions' indices',
    extractLargestComponent positions indices = Return (positions', indices')
    /\ len indices' <= len indices.
Proof.
  intros Hwf. pose proof Hwf as (Hp & Hi & Hall).
  unfold extractLargestComponent.
  destruct (len indices <? 300); [by exists positions, indices|].
  rewrite Hp. cbn [Z.eqb negb].
  pose proof (len_nonneg positions). pose proof (len_nonneg indices).
  assert (0 <= len positions / 3) by (apply Z.div_pos; lia).
  assert (0 <= len indices / 3) by (apply Z.div_pos; lia).
  pose proof (Z.div_mod (len indices) 3 ltac:(lia)) as Hd.
  destruct (ofold_succeeds (rows_ok (len positions / 3) indices) (vert_face indices)
              (thirds (len indices)) (replicate (Z.to_nat (len positions / 3)) []))
    as (vertFaces & -> & Hrows).
  { split; [by apply len_replicate|]. by apply Forall_replicate. }
  { intros vf f Hf Hvf. apply vert_face_returns; [done..|]. by apply thirds_face_ok. }
  cbn [obind].
  destruct (flood_seeds_return positions indices Hwf vertFaces Hrows)
    as ([visited bestComp] & -> & (Hvl & Hbl & Hbest)).
  cbn [obind snd] in *.
  destruct (len bestComp * 3 =? len indices); [by exists positions, indices|].
  destruct (foldl (remap_face indices) _ bestComp) as [[vertMap cnt] newIdx] eqn:Hre.
  eexists _, _. split; [reflexivity|].
  unfold Uint32Array_from. rewrite len_fmap.
  pose proof (remap_faces_len positions indices Hwf bestComp
                (replicate (Z.to_nat (len positions / 3)) (-1), 0, []) Hbest) as Hlen.
  rewrite Hre in Hlen. cbn [snd] in Hlen. rewrite Hlen.
  - change (len []) with 0. lia.
  - unfold remap_ok. repeat split; [by apply len_replicate|done| |done].
    by apply Forall_replicate.
Qed.

(** X12: on a well-formed mesh the component filter returns: the flood
    fill ends and nothing raises; the mesh returned is well-formed and has
    at most as many faces as the mesh given. *)
Theorem extractLargestComponent_returns (positions : list number) (indices : list Z) :
  well_formed positions indices ->
  exists positions' indices',
    extractLargestComponent positions indices = Return (positions', indices')
    /\ well_formed positions' indices'
    /\ len indices' / 3 <= len indices / 3.
Proof.
  intros Hwf. destruct (extract_returns positions indices Hwf) as (p & i & Hr & Hle).
  exists p, i. split; [exact Hr|]. split.
  - by eapply extractLargestComponent_valid.
  - apply Z.div_le_mono; lia.
Qed.

Lemma flat_triangle_well_formed :
  well_formed (vertices flat_triangle) (indices flat_triangle).
Proof.
  split; [reflexivity|]. split; [reflexivity|].
  apply (bool_decide_unpack _). by vm_compute.
Defined.

Lemma extractLargestComponent_returns_witness :
  exists positions' indices',
    extractLargestComponent (vertices flat_triangle) (indices flat_triangle)
    = Return (positions', indices')
    /\ well_formed positions' indices'
    /\ len indices' / 3 <= len (indices flat_triangle) / 3.
Proof.
  apply (extractLargestComponent_returns (vertices flat_triangle) (indices flat_triangle)).
  apply flat_triangle_well_formed.
Defined.

(** ** The component filter returns a part of the mesh *)

Lemma at_app_r_len {A} (l k : list A) i x :
  at_ (l ++ k) i = Some x -> len l <= i -> at_ k (i - len l) = Some x.
Proof.
  unfold at_, len. intros H Hi. rewrite decide_True in H by lia.
  rewrite decide_True by lia.
  rewrite lookup_app_r in H by lia. rewrite <- H. f_equal. lia.
Qed.

Lemma at_app_cases {A} (l k : list A) i x :
  at_ (l ++ k) i = Some x -> at_ l i = Some x \/ (len l <= i /\ at_ k (i - len l) = Some x).
Proof.
  intros H. destruct (decide (i < len l)) as [Hlt|Hge].
  - left. pose proof (at_Some_lt _ _ _ H) as [H0 _].
    destruct (at_is_Some l i ltac:(lia)) as [y Hy].
    by rewrite (at_app_l l k i y Hy) in H; rewrite Hy.
  - right. split; [lia|]. apply at_app_r_len; [done|lia].
Qed.

Section Submesh.
Variable positions : list number.
Variable indices : list Z.
Hypothesis Hwf : well_formed positions indices.

Lemma remap_corner_tracks f k st cs :
  face_ok indices f -> 0 <= k < 3 ->
  remap_tracks (len positions / 3) indices st cs ->
  remap_tracks (len positions / 3) indices (remap_corner indices f st k) (cs ++ [(f, k)]).
Proof.
  intros Hf Hk. destruct st as [[vertMap cnt] newIdx].
  intros (Hl & Hc & Hn & Hm & Hinj & Hcs). unfold remap_corner.
  destruct (corner_valid positions indices Hwf f k Hf Hk) as (v & Hv & Hvr).
  rewrite Hv.
  destruct (at_is_Some vertMap v ltac:(lia)) as [m0 Hm0]. rewrite Hm0.
  pose proof (Forall_at _ _ _ _ Hm Hm0) as Hmr. simpl in Hmr.
  destruct (decide (m0 = -1)) as [->|Hne].
  - rewrite at_put_eq by lia. unfold remap_tracks.
    rewrite len_put, !len_app. change (len [Some cnt]) with 1.
    change (len [(f, k)]) with 1.
    split; [done|]. split; [lia|]. split; [lia|]. split; [|split].
    + apply Forall_put; [|lia]. eapply Forall_impl; [exact Hm|]. simpl. intros. lia.
    + intros v1 v2 m Hm1. rewrite !at_put. repeat case_decide.
      * intros _ _. lia.
      * intros [= <-] H2. pose proof (Forall_at _ _ _ _ Hm H2) as Hr. simpl in Hr. lia.
      * intros H1 [= <-]. pose proof (Forall_at _ _ _ _ Hm H1) as Hr. simpl in Hr. lia.
      * by apply Hinj.
    + intros i f' k' [Hi|[Hge Hi]]%at_app_cases.
      * destruct (Hcs i f' k' Hi) as (v' & m & Hv' & Hm' & Hm0' & Hidx).
        exists v', m. split; [done|]. split; [|split; [done|by apply at_app_l]].
        rewrite at_put_ne; [done|]. intros ->. rewrite Hm0 in Hm'. injection Hm' as <-. lia.
      * assert (i = len cs) as ->.
        { apply at_Some_lt in Hi. change (len [(f, k)]) with 1 in Hi. lia. }
        rewrite Z.sub_diag in Hi. injection Hi as <- <-.
        exists v, cnt. split; [done|]. split; [by apply at_put_eq; lia|].
        split; [lia|]. rewrite <- Hn. apply at_app_end.
  - assert (match m0 with
            | -1 => (put vertMap v cnt, cnt + 1)
            | _ => (vertMap, cnt)
            end = (vertMap, cnt)) as ->
        by (destruct m0 as [|p|[p|p|]]; done).
    rewrite Hm0. unfold remap_tracks. rewrite !len_app.
    change (len [Some m0]) with 1. change (len [(f, k)]) with 1.
    split; [done|]. split; [lia|]. split; [lia|]. split; [done|]. split; [done|].
    intros i f' k' [Hi|[Hge Hi]]%at_app_cases.
    + destruct (Hcs i f' k' Hi) as (v' & m & Hv' & Hm' & Hm0' & Hidx).
      exists v', m. split; [done|]. split; [done|]. split; [done|by apply at_app_l].
    + assert (i = len cs) as ->.
      { apply at_Some_lt in Hi. change (len [(f, k)]) with 1 in Hi. lia. }
      rewrite Z.sub_diag in Hi. injection Hi as <- <-.
      exists v, m0. split; [done|]. split; [done|]. split; [lia|].
      rewrite <- Hn. apply at_app_end.
Qed.

Lemma remap_face_tracks f st cs :
  face_ok indices f ->
  remap_tracks (len positions / 3) indices st cs ->
  remap_tracks (len positions / 3) indices (remap_face indices st f)
    (cs ++ [(f, 0); (f, 1); (f, 2)]).
Proof.
  intros Hf Hst. unfold remap_face. cbn [foldl].
  change (cs ++ [(f, 0); (f, 1); (f, 2)]) with (cs ++ [(f, 0)] ++ [(f, 1)] ++ [(f, 2)]).
  rewrite !app_assoc.
  repeat apply remap_corner_tracks; try done; lia.
Qed.

Lemma corners_at (faces : list Z) (cs0 : list (Z * Z)) j f k :
  at_ faces j = Some f -> 0 <= k < 3 ->
  at_ (foldl (fun cs f => cs ++ [(f, 0); (f, 1); (f, 2)]) cs0 faces) (len cs0 + j * 3 + k)
  = Some (f, k).
Proof.
  revert cs0 j. induction faces as [|f0 faces IH]; intros cs0 j Hj Hk.
  - apply at_Some_lt in Hj. unfold len in Hj. simpl in Hj. lia.
  - cbn [foldl]. destruct (decide (j = 0)) as [->|Hne].
    + injection Hj as ->.
      assert (forall xs, at_ (foldl (fun cs f => cs ++ [(f, 0); (f, 1); (f, 2)])
                                (cs0 ++ [(f, 0); (f, 1); (f, 2)]) xs) (len cs0 + 0 * 3 + k)
                         = Some (f, k)) as H; [|apply H].
      intros xs.
      apply (foldl_invariant (fun cs => at_ cs (len cs0 + 0 * 3 + k) = Some (f, k))).
      * assert (k = 0 \/ k = 1 \/ k = 2) as [->|[->| ->]] by lia.
        -- replace (len cs0 + 0 * 3 + 0) with (len cs0) by lia.
           change (cs0 ++ [(f, 0); (f, 1); (f, 2)]) with (cs0 ++ [(f, 0)] ++ [(f, 1); (f, 2)]).
           rewrite app_assoc. apply at_app_l, at_app_end.
        -- replace (len cs0 + 0 * 3 + 1) with (len (cs0 ++ [(f, 0)]))
             by (rewrite len_app; change (len [(f, 0)]) with 1; lia).
           change (cs0 ++ [(f, 0); (f, 1); (f, 2)])
             with (cs0 ++ [(f, 0)] ++ [(f, 1)] ++ [(f, 2)]).
           rewrite !app_assoc. apply at_app_l.
           rewrite <- app_assoc. rewrite app_assoc. apply at_app_end.
        -- replace (len cs0 + 0 * 3 + 2) with (len (cs0 ++ [(f, 0); (f, 1)]))
             by (rewrite len_app; change (len [(f, 0); (f, 1)]) with 2; lia).
           change (cs0 ++ [(f, 0); (f, 1); (f, 2)])
             with (cs0 ++ [(f, 0); (f, 1)] ++ [(f, 2)]).
           rewrite app_assoc. apply at_app_end.
      * intros cs x _ Hcs. by apply at_app_l.
    + assert (at_ faces (j - 1) = Some f) as Hj'.
      { revert Hj. unfold at_. repeat case_decide; try lia; try done.
        replace (Z.to_nat j) with (S (Z.to_nat (j - 1))) by lia. done. }
      assert (0 <= j) by (apply at_Some_lt in Hj; lia).
      specialize (IH (cs0 ++ [(f0, 0); (f0, 1); (f0, 2)]) (j - 1) Hj' Hk).
      rewrite len_app in IH. change (len [(f0, 0); (f0, 1); (f0, 2)]) with 3 in IH.
      replace (len cs0 + 3 + (j - 1) * 3 + k) with (len cs0 + j * 3 + k) in IH by lia.
      exact IH.
Qed.

Lemma move_vertex_len vertMap newPos v :
  len (move_vertex positions vertMap newPos v) = len newPos.
Proof. unfold move_vertex. repeat case_match; rewrite ?len_put; done. Qed.

Lemma move_vertices_at vertMap cnt v m c :
  Forall (fun m => -1 <= m < cnt) vertMap ->
  (forall v1 v2 m, 0 <= m -> at_ vertMap v1 = Some m -> at_ vertMap v2 = Some m -> v1 = v2) ->
  at_ vertMap v = Some m -> 0 <= m -> 0 <= c < 3 -> 0 <= v < len positions / 3 ->
  at_ (foldl (move_vertex positions vertMap) (replicate (Z.to_nat (cnt * 3)) zero)
         (seqZ 0 (len positions / 3))) (m * 3 + c)
  = Some (Math_fround (num_at positions (v * 3 + c))).
Proof.
  intros Hm Hinj Hv Hm0 Hc Hvr.
  pose proof (Forall_at _ _ _ _ Hm Hv) as Hmr. simpl in Hmr.
  apply (foldl_establish (fun np => at_ np (m * 3 + c) = Some _) _
           (fun np => len np = cnt * 3) _ v).
  - apply elem_of_seqZ. lia.
  - apply len_replicate. lia.
  - intros np u _ Hnp. by rewrite move_vertex_len.
  - intros np Hnp. unfold move_vertex. rewrite Hv.
    replace (0 <=? m) with true by (symmetry; lia).
    assert (c = 0 \/ c = 1 \/ c = 2) as [->|[->| ->]] by lia.
    + rewrite !Z.add_0_r. rewrite !at_put_ne by lia. apply at_put_eq. lia.
    + rewrite at_put_ne by lia. apply at_put_eq. rewrite len_put. lia.
    + apply at_put_eq. rewrite !len_put. lia.
  - intros np u _ Hnp Hq. unfold move_vertex.
    destruct (at_ vertMap u) as [m'|] eqn:Hu; [|done].
    destruct (0 <=? m') eqn:Hm'; [|done]. apply Z.leb_le in Hm'.
    destruct (decide (m' = m)) as [->|Hne].
    + assert (u = v) as -> by (by eapply Hinj).
      rewrite !at_put. repeat case_decide; try done;
        repeat match goal with H : _ /\ _ |- _ => destruct H end;
        f_equal; f_equal; f_equal; lia.
    + rewrite !at_put_ne by lia. done.
Qed.
End Submesh.

(** ** The component filter keeps whole components *)

Lemma touch_sym indices f f' : touch indices f f' -> touch indices f' f.
Proof. intros (v & H1 & H2). by exists v. Qed.

Lemma marked_put visited i f :
  0 <= i < len visited ->
  marked (put visited i 1) f <-> marked visited f \/ f = i.
Proof.
  intros Hi. unfold marked. rewrite at_put. case_decide as Hd.
  - destruct Hd as [-> _]. split; [by right|]. intros _. by exists 1.
  - split; [by left|]. intros [?| ->]; [done|]. destruct Hd. by split.
Qed.

Lemma push_face_rows vertFaces a f vertFaces' v row' :
  push_face vertFaces a f = Return vertFaces' -> at_ vertFaces' v = Some row' ->
  exists row, at_ vertFaces v = Some row
              /\ forall x, x ∈ row' <-> x ∈ row \/ (a = Some v /\ x = f).
Proof.
  unfold push_face. destruct a as [a|]; [|done].
  destruct (at_ vertFaces a) as [row|] eqn:E; [|done].
  intros [= <-]. rewrite at_put. case_decide as Hd.
  - destruct Hd as [<- _]. intros [= <-]. exists row. split; [done|].
    intros x. rewrite elem_of_app, list_elem_of_singleton. tauto.
  - intros Hv. exists row'. split; [done|]. intros x. split; [by left|].
    intros [?|[[= ->] _]]; [done|].
    destruct Hd. split; [done|]. by eapply at_Some_lt.
Qed.

Lemma vert_face_rows indices vertFaces f vertFaces' v row' :
  vert_face indices vertFaces f = Return vertFaces' -> at_ vertFaces' v = Some row' ->
  exists row, at_ vertFaces v = Some row
              /\ forall x, x ∈ row' <-> x ∈ row \/ (x = f /\ names_vertex indices f v).
Proof.
  unfold vert_face.
  intros (t1 & H1 & (t2 & H2 & H3)%obind_Return)%obind_Return Hv.
  destruct (push_face_rows _ _ _ _ _ _ H3 Hv) as (r2 & Hr2 & M3).
  destruct (push_face_rows _ _ _ _ _ _ H2 Hr2) as (r1 & Hr1 & M2).
  destruct (push_face_rows _ _ _ _ _ _ H1 Hr1) as (r0 & Hr0 & M1).
  exists r0. split; [done|]. intros x. rewrite M3, M2, M1.
  assert (names_vertex indices f v
          <-> at_ indices (f * 3) = Some v \/ at_ indices (f * 3 + 1) = Some v
              \/ at_ indices (f * 3 + 2) = Some v) as ->; [|tauto].
  unfold names_vertex. split.
  - intros (k & Hk & Hkv).
    assert (k = 0 \/ k = 1 \/ k = 2) as [->|[->| ->]] by lia;
      rewrite ?Z.add_0_r in Hkv; tauto.
  - intros [H|[H|H]]; [exists 0|exists 1|exists 2]; rewrite ?Z.add_0_r; (split; [lia|done]).
Qed.

Lemma vert_faces_rows indices numVerts vertFaces v row f :
  len indices mod 3 = 0 ->
  ofold (vert_face indices) (replicate (Z.to_nat numVerts) []) (thirds (len indices))
  = Return vertFaces ->
  at_ vertFaces v = Some row ->
  f ∈ row <-> face_ok indices f /\ names_vertex indices f v.
Proof.
  intros Hm Hfold Hv.
  assert (forall v row, at_ vertFaces v = Some row ->
            forall x, x ∈ row
                      <-> x ∈ foldl (fun fs f => f :: fs) [] (thirds (len indices))
                          /\ names_vertex indices x v) as Hall.
  { revert Hfold.
    apply (ofold_track
             (fun t fs => forall v row, at_ t v = Some row ->
                            forall x, x ∈ row <-> x ∈ fs /\ names_vertex indices x v)
             (vert_face indices) (fun fs f => f :: fs)).
    - intros u r Hu%at_elem_of x. apply elem_of_replicate in Hu as [-> _].
      split; [by intros ?%elem_of_nil|]. by intros [?%elem_of_nil _].
    - intros t fs x t' _ Hr Hf u r' Hu y.
      destruct (vert_face_rows _ _ _ _ _ _ Hf Hu) as (r & Hr0 & Hmem).
      rewrite Hmem, (Hr u r Hr0), elem_of_cons.
      split; [intros [[? ?]|[-> ?]]; tauto|]. intros [[ ->|?] ?]; tauto. }
  rewrite (Hall v row Hv f), elem_of_foldl_cons. split.
  - intros [[?%elem_of_nil|Hin] Hn]; [done|]. split; [by apply thirds_face_ok|done].
  - intros [[Hf0 Hf1] Hn]. split; [|done]. right. unfold thirds. apply elem_of_seqZ.
    pose proof (Z.div_mod (len indices) 3 ltac:(lia)).
    split; [lia|]. rewrite Z.add_0_l.
    assert (f + 1 <= (len indices + 2) / 3) by (apply Z.div_le_lower_bound; lia). lia.
Qed.

Section Components.
Variable positions : list number.
Variable indices : list Z.
Hypothesis Hwf : well_formed positions indices.
Variable vertFaces : list (list Z).
Hypothesis Hlenv : len vertFaces = len positions / 3.
Hypothesis Hrowsv :
  forall v row f, at_ vertFaces v = Some row ->
                  f ∈ row <-> face_ok indices f /\ names_vertex indices f v.

(** What [visit_faces] keeps, for a fixed set [m0] and list [comp]. *)
Lemma visit_faces_state (m0 : Z -> Prop) (comp nfs visited stack : list Z) :
  Forall (face_ok indices) nfs ->
  len visited = len indices / 3 -> Forall (face_ok indices) stack ->
  (forall f, marked visited f <-> m0 f \/ f ∈ stack \/ f ∈ comp) ->
  (forall f, f ∈ stack -> ~ m0 f) ->
  let st := visit_faces nfs (visited, stack) in
  len st.1 = len indices / 3 /\ Forall (face_ok indices) st.2
  /\ (forall f, marked st.1 f <-> m0 f \/ f ∈ st.2 \/ f ∈ comp)
  /\ (forall f, f ∈ st.2 -> ~ m0 f)
  /\ (forall f, marked visited f -> marked st.1 f)
  /\ (forall f, f ∈ nfs -> marked st.1 f).
Proof.
  intros Hn. revert visited stack.
  induction Hn as [|nf nfs Hnf Hn IH]; intros visited stack Hl Hs Hm Hd; cbn zeta.
  - cbn [visit_faces foldl fst snd]. repeat split; try done; try apply Hm.
    by intros f ?%elem_of_nil.
  - unfold visit_faces. cbn [foldl]. fold (visit_faces nfs).
    pose proof (face_ok_lt indices nf Hnf) as Hlt.
    destruct (at_is_Some visited nf ltac:(lia)) as [b Hb]. rewrite Hb.
    assert (b = 0 \/ b <> 0) as [->|Hne] by lia.
    + destruct (IH (put visited nf 1) (nf :: stack)) as (H1 & H2 & H3 & H4 & H5 & H6).
      * by rewrite len_put.
      * by apply Forall_cons.
      * intros f. rewrite marked_put by lia. rewrite Hm, elem_of_cons. tauto.
      * intros f [->|Hf]%elem_of_cons; [|by apply Hd].
        intros Hm0. assert (marked visited nf) as (b & Hb' & Hb0) by (apply Hm; by left).
        congruence.
      * repeat split; try done; try apply H3.
        -- intros f Hf. apply H5. apply marked_put; [lia|by left].
        -- intros f [->|Hf]%elem_of_cons; [|by apply H6].
           apply H5. apply marked_put; [lia|by right].
    + assert (match b with 0 => (put visited nf 1, nf :: stack) | _ => (visited, stack) end
              = (visited, stack)) as -> by (by destruct b).
      destruct (IH visited stack Hl Hs Hm Hd) as (H1 & H2 & H3 & H4 & H5 & H6).
      repeat split; try done; try apply H3.
      intros f [->|Hf]%elem_of_cons; [|by apply H6]. apply H5. by exists b.
Qed.

Lemma visit_corners_state (m0 : Z -> Prop) (comp : list Z) (f : Z)
    (visited stack : list Z) (st' : list Z * list Z) :
  face_ok indices f ->
  len visited = len indices / 3 -> Forall (face_ok indices) stack ->
  (forall f, marked visited f <-> m0 f \/ f ∈ stack \/ f ∈ comp) ->
  (forall f, f ∈ stack -> ~ m0 f) ->
  visit_corners indices vertFaces f (visited, stack) = Return st' ->
  len st'.1 = len indices / 3 /\ Forall (face_ok indices) st'.2
  /\ (forall f, marked st'.1 f <-> m0 f \/ f ∈ st'.2 \/ f ∈ comp)
  /\ (forall f, f ∈ st'.2 -> ~ m0 f)
  /\ (forall f, marked visited f -> marked st'.1 f)
  /\ (forall f', face_ok indices f' -> touch indices f f' -> marked st'.1 f').
Proof.
  intros Hf Hl Hs Hm Hd. unfold visit_corners.
  assert (forall ks (st0 st1 : list Z * list Z),
            Forall (fun k => 0 <= k < 3) ks ->
            len st0.1 = len indices / 3 -> Forall (face_ok indices) st0.2 ->
            (forall f, marked st0.1 f <-> m0 f \/ f ∈ st0.2 \/ f ∈ comp) ->
            (forall f, f ∈ st0.2 -> ~ m0 f) ->
            ofold (fun st k =>
                     match at_ indices (f * 3 + k) with
                     | Some v => match at_ vertFaces v with
                                 | Some nfs => Return (visit_faces nfs st)
                                 | None => Throw TypeError
                                 end
                     | None => Throw TypeError
                     end) st0 ks = Return st1 ->
            len st1.1 = len indices / 3 /\ Forall (face_ok indices) st1.2
            /\ (forall f, marked st1.1 f <-> m0 f \/ f ∈ st1.2 \/ f ∈ comp)
            /\ (forall f, f ∈ st1.2 -> ~ m0 f)
            /\ (forall f, marked st0.1 f -> marked st1.1 f)
            /\ (forall k v f', k ∈ ks -> at_ indices (f * 3 + k) = Some v ->
                               face_ok indices f' -> names_vertex indices f' v ->
                               marked st1.1 f')) as Hgo.
  { intros ks. induction ks as [|k ks IH]; intros [vis stk] st1 Hks Hl0 Hs0 Hm0 Hd0;
      cbn [ofold fst snd] in *.
    - intros [= <-]. cbn [fst snd]. repeat split; try done; try apply Hm0.
      by intros k v f' ?%elem_of_nil.
    - apply Forall_cons in Hks as [Hk Hks].
      destruct (corner_valid positions indices Hwf f k Hf Hk) as (v & Hv & Hvr).
      rewrite Hv. destruct (at_is_Some vertFaces v ltac:(lia)) as [nfs Hnfs].
      rewrite Hnfs. cbn [obind].
      assert (Forall (face_ok indices) nfs) as Hnf.
      { apply Forall_forall. intros x Hx. by apply (Hrowsv v nfs x Hnfs) in Hx as [? _]. }
      pose proof (visit_faces_state m0 comp nfs vis stk Hnf Hl0 Hs0 Hm0 Hd0) as Hvf.
      cbn zeta in Hvf. destruct (visit_faces nfs (vis, stk)) as [vis1 stk1].
      cbn [fst snd] in Hvf. destruct Hvf as (H1 & H2 & H3 & H4 & H5 & H6).
      intros Hrest.
      destruct (IH (vis1, stk1) st1 Hks H1 H2 H3 H4 Hrest) as (I1 & I2 & I3 & I4 & I5 & I6).
      cbn [fst snd] in *. repeat split; try done; try apply I3.
      + intros x Hx. by apply I5, H5.
      + intros k' v' f' [->|Hk']%elem_of_cons Hv' Hf' Hn'; [|by eapply I6].
        apply I5, H6. rewrite Hv in Hv'. injection Hv' as <-.
        by apply (Hrowsv v nfs f' Hnfs). }
  intros Hrun.
  destruct (Hgo [0; 1; 2] (visited, stack) st') as (G1 & G2 & G3 & G4 & G5 & G6);
    try done.
  { repeat constructor; lia. }
  repeat split; try done; try apply G3.
  intros f' Hf' (v & (k & Hk & Hkv) & Hn').
  apply (G6 k v f'); try done.
  assert (k = 0 \/ k = 1 \/ k = 2) as [->|[->| ->]] by lia;
    repeat first [by left | right].
Qed.

Lemma flood_state_kept (m0 : Z -> Prop) fuel (visited stack comp visited' comp' : list Z) :
  flood_state indices m0 visited stack comp ->
  flood fuel indices vertFaces visited stack comp = Return (visited', comp') ->
  flood_state indices m0 visited' [] comp'.
Proof.
  revert visited stack comp.
  induction fuel as [|fuel IH]; intros visited stack comp Hst;
    destruct stack as [|f stack]; cbn [flood]; try done; try (by intros [= <- <-]).
  destruct Hst as (Hl & [Hf Hs]%Forall_cons & Hm & Hd & Hc).
  intros ([vis stk] & Hv & Hrest)%obind_Return. cbn [fst snd] in Hrest.
  destruct (visit_corners_state m0 (comp ++ [f]) f visited stack (vis, stk))
    as (H1 & H2 & H3 & H4 & H5 & H6); try done.
  { intros x. rewrite Hm, elem_of_cons, elem_of_app, list_elem_of_singleton. tauto. }
  { intros x Hx. apply Hd. left. by right. }
  cbn [fst snd] in *. apply (IH vis stk (comp ++ [f])); [|done].
  split; [done|]. split; [done|]. split; [done|]. split.
  - intros x [Hx|[Hx| ->%list_elem_of_singleton]%elem_of_app].
    + by apply H4.
    + apply Hd. by right.
    + apply Hd. left. by left.
  - intros x x' [Hx| ->%list_elem_of_singleton]%elem_of_app Hx' Ht.
    + apply H5. by eapply Hc.
    + by apply H6.
Qed.
End Components.

Lemma flood_seed_whole positions indices vertFaces st seed st' :
  well_formed positions indices ->
  rows_ok (len positions / 3) indices vertFaces ->
  (forall v row f, at_ vertFaces v = Some row ->
                   f ∈ row <-> face_ok indices f /\ names_vertex indices f v) ->
  face_ok indices seed ->
  whole_components indices st ->
  flood_seed indices vertFaces st seed = Return st' ->
  whole_components indices st'.
Proof.
  intros Hwf Hrows Hrowsv Hseed (Hl & Hcl & Hbc & Hbf). destruct st as [visited bestComp].
  cbn [fst snd] in *. unfold flood_seed.
  pose proof (face_ok_lt indices seed Hseed) as Hlt.
  destruct (at_is_Some visited seed ltac:(lia)) as [b Hb]. rewrite Hb.
  assert (b = 0 \/ b <> 0) as [->|Hne] by lia.
  2:{ assert (match b with
              | 0 =>
                  let! vc := flood (S (unvisited (put visited seed 1))) indices vertFaces
                               (put visited seed 1) [seed] [] in
                  Return (vc.1, if len bestComp <? len vc.2 then vc.2 else bestComp)
              | _ => Return (visited, bestComp)
              end = Return (visited, bestComp)) as -> by (by destruct b).
      intros [= <-]. by repeat split. }
  intros ([vis comp] & Hflood & [= <-])%obind_Return. cbn [fst snd].
  assert (Forall (face_ok indices) comp) as Hcf.
  { eapply (flood_ok positions indices); [exact Hrows| | |exact Hflood].
    - by apply Forall_singleton.
    - done. }
  assert (flood_state indices (marked visited) vis [] comp) as (L & _ & Hm & Hd & Hc).
  { eapply (flood_state_kept positions indices Hwf vertFaces (proj1 Hrows) Hrowsv);
      [|exact Hflood].
    split; [by rewrite len_put|]. split; [by apply Forall_singleton|]. split; [|split].
    - intros f. rewrite marked_put by lia. rewrite list_elem_of_singleton.
      split; [intros [?|?]; tauto|]. intros [?|[?|?%elem_of_nil]]; tauto.
    - intros f [->%list_elem_of_singleton|?%elem_of_nil]; [|done].
      intros (b & Hb' & Hb0). congruence.
    - by intros f f' ?%elem_of_nil. }
  assert (forall f f', f ∈ comp -> face_ok indices f' -> touch indices f f' -> f' ∈ comp)
    as Hcomp.
  { intros f f' Hf Hf' Ht.
    pose proof (Hc f f' Hf Hf' Ht) as Hcase. apply Hm in Hcase.
    destruct Hcase as [Hm0|[?%elem_of_nil|?]]; [|done..].
    exfalso. apply (Hd f); [by right|].
    apply (Hcl f' f Hm0); [by eapply Forall_forall in Hcf|by apply touch_sym]. }
  split; [done|]. split; [|split].
  - intros f f' Hf Hf' Ht. apply Hm. apply Hm in Hf as [Hm0|[?%elem_of_nil|Hin]]; [|done|].
    + left. by eapply Hcl.
    + right. right. by eapply Hcomp.
  - destruct (len bestComp <? len comp); [exact Hcomp|exact Hbc].
  - by destruct (len bestComp <? len comp).
Qed.

Lemma at_seqZ n j f : at_ (seqZ 0 n) j = Some f -> f = j /\ 0 <= j < n.
Proof.
  unfold at_. case_decide; [|done]. intros [-> ?]%lookup_seqZ. lia.
Qed.

(** X13: the component filter returns a part of the mesh made of whole
    components.  On a well-formed mesh the faces returned are, in order,
    faces [kept] of the given mesh: corner by corner, the vertex named by
    the new face is the vertex named by the old one, unchanged when the
    arrays are returned as they are and with the same (float32)
    coordinates otherwise; and every face of the given mesh that shares a
    vertex with a kept face is kept. *)
Theorem extractLargestComponent_keeps_whole_components (positions : list number)
    (indices : list Z) (positions' : list number) (indices' : list Z) :
  well_formed positions indices -> len indices < 2 ^ 32 ->
  extractLargestComponent positions indices = Return (positions', indices') ->
  exists kept : list Z,
    len indices' = 3 * len kept
    /\ Forall (face_ok indices) kept
    /\ (forall f f', f ∈ kept -> face_ok indices f' -> touch indices f f' -> f' ∈ kept)
    /\ forall j f k, at_ kept j = Some f -> 0 <= k < 3 ->
         exists v' v,
           at_ indices' (j * 3 + k) = Some v'
           /\ at_ indices (f * 3 + k) = Some v
           /\ ((positions' = positions /\ v' = v)
               \/ forall c, 0 <= c < 3 ->
                    at_ positions' (v' * 3 + c)
                    = Some (Math_fround (num_at positions (v * 3 + c)))).
Proof.
  intros Hwf Hbound. pose proof Hwf as (Hp & Hi & Hall).
  pose proof (len_nonneg indices) as Hli.
  pose proof (Z.div_mod (len indices) 3 ltac:(lia)) as Hdiv.
  assert (exists kept : list Z,
             len indices = 3 * len kept
             /\ Forall (face_ok indices) kept
             /\ (forall f f', f ∈ kept -> face_ok indices f' -> touch indices f f' ->
                              f' ∈ kept)
             /\ forall j f k, at_ kept j = Some f -> 0 <= k < 3 ->
                  exists v' v,
                    at_ indices (j * 3 + k) = Some v'
                    /\ at_ indices (f * 3 + k) = Some v
                    /\ ((positions = positions /\ v' = v)
                        \/ forall c, 0 <= c < 3 ->
                             at_ positions (v' * 3 + c)
                             = Some (Math_fround (num_at positions (v * 3 + c)))))
    as Hsame.
  { exists (seqZ 0 (len indices / 3)).
    assert (forall f, f ∈ seqZ 0 (len indices / 3) <-> face_ok indices f) as Hin.
    { intros f. rewrite elem_of_seqZ. unfold face_ok. lia. }
    split; [unfold len at 2; rewrite length_seqZ; lia|].
    split; [apply Forall_forall; intros f; apply Hin|].
    split; [intros f f' _ Hf' _; by apply Hin|].
    intros j f k [-> Hj]%at_seqZ Hk.
    destruct (at_is_Some indices (j * 3 + k) ltac:(lia)) as [v Hv].
    exists v, v. split; [done|]. split; [done|]. by left. }
  unfold extractLargestComponent.
  destruct (len indices <? 300); [intros [= <- <-]; exact Hsame|].
  rewrite Hp. cbn [Z.eqb negb].
  intros (vertFaces & Hvf & ([visited bestComp] & Hfl & H)%obind_Return)%obind_Return.
  cbn [snd] in H.
  destruct (len bestComp * 3 =? len indices); [injection H as <- <-; exact Hsame|].
  clear Hsame.
  destruct (foldl (remap_face indices) _ bestComp) as [[vertMap cnt] newIdx] eqn:Hre.
  injection H as <- <-.
  pose proof (len_nonneg positions).
  assert (0 <= len positions / 3) as Hnv by (apply Z.div_pos; lia).
  assert (rows_ok (len positions / 3) indices vertFaces) as Hrows.
  { revert Hvf. apply ofold_invariant.
    - split; [by apply len_replicate|]. by apply Forall_replicate.
    - intros vf f vf' Hf Hvfok. apply (vert_face_rows_ok positions); [done|].
      by apply thirds_face_ok. }
  assert (whole_components indices (visited, bestComp)) as (_ & _ & Hclosed & Hbest).
  { revert Hfl. apply ofold_invariant.
    - split; [cbn [fst]; apply len_replicate; lia|]. split; [|split; [|done]].
      + intros f f' (b & Hb%at_elem_of & Hb0). apply elem_of_replicate in Hb as [-> _]. done.
      + by intros f f' ?%elem_of_nil.
    - intros st seed st' Hseed Hst.
      apply (flood_seed_whole positions indices vertFaces st seed st' Hwf Hrows); [|by apply thirds_face_ok|done].
      intros v row f Hv. by eapply vert_faces_rows. }
  cbn [snd] in Hclosed, Hbest.
  pose proof (foldl_track (remap_tracks (len positions / 3) indices) (remap_face indices)
                (fun cs f => cs ++ [(f, 0); (f, 1); (f, 2)]) bestComp
                (replicate (Z.to_nat (len positions / 3)) (-1), 0, []) []) as Htr.
  rewrite Hre in Htr.
  destruct Htr as (Hl & Hc & Hn & Hm & Hinj & Hcs).
  { unfold remap_tracks. split; [by apply len_replicate|].
    split; [done|]. split; [done|]. split; [by apply Forall_replicate|].
    split.
    - intros v1 v2 m Hm0 H1%at_elem_of. apply elem_of_replicate in H1 as [-> _]. lia.
    - intros i f k Hat. apply at_Some_lt in Hat. unfold len in Hat. simpl in Hat. lia. }
  { intros st cs f Hf Hst. apply (remap_face_tracks positions indices Hwf); [|done].
    by eapply Forall_forall in Hbest. }
  pose proof (remap_faces_len positions indices Hwf bestComp
                (replicate (Z.to_nat (len positions / 3)) (-1), 0, []) Hbest) as Hlen.
  rewrite Hre in Hlen. cbn [snd] in Hlen. change (len []) with 0 in Hlen.
  specialize (Hlen ltac:(unfold remap_ok; repeat split;
                          [by apply len_replicate|done|by apply Forall_replicate|done])).
  assert (len bestComp * 3 <= len indices) as Hfew.
  { destruct (flood_seeds_return positions indices Hwf vertFaces Hrows)
      as (st & Hst & _ & Hb & _).
    rewrite Hfl in Hst. injection Hst as <-. cbn [snd] in Hb. lia. }
  exists bestComp. split; [unfold Uint32Array_from; rewrite len_fmap; lia|].
  split; [exact Hbest|]. split; [exact Hclosed|].
  intros j f k Hf Hk.
  pose proof (corners_at bestComp [] j f k Hf Hk) as Hat.
  change (len []) with 0 in Hat. rewrite Z.add_0_l in Hat.
  destruct (Hcs _ _ _ Hat) as (v & m & Hv & Hmv & Hm0 & Hidx).
  pose proof (Forall_at _ _ _ _ Hm Hmv) as Hmr. simpl in Hmr.
  exists m, v. split; [|split; [done|right]].
  - unfold Uint32Array_from. rewrite at_fmap, Hidx. cbn. f_equal.
    unfold to_uint32. apply Z.mod_small. lia.
  - intros c Hcr.
    apply (move_vertices_at positions vertMap cnt v m c Hm Hinj Hmv Hm0 Hcr).
    apply at_Some_lt in Hmv. lia.
Qed.

Lemma two_components_well_formed :
  well_formed (vertices two_components) (indices two_components).
Proof.
  split; [reflexivity|]. split; [reflexivity|].
  apply (bool_decide_unpack _). by vm_compute.
Defined.

Lemma extractLargestComponent_keeps_whole_components_witness :
  exists positions' indices',
    extractLargestComponent (vertices two_components) (indices two_components)
    = Return (positions', indices')
    /\ exists kept : list Z,
         len indices' = 3 * len kept
         /\ forall f f', f ∈ kept -> face_ok (indices two_components) f' ->
                         touch (indices two_components) f f' -> f' ∈ kept.
Proof.
  assert (exists r, extractLargestComponent (vertices two_components)
                      (indices two_components) = Return r) as [[p i] E]
    by (eexists; vm_compute; reflexivity).
  exists p, i. split; [exact E|].
  destruct (extractLargestComponent_keeps_whole_components (vertices two_components)
              (indices two_components) p i) as (kept & Hl & _ & Hc & _).
  - apply two_components_well_formed.
  - change (len (indices two_components)) with 330. lia.
  - exact E.
  - exists kept. split; [exact Hl|exact Hc].
Defined.

(** ** How a run can fail *)

Section Failures.
Context {W : Type}.
Variables Math_sin Math_cos : number -> number.
Variables EDGE_TABLE TRI_TABLE : list Z.
Variable onProgress : @ProgressCallback W.

Lemma mret_callback_only {A} (a : A) : fails_by_callback_only (W:=W) (mret a).
Proof. by intros w. Qed.

Lemma progress_callback_only p : fails_by_callback_only (progress onProgress p).
Proof. intros w. unfold progress. by destruct (onProgress p w). Qed.

Lemma mbind_callback_only {A B} (m : @M W A) (k : A -> @M W B) :
  fails_by_callback_only m -> (forall a, fails_by_callback_only (k a)) ->
  fails_by_callback_only (mbind m k).
Proof.
  intros Hm Hk w. unfold mbind. specialize (Hm w).
  destruct (m w) as [[a w1]|e|]; cbn [obind]; [apply Hk|done..].
Qed.

Lemma mfold_callback_only {A B} (f : A -> B -> @M W A) xs a :
  (forall a x, fails_by_callback_only (f a x)) -> fails_by_callback_only (mfold f a xs).
Proof.
  intros Hf. revert a. induction xs as [|x xs IH]; intros a; simpl.
  - apply mret_callback_only.
  - apply mbind_callback_only; [apply Hf|apply IH].
Qed.

Lemma build_field_callback_only params g :
  fails_by_callback_only (build_field Math_sin Math_cos onProgress params g).
Proof.
  unfold build_field. apply mbind_callback_only; [apply progress_callback_only|].
  intros _. apply mfold_callback_only. intros f k. cbv zeta.
  destruct (k mod 3 =? 0); [|apply mret_callback_only].
  apply mbind_callback_only; [apply progress_callback_only|].
  intros _. apply mret_callback_only.
Qed.

Lemma march_callback_only g solidField :
  fails_by_callback_only (march EDGE_TABLE TRI_TABLE onProgress g solidField).
Proof.
  unfold march. apply mfold_callback_only. intros st z.
  apply mbind_callback_only; [|intros _; apply mret_callback_only].
  destruct (_ =? 0); [apply progress_callback_only|apply mret_callback_only].
Qed.

Lemma surface_callback_only params g :
  TRI_TABLE_ok TRI_TABLE ->
  fails_by_callback_only (surface Math_sin Math_cos EDGE_TABLE TRI_TABLE onProgress params g).
Proof.
  intros Htri w. unfold surface, mbind at 1.
  pose proof (build_field_callback_only params g w) as Hb.
  destruct (build_field _ _ _ _ _ w) as [[solidField w1]|e|]; cbn [obind]; [|done..].
  cbn [fst snd]. unfold mbind at 1.
  pose proof (progress_callback_only (of_Z 28) w1) as Hp1.
  destruct (progress onProgress (of_Z 28) w1) as [[u1 w2]|e|]; cbn [obind]; [|done..].
  cbn [fst snd]. unfold mbind at 1.
  pose proof (progress_callback_only (of_Z 30) w2) as Hp2.
  destruct (progress onProgress (of_Z 30) w2) as [[u2 w3]|e|]; cbn [obind]; [|done..].
  cbn [fst snd]. unfold mbind at 1.
  pose proof (march_callback_only g (void_boundary g solidField) w3) as Hm.
  destruct (march _ _ _ _ _ w3) as [[st w4]|e|] eqn:Hst; cbn [obind]; [|done..].
  cbn [fst snd]. unfold mbind at 1.
  pose proof (progress_callback_only (of_Z 75) w4) as Hp3.
  destruct (progress onProgress (of_Z 75) w4) as [[u3 w5]|e|]; cbn [obind]; [|done..].
  cbn [fst snd].
  assert (mc_ok st) as Hok by (eapply march_ok; [exact Htri|exact Hst]).
  pose proof (mc_ok_well_formed st Hok) as Hwf.
  apply mbind_callback_only.
  - destruct (useFrame params); [apply mret_callback_only|].
    intros w'. unfold lift.
    destruct (extract_returns _ _ Hwf) as (p & i & -> & _). done.
  - intros mesh. apply mbind_callback_only; [apply progress_callback_only|].
    intros _. apply mret_callback_only.
Qed.
End Failures.

(** X14: with a triangle table of edge numbers, the pipeline never fails
    on its own data.  A run of [generateGyroidMesh] returns, or raises the
    [Error] of a parameter check, or the [RangeError] of a field that
    cannot be allocated, or what the callback raised; and it fails to end
    only in the smoothing loop, when twice the number of iterations is
    beyond 2^53. *)
Theorem generate_failures {W} Math_sin Math_cos EDGE_TABLE TRI_TABLE
    (onProgress : @ProgressCallback W) (params : GenParams) (w : W) :
  TRI_TABLE_ok TRI_TABLE ->
  match generateGyroidMesh Math_sin Math_cos EDGE_TABLE TRI_TABLE onProgress params w with
  | Return _ => True
  | Throw e =>
      validate params = Some e
      \/ (e = RangeError /\ validate params = None /\ grid_of params = None)
      \/ e = CallbackThrew
  | Diverges =>
      flt zero (smoothingIterations_of params) = true
      /\ loop_count (fmul (smoothingIterations_of params) (of_Z 2)) = None
  end.
Proof.
  intros Htri. unfold generateGyroidMesh.
  destruct (validate params) as [e|] eqn:Hv; [by left|].
  destruct (grid_of params) as [g|] eqn:Hg; [|right; by left].
  unfold mbind.
  pose proof (surface_callback_only Math_sin Math_cos EDGE_TABLE TRI_TABLE onProgress
                params g Htri w) as Hs.
  destruct (surface _ _ _ _ _ _ _ w) as [[[pos idx] w1]|e|] eqn:Hsurf; cbn [obind];
    [|by right; right|done].
  cbn [fst snd].
  assert (well_formed pos idx) as Hwf by (eapply surface_valid; [exact Htri|exact Hsurf]).
  unfold finish, mbind at 1.
  destruct (flt zero (smoothingIterations_of params)) eqn:Hpos.
  - unfold lift.
    assert (match taubinSmooth pos idx (smoothingIterations_of params) with
            | Return _ => True
            | Throw _ => False
            | Diverges => loop_count (fmul (smoothingIterations_of params) (of_Z 2)) = None
            end) as Hsm.
    { destruct (loop_count (fmul (smoothingIterations_of params) (of_Z 2))) as [n|] eqn:Hn.
      - by destruct (taubinSmooth_succeeds pos idx Hwf _ n Hn) as [r ->].
      - unfold taubinSmooth. destruct (_ || _); [done|].
        pose proof Hwf as (Hp & _). rewrite Hp. cbn [Z.eqb negb].
        destruct (build_adjacency_ok pos idx Hwf) as (adj & -> & _).
        cbn [obind]. by rewrite Hn. }
    destruct (taubinSmooth pos idx (smoothingIterations_of params)) as [pos'|e|];
      cbn [obind]; [|done|done].
    cbn [fst snd]. unfold mbind at 1.
    pose proof (progress_callback_only onProgress (of_Z 90) w1) as Hp1.
    destruct (progress onProgress (of_Z 90) w1) as [[u1 w2]|e|]; cbn [obind];
      [|by right; right|done].
    cbn [fst snd]. unfold mbind.
    pose proof (progress_callback_only onProgress (of_Z 100) w2) as Hp2.
    destruct (progress onProgress (of_Z 100) w2) as [[u2 w3]|e|]; cbn [obind];
      [done|by right; right|done].
  - cbn [mret obind fst snd]. unfold mbind at 1.
    pose proof (progress_callback_only onProgress (of_Z 90) w1) as Hp1.
    destruct (progress onProgress (of_Z 90) w1) as [[u1 w2]|e|]; cbn [obind];
      [|by right; right|done].
    cbn [fst snd]. unfold mbind.
    pose proof (progress_callback_only onProgress (of_Z 100) w2) as Hp2.
    destruct (progress onProgress (of_Z 100) w2) as [[u2 w3]|e|]; cbn [obind];
      [done|by right; right|done].
Qed.

Lemma generate_failures_witness :
  match sample_generate (app_params (of_Z 2)) with
  | Return _ => True
  | Throw e =>
      validate (app_params (of_Z 2)) = Some e
      \/ (e = RangeError /\ validate (app_params (of_Z 2)) = None
          /\ grid_of (app_params (of_Z 2)) = None)
      \/ e = CallbackThrew
  | Diverges =>
      flt zero (smoothingIterations_of (app_params (of_Z 2))) = true
      /\ loop_count (fmul (smoothingIterations_of (app_params (of_Z 2))) (of_Z 2)) = None
  end.
Proof.
  exact (generate_failures sample_sin sample_cos sample_EDGE_TABLE sample_TRI_TABLE
           log_progress (app_params (of_Z 2)) [] sample_TRI_TABLE_ok).
Defined.

(** ** A resolution below one *)

(** X15: a resolution whose integer part is zero passes the checks, and
    every run that returns then returns the mesh without vertices, normals
    and faces: the sweep has no cube to visit. *)
Theorem generate_without_cubes {W} Math_sin Math_cos EDGE_TABLE TRI_TABLE
    (onProgress : @ProgressCallback W) (params : GenParams) (g : grid)
    (w w' : W) (m : MeshData) :
  grid_of params = Some g -> res g = 0 ->
  generateGyroidMesh Math_sin Math_cos EDGE_TABLE TRI_TABLE onProgress params w
  = Return (m, w') ->
  vertices m = [] /\ normals m = [] /\ indices m = [].
Proof.
  intros Hg Hres (g' & pos & idx & w1 & _ & Hg' & Hs & Hf)%generate_Return.
  rewrite Hg in Hg'. injection Hg' as <-.
  assert (pos = [] /\ idx = []) as [-> ->].
  { revert Hs. unfold surface.
    intros (solidField & w2 & _ & (_ & w3 & _ & (_ & w4 & _ & H)%mbind_Return
                                   )%mbind_Return)%mbind_Return.
    apply mbind_Return in H as (st & w5 & Hst & (_ & w6 & _ & H)%mbind_Return).
    apply mbind_Return in H as ([p i] & w7 & Hmesh & (_ & w8 & _ & Hret)%mbind_Return).
    apply mret_Return in Hret as [[= -> ->] _].
    unfold march in Hst. rewrite Hres in Hst. cbn [seqZ mfold] in Hst.
    apply mret_Return in Hst as [-> _]. cbn [positions faceIndices mc_init] in Hmesh.
    destruct (useFrame params).
    - by apply mret_Return in Hmesh as [[= -> ->] _].
    - by apply lift_Return in Hmesh as [[= -> ->] _]. }
  revert Hf. unfold finish.
  intros (pos' & w2 & Hsm & (_ & w3 & _ & (_ & w4 & _ & Hret)%mbind_Return
                            )%mbind_Return)%mbind_Return.
  apply mret_Return in Hret as [-> _]. cbn [vertices normals indices].
  assert (pos' = []) as ->.
  { destruct (flt zero (smoothingIterations_of params)).
    - apply lift_Return in Hsm as [Hsm _]. unfold taubinSmooth in Hsm.
      rewrite orb_true_r in Hsm. by injection Hsm as <-.
    - by apply mret_Return in Hsm as [-> _]. }
  done.
Qed.

Lemma generate_without_cubes_witness :
  match sample_generate (app_params (dec 5 1)) with
  | Return (m, _) => vertices m = [] /\ normals m = [] /\ indices m = []
  | _ => False
  end.
Proof.
  destruct (sample_generate (app_params (dec 5 1))) as [[m w']|e|] eqn:E;
    [|vm_compute in E; discriminate E..].
  assert (exists g, grid_of (app_params (dec 5 1)) = Some g /\ res g = 0) as (g & Hg & Hr)
    by (eexists; split; [vm_compute; reflexivity|reflexivity]).
  apply (generate_without_cubes sample_sin sample_cos sample_EDGE_TABLE sample_TRI_TABLE
           log_progress (app_params (dec 5 1)) g [] w' m Hg Hr E).
Defined.

(** ** What a progress bar sees *)

Lemma progress_log p (w w' : list number) u :
  progress log_progress p w = Return (u, w') -> w' = w ++ [p].
Proof. unfold progress, log_progress. by intros [= _ <-]. Qed.

Lemma mfold_log_extends {A B} (f : A -> B -> @M (list number) A) xs a w a' w' :
  (forall a x w a' w', f a x w = Return (a', w') -> exists l, w' = w ++ l) ->
  mfold f a xs w = Return (a', w') -> exists l, w' = w ++ l.
Proof.
  intros Hf. revert a w. induction xs as [|x xs IH]; intros a w; simpl.
  - intros [_ ->]%mret_Return. exists []. by rewrite app_nil_r.
  - intros (a1 & w1 & [l1 ->]%Hf & [l2 ->]%IH)%mbind_Return.
    exists (l1 ++ l2). by rewrite app_assoc.
Qed.

(** X16: with a host that records the reported percentages, every run
    that returns has reported 5 first, 28 and 30 between the field and the
    sweep, and 75, 80, 90 and 100 last. *)
Theorem progress_reports Math_sin Math_cos EDGE_TABLE TRI_TABLE
    (params : GenParams) (m : MeshData) (log : list number) :
  generateGyroidMesh Math_sin Math_cos EDGE_TABLE TRI_TABLE log_progress params []
  = Return (m, log) ->
  exists field sweep,
    log = [of_Z 5] ++ field ++ [of_Z 28; of_Z 30] ++ sweep
          ++ [of_Z 75; of_Z 80; of_Z 90; of_Z 100].
Proof.
  intros (g & pos & idx & w1 & _ & _ & Hs & Hf)%generate_Return.
  revert Hs. unfold surface.
  intros (solidField & w2 & Hb & (_ & w3 & ->%progress_log & (_ & w4 & ->%progress_log & H
                                  )%mbind_Return)%mbind_Return)%mbind_Return.
  apply mbind_Return in H as (st & w5 & Hst & (_ & w6 & ->%progress_log & H)%mbind_Return).
  apply mbind_Return in H as ([p i] & w7 & Hmesh & (_ & w8 & ->%progress_log & Hret
                                                   )%mbind_Return).
  apply mret_Return in Hret as [_ ->].
  assert (w7 = w5 ++ [of_Z 75]) as ->.
  { destruct (useFrame params).
    - by apply mret_Return in Hmesh as [_ ->].
    - by apply lift_Return in Hmesh as [_ ->]. }
  revert Hf. unfold finish.
  intros (pos' & w9 & Hsm & (_ & w10 & ->%progress_log & (_ & w11 & ->%progress_log & Hret
                             )%mbind_Return)%mbind_Return)%mbind_Return.
  apply mret_Return in Hret as [_ ->].
  assert (w9 = (w5 ++ [of_Z 75]) ++ [of_Z 80]) as ->.
  { destruct (flt zero (smoothingIterations_of params)).
    - by apply lift_Return in Hsm as [_ ->].
    - by apply mret_Return in Hsm as [_ ->]. }
  revert Hb. unfold build_field.
  intros (_ & w0 & ->%progress_log & [field ->]%mfold_log_extends)%mbind_Return.
  2:{ intros f k w a' w'. cbv zeta. destruct (k mod 3 =? 0).
      - intros (u & wa & Hp%progress_log & [_ Hw]%mret_Return)%mbind_Return.
        subst w'. eauto.
      - intros [_ ->]%mret_Return. exists []. by rewrite app_nil_r. }
  revert Hst. unfold march. intros [sweep ->]%mfold_log_extends.
  2:{ intros f z w a' w'. intros (u & wa & Hp & [_ Hw]%mret_Return)%mbind_Return.
      subst w'. destruct (_ =? 0).
      - apply progress_log in Hp. eauto.
      - apply mret_Return in Hp as [_ Hw]. exists []. by rewrite app_nil_r. }
  exists field, sweep. rewrite <- !app_assoc. reflexivity.
Qed.

Lemma progress_reports_witness :
  match sample_generate (app_params (of_Z 2)) with
  | Return (_, log) =>
      exists field sweep,
        log = [of_Z 5] ++ field ++ [of_Z 28; of_Z 30] ++ sweep
              ++ [of_Z 75; of_Z 80; of_Z 90; of_Z 100]
  | _ => False
  end.
Proof.
  destruct (sample_generate (app_params (of_Z 2))) as [[m log]|e|] eqn:E;
    [|vm_compute in E; discriminate E..].
  apply (progress_reports sample_sin sample_cos sample_EDGE_TABLE sample_TRI_TABLE
           (app_params (of_Z 2)) m log E).
Defined.

(** ** Degenerate faces in the STL file *)

Lemma fsub_diag x : zero_or_nan (fsub x x).
Proof.
  unfold zero_or_nan, fsub, SFsub.
  destruct x as [[]|[]| |s m e]; simpl; auto.
  rewrite Z.sub_diag. auto.
Qed.

Lemma fmul_comm x y : fmul x y = fmul y x.
Proof.
  unfold fmul, SFmul.
  destruct x as [sx|sx| |sx mx ex], y as [sy|sy| |sy my ey];
    rewrite ?(xorb_comm sx sy), ?(Pos.mul_comm mx my), ?(Z.add_comm ex ey);
    reflexivity.
Qed.

Lemma fmul_zero_or_nan_l x y : zero_or_nan x -> zero_or_nan (fmul x y).
Proof.
  unfold zero_or_nan.
  intros [->|[->| ->]]; destruct y as [[]|[]| |[] m e]; simpl; auto.
Qed.

Lemma fmul_zero_or_nan_r x y : zero_or_nan y -> zero_or_nan (fmul x y).
Proof. rewrite fmul_comm. apply fmul_zero_or_nan_l. Qed.

Lemma fsub_zero_or_nan x y : zero_or_nan x -> zero_or_nan y -> zero_or_nan (fsub x y).
Proof. unfold zero_or_nan. intros [->|[->| ->]] [->|[->| ->]]; simpl; auto. Qed.

Lemma fadd_zero_or_nan x y : zero_or_nan x -> zero_or_nan y -> zero_or_nan (fadd x y).
Proof. unfold zero_or_nan. intros [->|[->| ->]] [->|[->| ->]]; simpl; auto. Qed.

Lemma sqrt_zero_or_nan x : zero_or_nan x -> zero_or_nan (Math_sqrt x).
Proof. unfold zero_or_nan. intros [->|[->| ->]]; simpl; auto. Qed.

Lemma not_above_tiny x : zero_or_nan x -> flt tiny x = false.
Proof. unfold zero_or_nan. by intros [->|[->| ->]]. Qed.

Lemma face_cross_degenerate vertices i0 i1 i2 :
  i0 = i1 \/ i0 = i2 \/ i1 = i2 ->
  zero_or_nan (face_cross vertices i0 i1 i2).1.1
  /\ zero_or_nan (face_cross vertices i0 i1 i2).1.2
  /\ zero_or_nan (face_cross vertices i0 i1 i2).2.
Proof.
  unfold face_cross. cbn [fst snd].
  intros [->|[->| ->]].
  - repeat split; apply fsub_zero_or_nan;
      (apply fmul_zero_or_nan_l || apply fmul_zero_or_nan_r); apply fsub_diag.
  - repeat split; apply fsub_zero_or_nan;
      (apply fmul_zero_or_nan_r || apply fmul_zero_or_nan_l); apply fsub_diag.
  - repeat split.
    + rewrite (fmul_comm (fsub (num_at3 vertices i2 2) _)). apply fsub_diag.
    + rewrite (fmul_comm (fsub (num_at3 vertices i2 0) _)). apply fsub_diag.
    + rewrite (fmul_comm (fsub (num_at3 vertices i2 1) _)). apply fsub_diag.
Qed.

(** X17: a face that names the same vertex at two of its corners is written
    with the normal (0, 0, 0), whatever the coordinates are (infinite or NaN
    included) and also when the index is out of range: the first twelve
    bytes of its record are zero. *)
Theorem stl_normal_of_degenerate_face (vertices : list number) (indices : list Z) (f : Z) :
  let i0 := at_ indices (f * 3) in
  let i1 := at_ indices (f * 3 + 1) in
  let i2 := at_ indices (f * 3 + 2) in
  i0 = i1 \/ i0 = i2 \/ i1 = i2 ->
  stl_normal vertices i0 i1 i2 = (zero, zero, zero)
  /\ take 12 (stl_record vertices indices f) = replicate 12 0.
Proof.
  intros i0 i1 i2 Hd.
  assert (stl_normal vertices i0 i1 i2 = (zero, zero, zero)) as H.
  { unfold stl_normal.
    destruct (face_cross_degenerate vertices i0 i1 i2 Hd) as (Hx & Hy & Hz).
    destruct (face_cross vertices i0 i1 i2) as [[nx ny] nz]. cbn [fst snd] in *.
    rewrite not_above_tiny; [done|].
    apply sqrt_zero_or_nan.
    repeat apply fadd_zero_or_nan; by apply fmul_zero_or_nan_l. }
  split; [exact H|]. unfold stl_record. fold i0 i1 i2. rewrite H. reflexivity.
Qed.

Lemma stl_normal_of_degenerate_face_witness :
  take 12 (stl_record (vertices flat_triangle) [1; 1; 2] 0) = replicate 12 0.
Proof.
  apply (stl_normal_of_degenerate_face (vertices flat_triangle) [1; 1; 2] 0).
  by left.
Defined.

(** ** When the export raises *)

Lemma stl_records_len vertices indices (k : nat) f :
  len (concat (stl_record vertices indices <$> seqZ f (Z.of_nat k))) = 50 * Z.of_nat k.
Proof.
  revert f. induction k as [|k IH]; intros f; [done|].
  rewrite seqZ_cons by lia. cbn [fmap list_fmap concat].
  replace (Z.pred (Z.of_nat (S k))) with (Z.of_nat k) by lia.
  rewrite len_app, stl_record_len, IH. lia.
Qed.

Lemma write_triangles_then vertices indices (k : nat) (rest : list Z) :
  forall (pre : list Z) (f : Z),
    len pre = 84 + f * 50 ->
    ofold (write_triangle vertices indices) (pre ++ replicate (50 * k) 0 ++ rest)
          (seqZ f (Z.of_nat k))
    = Return (pre ++ concat (stl_record vertices indices <$> seqZ f (Z.of_nat k)) ++ rest).
Proof.
  induction k as [|k IH]; intros pre f Hpre.
  - simpl. done.
  - rewrite seqZ_cons by lia.
    replace (50 * S k)%nat with (50 + 50 * k)%nat by lia.
    rewrite replicate_add. cbn [ofold fmap list_fmap concat].
    rewrite <- (app_assoc (replicate 50 0)).
    rewrite write_triangle_record by done. cbn [obind].
    replace (Z.pred (Z.of_nat (S k))) with (Z.of_nat k) by lia.
    rewrite <- app_assoc. rewrite (app_assoc pre). rewrite IH.
    + by rewrite <- !app_assoc.
    + rewrite len_app, stl_record_len. lia.
Qed.

Lemma exportToSTL_whole_faces (data : MeshData) (k : nat) :
  len (indices data) = 3 * Z.of_nat k -> (0 < k)%nat ->
  exportToSTL data = Return (Some (stl_file data))
  /\ len (stl_file data) = 84 + 50 * Z.of_nat k.
Proof.
  intros Hlen Hk.
  assert (len (indices data) / 3 = Z.of_nat k) as Hdiv
    by (rewrite Hlen; symmetry; apply Z.div_unique with 0; lia).
  split.
  - unfold exportToSTL, exportToSTL_fields, stl_file.
    rewrite Hdiv. replace (len (indices data) =? 0) with false by (symmetry; lia).
    replace (len (indices data) * 50 / 3) with (50 * Z.of_nat k)
      by (rewrite Hlen; apply Z.div_unique with 0; lia).
    replace (Z.to_nat (80 + 4 + 50 * Z.of_nat k))
      with (80 + (4 + 50 * k))%nat by lia.
    rewrite !replicate_add.
    rewrite (view_set_at (replicate 80 0) (replicate 4 0));
      [ | done | by rewrite len_uint32_le ].
    cbn [obind]. rewrite Hlen, thirds_exact by lia.
    rewrite write_triangles.
    + cbn [obind]. by rewrite <- app_assoc.
    + rewrite len_app, len_uint32_le. reflexivity.
  - unfold stl_file. rewrite Hdiv, !len_app, len_uint32_le, stl_records_len.
    change (len (replicate 80 0)) with 80. lia.
Qed.

Lemma view_set_past (b bs : list Z) offset : len b < offset + len bs -> view_set b offset bs = Throw RangeError.
Proof.
  intros H. unfold view_set.
  replace (offset + len bs <=? len b) with false by (symmetry; lia).
  by rewrite andb_false_r.
Qed.

(** The record of the face that the index array ends in the middle of:
    the buffer ends 16 or 33 bytes after the start of the record. *)
Lemma write_triangle_partial vertices indices (pre : list Z) (f : Z) (room : nat) :
  len pre = 84 + f * 50 -> room = 16%nat \/ room = 33%nat ->
  write_triangle vertices indices (pre ++ replicate room 0) f = Throw RangeError.
Proof.
  intros Hpre Hroom. unfold write_triangle.
  destruct (stl_normal _ _ _ _) as [[nx ny] nz].
  destruct Hroom as [-> | ->].
  - change (replicate 16 0) with
      (replicate 4 0 ++ replicate 4 0 ++ replicate 4 0 ++ replicate 4 (0 : Z) ++ []).
    do 4 (erewrite view_set_at;
          [ cbn [obind]
          | rewrite ?len_app, ?len_float32_le; lia
          | rewrite len_float32_le; reflexivity ]).
    rewrite view_set_past; [done|].
    rewrite ?len_app, ?len_float32_le. change (len []) with 0. lia.
  - change (replicate 33 0) with
      (replicate 4 0 ++ replicate 4 0 ++ replicate 4 0 ++ replicate 4 0
       ++ replicate 4 0 ++ replicate 4 0 ++ replicate 4 0 ++ replicate 4 0
       ++ replicate 1 (0 : Z)).
    do 8 (erewrite view_set_at;
          [ cbn [obind]
          | rewrite ?len_app, ?len_float32_le; lia
          | rewrite len_float32_le; reflexivity ]).
    rewrite view_set_past; [done|].
    rewrite ?len_app, ?len_float32_le. change (len (replicate 1 0)) with 1. lia.
Qed.

Lemma ofold_app {A B} (f : A -> B -> outcome A) xs ys a :
  ofold f a (xs ++ ys) = let! a := ofold f a xs in ofold f a ys.
Proof.
  revert a. induction xs as [|x xs IH]; intros a; simpl; [done|].
  destruct (f a x); simpl; [apply IH|done..].
Qed.

(** X18: [exportToSTL] raises exactly when the index array does not hold
    whole faces, and then it raises a [RangeError]: the buffer is sized for
    the whole faces plus a fraction of a record, and the record of the last,
    partial face does not fit. *)
Theorem exportToSTL_raises_on_partial_face (data : MeshData) :
  (exportToSTL data = Throw RangeError <-> len (indices data) mod 3 <> 0)
  /\ forall e, exportToSTL data = Throw e -> e = RangeError.
Proof.
  pose proof (len_nonneg (indices data)) as Hl.
  pose proof (Z.div_mod (len (indices data)) 3 ltac:(lia)) as Hd.
  pose proof (Z.mod_pos_bound (len (indices data)) 3 ltac:(lia)) as Hb.
  destruct (decide (len (indices data) mod 3 = 0)) as [Hm|Hm].
  - assert (exists r, exportToSTL data = Return r) as [r Hr].
    { destruct (decide (len (indices data) = 0)) as [E|E].
      - unfold exportToSTL, exportToSTL_fields. rewrite E. eauto.
      - destruct (exportToSTL_whole_faces data (Z.to_nat (len (indices data) / 3)))
          as [H _]; [lia|lia|eauto]. }
    rewrite Hr. split; [split; [done|by intros []]|done].
  - assert (exportToSTL data = Throw RangeError) as Hr;
      [|rewrite Hr; split; [done|by intros e [= <-]]].
    set (k := Z.to_nat (len (indices data) / 3)).
    assert (len (indices data) / 3 = Z.of_nat k) as Hk by (subst k; lia).
    set (room := Z.to_nat (len (indices data) mod 3 * 50 / 3)).
    assert (room = 16%nat \/ room = 33%nat) as Hroom.
    { subst room.
      assert (len (indices data) mod 3 = 1 \/ len (indices data) mod 3 = 2) as [->| ->]
        by lia; [left|right]; reflexivity. }
    unfold exportToSTL, exportToSTL_fields.
    replace (len (indices data) =? 0) with false by (symmetry; lia).
    replace (len (indices data) * 50 / 3)
      with (50 * Z.of_nat k + Z.of_nat room).
    2:{ subst room. rewrite Z2Nat.id by (apply Z.div_pos; lia).
        replace (len (indices data) * 50)
          with (len (indices data) mod 3 * 50 + 50 * Z.of_nat k * 3) by lia.
        rewrite Z.div_add by lia. lia. }
    replace (Z.to_nat (80 + 4 + (50 * Z.of_nat k + Z.of_nat room)))
      with (80 + (4 + (50 * k + room)))%nat by lia.
    rewrite !replicate_add.
    rewrite (view_set_at (replicate 80 0) (replicate 4 0));
      [ | done | by rewrite len_uint32_le ].
    cbn [obind].
    assert (thirds (len (indices data)) = seqZ 0 (Z.of_nat k) ++ [Z.of_nat k]) as ->.
    { unfold thirds.
      replace ((len (indices data) + 2) / 3) with (Z.of_nat k + 1).
      - rewrite seqZ_app by lia. reflexivity.
      - apply Z.div_unique with (len (indices data) mod 3 - 1); lia. }
    rewrite ofold_app, write_triangles_then.
    + cbn [obind ofold]. rewrite app_assoc.
      rewrite write_triangle_partial; [done| |done].
      rewrite !len_app, len_uint32_le, stl_records_len.
      change (len (replicate 80 0)) with 80. lia.
    + rewrite len_app, len_uint32_le. reflexivity.
Qed.

(** ** Exporting what was generated *)

(** X19: the mesh of a run that returned can always be exported.  With a
    triangle table of edge numbers, [handleExport] on such a mesh raises
    nothing: it exports nothing when the mesh has no face, and otherwise
    the file of 84 + 50 * faces bytes. *)
Theorem export_of_a_generated_mesh {W} Math_sin Math_cos EDGE_TABLE TRI_TABLE
    (onProgress : @ProgressCallback W) (params : GenParams) (w w' : W) (m : MeshData) :
  TRI_TABLE_ok TRI_TABLE ->
  generateGyroidMesh Math_sin Math_cos EDGE_TABLE TRI_TABLE onProgress params w
  = Return (m, w') ->
  if len (indices m) =? 0 then handleExport (Some m) = Return None
  else handleExport (Some m) = Return (Some (stl_file m))
       /\ len (stl_file m) = 84 + 50 * (len (indices m) / 3).
Proof.
  intros Htri Hrun.
  assert (well_formed (vertices m) (indices m)) as (_ & Hi & _)
    by (eapply generate_valid; [exact Htri|exact Hrun]).
  pose proof (len_nonneg (indices m)) as Hl.
  pose proof (Z.div_mod (len (indices m)) 3 ltac:(lia)) as Hd.
  destruct (len (indices m) =? 0) eqn:E.
  - cbn [handleExport]. unfold exportToSTL, exportToSTL_fields. by rewrite E.
  - apply Z.eqb_neq in E. cbn [handleExport].
    destruct (exportToSTL_whole_faces m (Z.to_nat (len (indices m) / 3))) as [H1 H2];
      [lia|lia|].
    split; [done|]. rewrite H2. lia.
Qed.

Lemma export_of_a_generated_mesh_witness :
  match sample_generate (app_params (of_Z 2)) with
  | Return (m, _) =>
      if len (indices m) =? 0 then handleExport (Some m) = Return None
      else handleExport (Some m) = Return (Some (stl_file m))
           /\ len (stl_file m) = 84 + 50 * (len (indices m) / 3)
  | _ => False
  end.
Proof.
  destruct (sample_generate (app_params (of_Z 2))) as [[m w']|e|] eqn:E;
    [|vm_compute in E; discriminate E..].
  apply (export_of_a_generated_mesh sample_sin sample_cos sample_EDGE_TABLE
           sample_TRI_TABLE log_progress (app_params (of_Z 2)) [] w' m
           sample_TRI_TABLE_ok E).
Defined.

(** ** The control panel and the generator *)

Lemma same_number_eq x y : same_number x y = true -> x = y.
Proof.
  destruct x as [a|a| |s m e], y as [b|b| |s' m' e']; simpl; try done.
  - by intros ->%eqb_prop.
  - by intros ->%eqb_prop.
  - intros [[->%eqb_prop ->%Pos.eqb_eq]%andb_true_iff ->%Z.eqb_eq]%andb_true_iff. done.
Qed.

Lemma cells_slider_check :
  Forall (fun s => Forall (fun n => cells_slider_stable (5 * s) n = true) (seqZ 1 8))
         (seqZ 4 47).
Proof. apply (bool_decide_unpack _). by vm_compute. Qed.

(** X20: for every position of the size slider (20 to 250 mm in steps of
    5) and every position [n] of the cells-per-axis slider (1 to 8), the
    cell size that the panel sets makes the panel show [n] cells and makes
    the generator use exactly [n] cells of exactly that size: nothing is
    snapped. *)
Theorem cells_per_axis_round_trip (params : GenParams) (s n : Z) :
  4 <= s <= 50 -> 1 <= n <= 8 ->
  let p := set_cells_per_axis (with_size params (of_Z (5 * s))) n in
  cellCount p = of_Z n
  /\ snappedCellCount p = of_Z n
  /\ actualCellMM p = cellSize p
  /\ snappedCellSize p = cellSize p.
Proof.
  intros Hs Hn p.
  pose proof cells_slider_check as H.
  rewrite Forall_forall in H. specialize (H s ltac:(apply elem_of_seqZ; lia)).
  rewrite Forall_forall in H. specialize (H n ltac:(apply elem_of_seqZ; lia)).
  rename H into Hc.
  unfold cells_slider_stable in Hc. apply andb_true_iff in Hc as [H1 H2].
  apply same_number_eq in H1, H2.
  unfold actualCellMM, snappedCellSize, cellCount, snappedCellCount.
  subst p. cbn [set_cells_per_axis with_cellSize with_size size cellSize].
  rewrite H1. rewrite H1 in H2. done.
Qed.

Lemma cells_per_axis_round_trip_witness :
  snappedCellCount (set_cells_per_axis (with_size (app_params (of_Z 60)) (of_Z (5 * 20))) 3)
  = of_Z 3.
Proof.
  apply (cells_per_axis_round_trip (app_params (of_Z 60)) 20 3); lia.
Defined.
